(** * ai-worker-system: orchestration core

    A shallow embedding of the orchestration and execution engine, one
    module per source unit:
    - [Types]                 : src/types/index.ts
    - [Constants]             : src/types/constants.ts
    - [StateMachine]          : src/core/state-machine.ts
    - [Js]                    : the JavaScript operations the code relies on
                                (truthiness, [Array.prototype.sort],
                                [RegExp.prototype.test])
    - [World], [Storage]      : the tool configuration and status files and
                                the storage functions that read and write
                                them ([loadToolStatus], [updateToolStatus],
                                ...: the unit that follows
                                storage/constitution/backend.md)
    - [ClaudeCodeAdapter], [AICliAdapter] : src/executors/ai-adapter.ts
    - [TaskSort], [TaskExecutor] : [class TaskExecutor], the unit that
                                follows the adapter in
                                src/executors/ai-adapter.ts
    - [Scheduler]             : [class Scheduler], the unit that follows the
                                types in src/types/index.ts, with
                                [listPendingFeedbacks] and
                                [updateFeedbackStatus] of the storage unit
    - [FeedbackIds]           : [generateFeedbackId], [getTodayDate] and
                                [parseFeedbackDate] of the storage unit
    - [FeedbackStateMachine]  : [class FeedbackStateMachine] of
                                src/core/state-machine.ts
    - [FeedbackHandler]       : src/handlers/feedback.ts
    - [Promises]              : asynchronous functions at the grain of
                                their awaits, with the files, the
                                directories and the child processes they
                                work on
    - [Filesystem]            : src/storage/filesystem.ts
    - [StorageCalls], [ClaudeCodeAdapterCalls], [AICliAdapterCalls],
      [TaskExecutorCalls]     : the storage functions, the adapter and
                                the executor as asynchronous functions;
                                [TaskExecutorCalls.execute] interleaves
                                the two bucket runs at their awaits

    Part I holds the definitions, Part II the properties. *)

From stdpp Require Import gmap strings list pretty.
From Stdlib Require Import ZArith Lia Ascii.

Local Open Scope Z_scope.

(* ================================================================== *)
(** * Part I: the embedding                                            *)
(* ================================================================== *)

(** ** src/types/index.ts *)
Module Types.

(** The string literal types [ClarificationStatus | FeedbackStatus |
    TaskStatus], taken together as in [StateTransitionResult.newStatus]. *)
Inductive Status : Type :=
  | Pending | Processing | Awaiting | Confirmed | Cancelled | Expired
  | Failed | Analyzing | Executing | Completed | InProgress.

#[global] Instance Status_eq_dec : EqDecision Status.
Proof. solve_decision. Defined.

(** The literal each status stands for. *)
Definition statusText (s : Status) : string :=
  match s with
  | Pending => "pending" | Processing => "processing"
  | Awaiting => "awaiting" | Confirmed => "confirmed"
  | Cancelled => "cancelled" | Expired => "expired"
  | Failed => "failed" | Analyzing => "analyzing"
  | Executing => "executing" | Completed => "completed"
  | InProgress => "in_progress"
  end.

(** A [Date] rendered with [toISOString()], kept as the instant it
    denotes (milliseconds, as [Date.now()] gives them). *)
Definition Timestamp : Type := Z.

(** ['clarification' | 'feedback' | 'task'] *)
Inductive MachineType : Type := TClarification | TFeedback | TTask.

Module StateTransitionResult.
Record t : Type := {
  success : bool;
  newStatus : option Status;
  error : option string;
}.
End StateTransitionResult.

(** The numbers the engine handles are [Date.now()] readings in
    milliseconds, durations, counters, exit codes and priorities: they are
    integers, modelled in [Z].  An optional field ([x?: T]) is an
    [option]. *)
Module TaskResult.
Record t : Type := {
  exitCode : Z;
  output : string;
  duration : Z;
  tool : option string;
  error : option string;
}.
End TaskResult.

Module ExecutableTask.
(** [project] is declared ['backend' | 'frontend'] and compared as a
    string. *)
Record t : Type := {
  id : string;
  title : string;
  description : string;
  files : list string;
  project : string;
  dependsOn : list string;
  status : Status;
  result : option TaskResult.t;
  startedAt : option Timestamp;
  completedAt : option Timestamp;
}.
End ExecutableTask.

Module TaskGroups.
Record t : Type := {
  backend : list ExecutableTask.t;
  frontend : list ExecutableTask.t;
}.
End TaskGroups.

Module ToolStatus.
Record t : Type := {
  name : string;
  available : bool;
  lastSuccess : option Z;
  lastFailed : option Z;
  responseTimeMs : option Z;
  failureCount : Z;
}.
End ToolStatus.

Module ExecuteResult.
Record t : Type := {
  exitCode : Z;
  output : string;
  error : option string;
  duration : Z;
  tool : string;
}.
End ExecuteResult.

Module ToolConfig.
Record t : Type := {
  name : string;
  command : string;
  args : list string;
  enabled : bool;
  priority : Z;
}.
End ToolConfig.

Module ToolsConfig.
Record t : Type := {
  tools : list ToolConfig.t;
  maxRetries : Z;
  retryDelayMs : Z;
  failureCooldownMs : Z;
  defaultTool : string;
}.
End ToolsConfig.

End Types.

(** ** src/types/constants.ts *)
Module Constants.
Import Types.

(** A [Record<string, string[]>]: a key of the table gives its successor
    list, any other key gives [undefined] ([None]). *)
Definition CLARIFICATION_TRANSITIONS (s : Status) : option (list Status) :=
  match s with
  | Pending => Some [Processing; Cancelled]
  | Processing => Some [Awaiting; Confirmed; Failed]
  | Awaiting => Some [Confirmed; Cancelled; Expired]
  | Confirmed => Some []
  | Cancelled => Some []
  | Expired => Some []
  | Failed => Some [Pending]
  | _ => None
  end.

Definition FEEDBACK_TRANSITIONS (s : Status) : option (list Status) :=
  match s with
  | Pending => Some [Analyzing; Failed]
  | Analyzing => Some [Executing; Failed]
  | Executing => Some [Completed; Failed]
  | Completed => Some []
  | Failed => Some [Pending]
  | _ => None
  end.

Definition TASK_TRANSITIONS (s : Status) : option (list Status) :=
  match s with
  | Pending => Some [InProgress]
  | InProgress => Some [Completed; Failed]
  | Completed => Some []
  | Failed => Some [Pending]
  | _ => None
  end.

(** [allowed.includes(newStatus)] *)
Definition includes (allowed : list Status) (s : Status) : bool :=
  bool_decide (s ∈ allowed).

Definition canTransition (currentStatus newStatus : Status)
    (type : MachineType) : bool :=
  let transitions :=
    match type with
    | TClarification => CLARIFICATION_TRANSITIONS
    | TFeedback => FEEDBACK_TRANSITIONS
    | TTask => TASK_TRANSITIONS
    end in
  let allowed := default [] (transitions currentStatus) in
  includes allowed newStatus.

Definition isTerminalStatus (status : Status) : bool :=
  includes [Confirmed; Cancelled; Expired; Completed] status.

Definition isFailedStatus (status : Status) : bool :=
  bool_decide (status = Failed) || bool_decide (status = Expired).

End Constants.

(** ** src/core/state-machine.ts *)
Module StateMachine.
Import Types Constants.

(** [new Date().toISOString()]: the wall clock is an input [now] of every
    call that records a state. *)
Record HistoryEntry : Type := {
  status : Status;
  timestamp : Timestamp;
}.

(** The three private fields of [class StateMachine<T>]. *)
Record t : Type := {
  currentStatus : Status;
  type : MachineType;
  statusHistory : list HistoryEntry;
}.

(** [private recordState(status)]: push onto [statusHistory]. *)
Definition recordState (now : Timestamp) (st : Status) (m : t) : t :=
  {| currentStatus := currentStatus m;
     type := type m;
     statusHistory :=
       statusHistory m ++ [ {| status := st; timestamp := now |} ] |}.

Definition constructor (now : Timestamp) (initialStatus : Status)
    (ty : MachineType) : t :=
  recordState now initialStatus
    {| currentStatus := initialStatus; type := ty; statusHistory := [] |}.

Definition getStatus (m : t) : Status := currentStatus m.

(** [getHistory()] returns a copy of the history array. *)
Definition getHistory (m : t) : list HistoryEntry := statusHistory m.

Definition setStatus (st : Status) (m : t) : t :=
  {| currentStatus := st; type := type m;
     statusHistory := statusHistory m |}.

Definition transition (now : Timestamp) (newSt : Status) (m : t)
    : StateTransitionResult.t * t :=
  if bool_decide (currentStatus m = newSt) then
    ({| StateTransitionResult.success := true;
        StateTransitionResult.newStatus := Some newSt;
        StateTransitionResult.error := None |}, m)
  else if negb (canTransition (currentStatus m) newSt (type m)) then
    ({| StateTransitionResult.success := false;
        StateTransitionResult.newStatus := None;
        StateTransitionResult.error := Some ("Invalid state transition from "
                       +:+ statusText (currentStatus m) +:+ " to "
                       +:+ statusText newSt) |}, m)
  else
    ({| StateTransitionResult.success := true;
        StateTransitionResult.newStatus := Some newSt;
        StateTransitionResult.error := None |},
     recordState now newSt (setStatus newSt m)).

Definition forceTransition (now : Timestamp) (newSt : Status) (m : t)
    : StateTransitionResult.t * t :=
  ({| StateTransitionResult.success := true;
        StateTransitionResult.newStatus := Some newSt;
        StateTransitionResult.error := None |},
   recordState now newSt (setStatus newSt m)).

Definition isTerminal (m : t) : bool := isTerminalStatus (currentStatus m).
Definition isFailed (m : t) : bool := isFailedStatus (currentStatus m).

(** A call made on a machine by its client, with the clock reading at
    the time of the call. *)
Inductive Call : Type :=
  | CallTransition (now : Timestamp) (target : Status)
  | CallForceTransition (now : Timestamp) (target : Status).

Definition call (c : Call) (m : t) : StateTransitionResult.t * t :=
  match c with
  | CallTransition now s => transition now s m
  | CallForceTransition now s => forceTransition now s m
  end.

(** The machine after a sequence of calls, whatever each returned. *)
Definition calls (cs : list Call) (m : t) : t :=
  foldl (fun acc c => snd (call c acc)) m cs.

(** [class TaskStateMachine extends StateMachine<TaskStatus>] *)
Definition TaskStateMachine (now : Timestamp) (initialStatus : Status) : t :=
  constructor now initialStatus TTask.

Definition canStart (m : t) : bool := bool_decide (getStatus m = Pending).
Definition start (now : Timestamp) (m : t) := transition now InProgress m.
Definition complete (now : Timestamp) (m : t) := transition now Completed m.
Definition fail (now : Timestamp) (m : t) := transition now Failed m.

End StateMachine.

(** ** JavaScript values the adapter relies on *)
Module Js.

(** Truthiness of an optional number: [undefined] and [0] are falsy. *)
Definition truthy (n : option Z) : bool :=
  match n with
  | Some z => negb (z =? 0)
  | None => false
  end.

(** [n || d] on an optional number. *)
Definition orElse (n : option Z) (d : Z) : Z :=
  match n with
  | Some z => if z =? 0 then d else z
  | None => d
  end.

(** [s || d] on strings: the empty string is falsy. *)
Definition orString (s d : string) : string :=
  if bool_decide (s = ""%string) then d else s.

(** A number that may be infinite: the result of a sort comparator. *)
Inductive Num : Type := Finite (z : Z) | PosInfinity | NegInfinity | NaN.

(** [n || Infinity] *)
Definition orInfinity (n : option Z) : Num :=
  match n with
  | Some z => if z =? 0 then PosInfinity else Finite z
  | None => PosInfinity
  end.

(** Subtraction. *)
Definition sub (a b : Num) : Num :=
  match a, b with
  | NaN, _ | _, NaN => NaN
  | Finite x, Finite y => Finite (x - y)
  | Finite _, PosInfinity => NegInfinity
  | Finite _, NegInfinity => PosInfinity
  | PosInfinity, PosInfinity => NaN
  | PosInfinity, _ => PosInfinity
  | NegInfinity, NegInfinity => NaN
  | NegInfinity, _ => NegInfinity
  end.

Definition negative (n : Num) : bool :=
  match n with
  | Finite z => z <? 0
  | NegInfinity => true
  | _ => false
  end.

(** [Array.prototype.sort(compareFn)]: a stable sort; [a] goes before [b]
    when [compareFn(a, b) < 0], and a [NaN] or zero result keeps the
    original order.  Written as a stable insertion sort: for a comparator
    that is a consistent ordering, as [compareTools] below is, every
    stable sort gives this list. *)
Section Sort.
Context {A : Type} (compareFn : A -> A -> Num).

Fixpoint insert (x : A) (l : list A) : list A :=
  match l with
  | [] => [x]
  | y :: l' =>
      if negative (compareFn y x) then y :: insert x l' else x :: y :: l'
  end.

Definition sort (l : list A) : list A := foldr insert [] l.

End Sort.

(** Lower case of an ASCII letter; other bytes are unchanged. *)
Definition toLower (c : ascii) : ascii :=
  let n := nat_of_ascii c in
  if ((65 <=? n) && (n <=? 90))%nat then ascii_of_nat (n + 32) else c.

Fixpoint lower (s : string) : string :=
  match s with
  | EmptyString => EmptyString
  | String c s' => String (toLower c) (lower s')
  end.

Fixpoint startsWith (p s : string) : bool :=
  match p, s with
  | EmptyString, _ => true
  | String a p', String b s' => bool_decide (a = b) && startsWith p' s'
  | String _ _, EmptyString => false
  end.

(** [s] contains [p] as a substring. *)
Fixpoint contains (p s : string) : bool :=
  startsWith p s
  || match s with
     | EmptyString => false
     | String _ s' => contains p s'
     end.

(** A regular expression made of literal characters only, with or
    without the [i] flag.  Strings are byte strings here; the literals
    are ASCII, and with the [i] flag an ASCII letter matches exactly its
    two cases. *)
Record RegExp : Type := { source : string; ignoreCase : bool }.

Definition test (r : RegExp) (s : string) : bool :=
  if ignoreCase r then contains (lower (source r)) (lower s)
  else contains (source r) s.

End Js.

(** ** The process-wide state the adapter works on: the two JSON files
    (config/tools.json, storage/agent-status/status.json), the clock,
    the child processes, and the [failureCooldownMs] field of the
    [aiAdapter] singleton.  Time is what [Date.now()] reads; it moves
    while a child runs, and reading or writing a file takes none. *)
Module World.
Import Types.

(** How a spawned child ends: the ['close'] event with its exit code
    ([null] when killed by a signal) and the captured streams, or the
    ['error'] event. *)
Inductive ProcEnd : Type :=
  | Closed (code : option Z) (stdout stderr : string)
  | SpawnError (message : string).

Record ProcRun : Type := {
  procEnd : ProcEnd;
  elapsedMs : Z;
}.

Record t : Type := {
  toolsConfig : option ToolsConfig.t;
  toolStatus : list ToolStatus.t;
  clock : Z;
  (** the behaviour of the [n]-th child spawned, given command and
      arguments *)
  processes : string -> list string -> nat -> ProcRun;
  spawned : list (string * list string);
  failureCooldownMs : Z;
}.

Definition setToolStatus (l : list ToolStatus.t) (w : t) : t :=
  {| toolsConfig := toolsConfig w; toolStatus := l; clock := clock w;
     processes := processes w; spawned := spawned w;
     failureCooldownMs := failureCooldownMs w |}.

Definition setFailureCooldownMs (ms : Z) (w : t) : t :=
  {| toolsConfig := toolsConfig w; toolStatus := toolStatus w;
     clock := clock w; processes := processes w; spawned := spawned w;
     failureCooldownMs := ms |}.

(** A child was spawned and [ms] milliseconds went by. *)
Definition afterSpawn (cmd : string) (args : list string) (ms : Z) (w : t)
    : t :=
  {| toolsConfig := toolsConfig w; toolStatus := toolStatus w;
     clock := clock w + ms; processes := processes w;
     spawned := spawned w ++ [(cmd, args)];
     failureCooldownMs := failureCooldownMs w |}.

End World.

(** ** The storage functions on the tool configuration and status files *)
Module Storage.
Import Types.

Definition loadToolsConfig (w : World.t) : option ToolsConfig.t :=
  World.toolsConfig w.

(** A missing file reads as [[]]. *)
Definition loadToolStatus (w : World.t) : list ToolStatus.t :=
  World.toolStatus w.

Definition saveToolStatus (l : list ToolStatus.t) (w : World.t) : World.t :=
  World.setToolStatus l w.

(** [Partial<ToolStatus>], for the fields the adapter updates. *)
Record Updates : Type := {
  available : option bool;
  lastSuccess : option Z;
  lastFailed : option Z;
  responseTimeMs : option Z;
  failureCount : option Z;
}.

(** [{ ...status, ...updates }] *)
Definition spread (st : ToolStatus.t) (u : Updates) : ToolStatus.t :=
  {| ToolStatus.name := ToolStatus.name st;
     ToolStatus.available := default (ToolStatus.available st) (available u);
     ToolStatus.lastSuccess :=
       match lastSuccess u with Some z => Some z
                           | None => ToolStatus.lastSuccess st end;
     ToolStatus.lastFailed :=
       match lastFailed u with Some z => Some z
                          | None => ToolStatus.lastFailed st end;
     ToolStatus.responseTimeMs :=
       match responseTimeMs u with Some z => Some z
                              | None => ToolStatus.responseTimeMs st end;
     ToolStatus.failureCount :=
       default (ToolStatus.failureCount st) (failureCount u) |}.

(** [statuses.findIndex((s) => s.name === toolName)] *)
Fixpoint findIndex (toolName : string) (l : list ToolStatus.t) : option nat :=
  match l with
  | [] => None
  | s :: l' =>
      if bool_decide (ToolStatus.name s = toolName) then Some 0%nat
      else S <$> findIndex toolName l'
  end.

(** [statuses.find((t) => t.name === toolName)] *)
Definition find (toolName : string) (l : list ToolStatus.t)
    : option ToolStatus.t :=
  List.find (fun s => bool_decide (ToolStatus.name s = toolName)) l.

Definition fresh (toolName : string) : ToolStatus.t :=
  {| ToolStatus.name := toolName; ToolStatus.available := true;
     ToolStatus.lastSuccess := None; ToolStatus.lastFailed := None;
     ToolStatus.responseTimeMs := None; ToolStatus.failureCount := 0 |}.

Definition updateToolStatus (toolName : string) (u : Updates) (w : World.t)
    : World.t :=
  let statuses := loadToolStatus w in
  match findIndex toolName statuses with
  | Some index =>
      match statuses !! index with
      | Some st => saveToolStatus (<[index := spread st u]> statuses) w
      | None => w
      end
  | None => saveToolStatus (statuses ++ [spread (fresh toolName) u]) w
  end.

End Storage.

(** ** src/executors/ai-adapter.ts: [class ClaudeCodeAdapter] *)
Module ClaudeCodeAdapter.
Import Types.

Record t : Type := {
  command : string;
  baseArgs : list string;
}.

(** [`Command failed with code ${code}`] *)
Definition codeText (code : option Z) : string :=
  match code with
  | Some z => pretty z
  | None => "null"
  end.

(** [private execCommand]: the promise settles with [inl output]
    (resolved) or [inr message] (rejected).  With a truthy [timeout] the
    timer rejects first when the child has not closed by then. *)
Definition execCommand (a : t) (prompt : string) (timeout : Z) (w : World.t)
    : (string + string) * World.t :=
  let args :=
    ["-p"; prompt; "--permission-mode"; "bypassPermissions";
     "--no-session-persistence"]%string ++ baseArgs a in
  let run :=
    World.processes w (command a) args (length (World.spawned w)) in
  if negb (timeout =? 0) && (timeout <=? World.elapsedMs run) then
    (inr ("Command timeout after " +:+ pretty timeout +:+ "ms"),
     World.afterSpawn (command a) args timeout w)
  else
    let w' := World.afterSpawn (command a) args (World.elapsedMs run) w in
    match World.procEnd run with
    | World.Closed code output errorOutput =>
        if bool_decide (code = Some 0) then (inl output, w')
        else
          (inr (Js.orString errorOutput
                  (Js.orString output
                     ("Command failed with code " +:+ codeText code))),
           w')
    | World.SpawnError message => (inr message, w')
    end.

(** [execute(prompt, options)]; [timeout] defaults to [300000].  The
    [cwd] option only tells where the child runs; what the child does is
    given by [World.processes]. *)
Definition execute (a : t) (prompt : string) (timeout : option Z)
    (w : World.t) : ExecuteResult.t * World.t :=
  let startTime := World.clock w in
  let '(settled, w') := execCommand a prompt (default 300000 timeout) w in
  match settled with
  | inl output =>
      ({| ExecuteResult.exitCode := 0;
          ExecuteResult.output := output;
          ExecuteResult.error := None;
          ExecuteResult.duration := World.clock w' - startTime;
          ExecuteResult.tool := "claude" |}, w')
  | inr errorMessage =>
      ({| ExecuteResult.exitCode := 1;
          ExecuteResult.output := "";
          ExecuteResult.error := Some errorMessage;
          ExecuteResult.duration := World.clock w' - startTime;
          ExecuteResult.tool := "claude" |}, w')
  end.

End ClaudeCodeAdapter.

(** ** src/executors/ai-adapter.ts: [class AICliAdapter] *)
Module AICliAdapter.
Import Types.

Definition QUOTA_PATTERNS : list Js.RegExp :=
  [ {| Js.source := "quota"; Js.ignoreCase := true |};
    {| Js.source := "limit"; Js.ignoreCase := true |};
    {| Js.source := "rate limit"; Js.ignoreCase := true |};
    {| Js.source := "insufficient"; Js.ignoreCase := true |};
    {| Js.source := "credits"; Js.ignoreCase := true |};
    {| Js.source := "401"; Js.ignoreCase := false |};
    {| Js.source := "403"; Js.ignoreCase := false |};
    {| Js.source := "429"; Js.ignoreCase := false |};
    {| Js.source := "API key"; Js.ignoreCase := true |};
    {| Js.source := "authentication"; Js.ignoreCase := true |} ].

Definition isQuotaError (output : string) : bool :=
  existsb (fun pattern => Js.test pattern output) QUOTA_PATTERNS.

(** [new ClaudeCodeAdapter('claude', [])] *)
Definition claude : ClaudeCodeAdapter.t :=
  {| ClaudeCodeAdapter.command := "claude";
     ClaudeCodeAdapter.baseArgs := [] |}.

(** [private adapters]: the constructor registers one adapter, under the
    name ['claude']. *)
Definition adapters : gmap string ClaudeCodeAdapter.t :=
  {[ "claude"%string := claude ]}.

(** [new Map(statuses.map((s) => [s.name, s])).get(name)]: the last
    record of that name. *)
Definition statusMapGet (statuses : list ToolStatus.t) (toolName : string)
    : option ToolStatus.t :=
  Storage.find toolName (reverse statuses).

Definition setAvailable (b : bool) (st : ToolStatus.t) : ToolStatus.t :=
  {| ToolStatus.name := ToolStatus.name st;
     ToolStatus.available := b;
     ToolStatus.lastSuccess := ToolStatus.lastSuccess st;
     ToolStatus.lastFailed := ToolStatus.lastFailed st;
     ToolStatus.responseTimeMs := ToolStatus.responseTimeMs st;
     ToolStatus.failureCount := ToolStatus.failureCount st |}.

(** [status.lastFailed && now - (status.lastFailed || 0) < failureCooldownMs] *)
Definition inCooldown (now cooldownMs : Z) (st : ToolStatus.t) : bool :=
  Js.truthy (ToolStatus.lastFailed st)
  && (now - Js.orElse (ToolStatus.lastFailed st) 0 <? cooldownMs).

(** The entry pushed on [tools] for one enabled tool of the
    configuration. *)
Definition poolEntry (statuses : list ToolStatus.t) (now cooldownMs : Z)
    (toolConfig : ToolConfig.t) : ToolStatus.t :=
  let status :=
    default (Storage.fresh (ToolConfig.name toolConfig))
            (statusMapGet statuses (ToolConfig.name toolConfig)) in
  if inCooldown now cooldownMs status then setAvailable false status
  else status.

(** [configX?.priority || 999] *)
Definition priorityOf (config : ToolsConfig.t) (toolName : string) : Z :=
  Js.orElse
    (ToolConfig.priority
       <$> List.find (fun t => bool_decide (ToolConfig.name t = toolName))
                     (ToolsConfig.tools config))
    999.

(** The comparator given to [tools.sort]. *)
Definition compareTools (config : ToolsConfig.t) (a b : ToolStatus.t)
    : Js.Num :=
  let priorityA := priorityOf config (ToolStatus.name a) in
  let priorityB := priorityOf config (ToolStatus.name b) in
  if negb (bool_decide (ToolStatus.available a = ToolStatus.available b))
  then (if ToolStatus.available a then Js.Finite (-1) else Js.Finite 1)
  else if negb (priorityA =? priorityB)
  then Js.Finite (priorityA - priorityB)
  else Js.sub (Js.orInfinity (ToolStatus.responseTimeMs a))
              (Js.orInfinity (ToolStatus.responseTimeMs b)).

(** [private getOrderedToolPool()]: the pool, and the world it leaves
    (it reads the two files and the clock; the [available = false] it
    sets goes on the objects just parsed from the file, not on the
    file). *)
Definition getOrderedToolPool (w : World.t) : list ToolStatus.t * World.t :=
  match Storage.loadToolsConfig w with
  | None => ([], w)
  | Some config =>
      let statuses := Storage.loadToolStatus w in
      let now := World.clock w in
      let tools :=
        poolEntry statuses now (World.failureCooldownMs w)
          <$> List.filter ToolConfig.enabled (ToolsConfig.tools config) in
      (Js.sort (compareTools config) tools, w)
  end.

Definition markSuccess (toolName : string) (responseTimeMs : Z)
    (w : World.t) : World.t :=
  Storage.updateToolStatus toolName
    {| Storage.available := Some true;
       Storage.lastSuccess := Some (World.clock w);
       Storage.lastFailed := None;
       Storage.responseTimeMs := Some responseTimeMs;
       Storage.failureCount := Some 0 |} w.

Definition markFailed (toolName reason : string) (w : World.t) : World.t :=
  let statuses := Storage.loadToolStatus w in
  let tool := Storage.find toolName statuses in
  let failureCount := Js.orElse (ToolStatus.failureCount <$> tool) 0 + 1 in
  Storage.updateToolStatus toolName
    {| Storage.available := Some (negb (bool_decide (reason = "quota"%string)));
       Storage.lastSuccess := None;
       Storage.lastFailed := Some (World.clock w);
       Storage.responseTimeMs := None;
       Storage.failureCount := Some failureCount |} w.

Record Options : Type := {
  preferredTool : option string;
  cwd : option string;
  timeout : option Z;
}.

Definition noOptions : Options :=
  {| preferredTool := None; cwd := None; timeout := None |}.

(** How a call of [execute] ends: it returns a result or throws
    [new Error(message)]. *)
Inductive Outcome : Type :=
  | Returned (r : ExecuteResult.t)
  | Thrown (message : string).

(** [options?.preferredTool && tool.name !== options.preferredTool] *)
Definition notPreferred (options : Options) (tool : ToolStatus.t) : bool :=
  match preferredTool options with
  | Some p =>
      negb (bool_decide (p = ""%string))
      && negb (bool_decide (ToolStatus.name tool = p))
  | None => false
  end.

(** [`All tools failed. Last error: ${lastError}`] *)
Definition allFailed (lastError : option string) : Outcome :=
  Thrown ("All tools failed. Last error: "
          +:+ default "undefined"%string lastError).

(** [result.error || result.output] *)
Definition lastErrorOf (result : ExecuteResult.t) : string :=
  Js.orString (default ""%string (ExecuteResult.error result))
              (ExecuteResult.output result).

(** The [for (const tool of toolPool)] loop of [execute] and the [throw]
    after it.  A [ClaudeCodeAdapter] settles every failure of the child
    into a result and the storage calls are total, so the [catch] branch
    of the loop body has nothing to catch. *)
Fixpoint tryTools (prompt : string) (options : Options)
    (toolPool : list ToolStatus.t) (lastError : option string)
    (w : World.t) : Outcome * World.t :=
  match toolPool with
  | [] => (allFailed lastError, w)
  | tool :: rest =>
      if notPreferred options tool then
        tryTools prompt options rest lastError w
      else
        match adapters !! ToolStatus.name tool with
        | None => tryTools prompt options rest lastError w
        | Some adapter =>
            let '(result, w1) :=
              ClaudeCodeAdapter.execute adapter prompt (timeout options) w in
            if ExecuteResult.exitCode result =? 0 then
              (Returned result,
               markSuccess (ToolStatus.name tool)
                 (ExecuteResult.duration result) w1)
            else
              let lastError' := lastErrorOf result in
              let isQuota :=
                isQuotaError (ExecuteResult.output result)
                || isQuotaError lastError' in
              let w2 :=
                markFailed (ToolStatus.name tool)
                  (if isQuota then "quota" else "error")%string w1 in
              if isQuota then tryTools prompt options rest (Some lastError') w2
              else (allFailed (Some lastError'), w2)
        end
  end.

Definition execute (prompt : string) (options : Options) (w : World.t)
    : Outcome * World.t :=
  match Storage.loadToolsConfig w with
  | None => (Thrown "Tools config not found", w)
  | Some config =>
      let w0 :=
        World.setFailureCooldownMs (ToolsConfig.failureCooldownMs config) w in
      let '(toolPool, w1) := getOrderedToolPool w0 in
      if bool_decide (length toolPool = 0%nat) then
        (Thrown "No available AI tools. Please check your configuration.", w1)
      else tryTools prompt options toolPool None w1
  end.

(** [isToolAvailable(toolName)] *)
Definition isToolAvailable (toolName : string) (w : World.t) : bool :=
  match Storage.find toolName (Storage.loadToolStatus w) with
  | None => true
  | Some tool =>
      if negb (ToolStatus.available tool) then false
      else if Js.truthy (ToolStatus.lastFailed tool)
              && (World.clock w - default 0 (ToolStatus.lastFailed tool)
                  <? World.failureCooldownMs w)
      then false
      else true
  end.

End AICliAdapter.

(** ** [class TaskExecutor]: [sortTasksByDependency] and its local
    variables *)
Module TaskSort.
Import Types.

(** The local variables of [sortTasksByDependency]. [processed] is the
    [Set<string>] of placed ids. *)
Record Vars : Type := {
  sorted : list ExecutableTask.t;
  remaining : list ExecutableTask.t;
  processed : gset string;
  iterations : nat;
}.

(** [task.dependsOn.every((dep) => processed.has(dep))] *)
Definition allDepsProcessed (task : ExecutableTask.t) (done : gset string)
    : bool :=
  forallb (fun dep => bool_decide (dep ∈ done)) (ExecutableTask.dependsOn task).

(** The body of the inner [for] loop at index [i]: when the dependencies
    of [remaining[i]] are all processed, push it on [sorted], add its id
    to [processed] and [splice(i, 1)] it out of [remaining]. *)
Definition visit (i : nat) (v : Vars) : Vars :=
  match remaining v !! i with
  | None => v
  | Some task =>
      if allDepsProcessed task (processed v) then
        {| sorted := sorted v ++ [task];
           remaining := delete i (remaining v);
           processed := processed v ∪ {[ ExecutableTask.id task ]};
           iterations := iterations v |}
      else v
  end.

(** [for (let i = n - 1; i >= 0; i--) { ... }] *)
Fixpoint scanDown (n : nat) (v : Vars) : Vars :=
  match n with
  | O => v
  | S i => scanDown i (visit i v)
  end.

(** One turn of the [while] loop: [iterations++], then the scan from
    [remaining.length - 1] down to [0]. *)
Definition pass (v : Vars) : Vars :=
  let v1 := {| sorted := sorted v; remaining := remaining v;
               processed := processed v; iterations := S (iterations v) |} in
  scanDown (length (remaining v1)) v1.

(** [remaining.length > 0 && iterations < maxIterations] *)
Definition guard (maxIterations : nat) (v : Vars) : bool :=
  bool_decide (0 < length (remaining v))%nat
  && bool_decide (iterations v < maxIterations)%nat.

(** The [while] loop, unrolled at most [fuel] times. *)
Fixpoint while (fuel : nat) (maxIterations : nat) (v : Vars) : Vars :=
  match fuel with
  | O => v
  | S fuel' =>
      if guard maxIterations v then while fuel' maxIterations (pass v)
      else v
  end.

Definition init (tasks : list ExecutableTask.t) : Vars :=
  {| sorted := []; remaining := tasks; processed := ∅; iterations := 0 |}.

(** [let maxIterations = tasks.length * 2] *)
Definition maxIterations (tasks : list ExecutableTask.t) : nat :=
  (length tasks * 2)%nat.

(** The variables after at most [k] turns of the loop. *)
Definition afterPasses (k : nat) (tasks : list ExecutableTask.t) : Vars :=
  while k (maxIterations tasks) (init tasks).

(** The variables when the loop is left.  Every turn increments
    [iterations], so [maxIterations] turns are enough for the guard to
    fail ([loop_exits] below). *)
Definition atExit (tasks : list ExecutableTask.t) : Vars :=
  afterPasses (maxIterations tasks) tasks.

Definition sortTasksByDependency (tasks : list ExecutableTask.t)
    : list ExecutableTask.t :=
  let v := atExit tasks in
  if bool_decide (0 < length (remaining v))%nat
  then sorted v ++ remaining v
  else sorted v.

(** The tasks pushed on [sorted] by turn [k + 1] of the loop. *)
Definition placedInPass (k : nat) (tasks : list ExecutableTask.t)
    : list ExecutableTask.t :=
  drop (length (sorted (afterPasses k tasks)))
       (sorted (afterPasses (S k) tasks)).

(** [x] stands at an earlier index than [y] in [l]. *)
Definition precedes (x y : ExecutableTask.t) (l : list ExecutableTask.t)
    : Prop :=
  exists i j, l !! i = Some x /\ l !! j = Some y /\ (i < j)%nat.

(** The tie rule in the words of the specification: of two tasks placed
    in the same turn of the loop, the one earlier in the input list comes
    first in the output. *)
Definition tiesFollowInputOrder (tasks : list ExecutableTask.t) : Prop :=
  forall k i j x y,
    tasks !! i = Some x -> tasks !! j = Some y -> (i < j)%nat ->
    x ∈ placedInPass k tasks -> y ∈ placedInPass k tasks ->
    precedes x y (sortTasksByDependency tasks).

End TaskSort.

(** ** [class TaskExecutor]

    [appendLog] and [saveTaskResult] write the log and [tasks.json],
    which the executor does not read back; they are left out.  The task
    objects are mutated in place by [executeTask]: a run keeps the
    current value of every object of its array, the array holding
    distinct objects. *)
Module TaskExecutor.
Import Types.

(** [private groupTasksByProject] *)
Definition groupTasksByProject (tasks : list ExecutableTask.t) : TaskGroups.t :=
  foldl
    (fun groups task =>
       if bool_decide (ExecutableTask.project task = "frontend"%string) then
         {| TaskGroups.backend := TaskGroups.backend groups;
            TaskGroups.frontend := TaskGroups.frontend groups ++ [task] |}
       else
         {| TaskGroups.backend := TaskGroups.backend groups ++ [task];
            TaskGroups.frontend := TaskGroups.frontend groups |})
    {| TaskGroups.backend := []; TaskGroups.frontend := [] |}
    tasks.

Definition sortTasksByDependency := TaskSort.sortTasksByDependency.

(** [private checkDependencies(task, allTasks)] *)
Definition checkDependencies (task : ExecutableTask.t)
    (allTasks : list ExecutableTask.t) : bool :=
  forallb
    (fun depId =>
       match List.find
               (fun t => bool_decide (ExecutableTask.id t = depId)) allTasks
       with
       | Some depTask => bool_decide (ExecutableTask.status depTask = Completed)
       | None => false
       end)
    (ExecutableTask.dependsOn task).

Definition newline : string := String "010"%char EmptyString.

(** [lines.join(sep)] *)
Fixpoint join (sep : string) (lines : list string) : string :=
  match lines with
  | [] => ""
  | [l] => l
  | l :: ls => l +:+ sep +:+ join sep ls
  end.

(** [private buildTaskPrompt(task)] *)
Definition buildTaskPrompt (task : ExecutableTask.t) : string :=
  let lines :=
    ["任务: " +:+ ExecutableTask.title task; "";
     ExecutableTask.description task; ""]%string
    ++ (if bool_decide (0 < length (ExecutableTask.files task))%nat
        then ["涉及文件:"%string]
             ++ ((fun f => "  - " +:+ f) <$> ExecutableTask.files task)
             ++ [""%string]
        else [])
    ++ (if bool_decide (0 < length (ExecutableTask.dependsOn task))%nat
        then ["依赖任务: " +:+ join ", " (ExecutableTask.dependsOn task); ""]%string
        else [])
    ++ ["请执行此任务。"%string] in
  join newline lines.

(** The object after [task.status = 'in_progress'; task.startedAt = ...]. *)
Definition started (now : Timestamp) (task : ExecutableTask.t)
    : ExecutableTask.t :=
  {| ExecutableTask.id := ExecutableTask.id task;
     ExecutableTask.title := ExecutableTask.title task;
     ExecutableTask.description := ExecutableTask.description task;
     ExecutableTask.files := ExecutableTask.files task;
     ExecutableTask.project := ExecutableTask.project task;
     ExecutableTask.dependsOn := ExecutableTask.dependsOn task;
     ExecutableTask.status := InProgress;
     ExecutableTask.result := ExecutableTask.result task;
     ExecutableTask.startedAt := Some now;
     ExecutableTask.completedAt := ExecutableTask.completedAt task |}.

(** The object after [task.result = ...; task.completedAt = ...;
    task.status = ...]. *)
Definition settled (now : Timestamp) (st : Status) (res : TaskResult.t)
    (task : ExecutableTask.t) : ExecutableTask.t :=
  {| ExecutableTask.id := ExecutableTask.id task;
     ExecutableTask.title := ExecutableTask.title task;
     ExecutableTask.description := ExecutableTask.description task;
     ExecutableTask.files := ExecutableTask.files task;
     ExecutableTask.project := ExecutableTask.project task;
     ExecutableTask.dependsOn := ExecutableTask.dependsOn task;
     ExecutableTask.status := st;
     ExecutableTask.result := Some res;
     ExecutableTask.startedAt := ExecutableTask.startedAt task;
     ExecutableTask.completedAt := Some now |}.

(** [private executeTask(feedbackId, task)]: the value returned, the
    task object as it is left, and the world. *)
Definition executeTask (task : ExecutableTask.t) (w : World.t)
    : bool * ExecutableTask.t * World.t :=
  let startTime := World.clock w in
  let task1 := started (World.clock w) task in
  let prompt := buildTaskPrompt task1 in
  match AICliAdapter.execute prompt AICliAdapter.noOptions w with
  | (AICliAdapter.Returned result, w') =>
      (ExecuteResult.exitCode result =? 0,
       settled (World.clock w') Completed
         {| TaskResult.exitCode := 0;
            TaskResult.output := "";
            TaskResult.duration := ExecuteResult.duration result;
            TaskResult.tool := Some (ExecuteResult.tool result);
            TaskResult.error := None |} task1,
       w')
  | (AICliAdapter.Thrown message, w') =>
      (false,
       settled (World.clock w') Failed
         {| TaskResult.exitCode := 1;
            TaskResult.output := "";
            TaskResult.duration := World.clock w' - startTime;
            TaskResult.tool := None;
            TaskResult.error := Some message |} task1,
       w')
  end.

(** A call of [executeTaskGroup] in progress: the objects of [sorted] as
    they are now, the index the [for] loop stands at, the value returned
    once it has returned, and, as a record of what happened, the ids
    [executeTask] was called on, in order. *)
Record GroupRun : Type := {
  tasks : list ExecutableTask.t;
  next : nat;
  returned : option bool;
  executed : list string;
}.

Definition skip (g : GroupRun) : GroupRun :=
  {| tasks := tasks g; next := S (next g); returned := returned g;
     executed := executed g |}.

Definition finish (b : bool) (g : GroupRun) : GroupRun :=
  {| tasks := tasks g; next := next g; returned := Some b;
     executed := executed g |}.

Definition ran (task' : ExecutableTask.t) (g : GroupRun) : GroupRun :=
  {| tasks := <[next g := task']> (tasks g); next := next g;
     returned := returned g;
     executed := executed g ++ [ExecutableTask.id task'] |}.

(** [const sorted = this.sortTasksByDependency(tasks)] *)
Definition enter (group : list ExecutableTask.t) : GroupRun :=
  {| tasks := sortTasksByDependency group; next := 0%nat; returned := None;
     executed := [] |}.

(** One turn of [for (const task of sorted)], or the [return true] after
    the loop; a call that has returned stays as it is.  The state machine
    is local to the turn: only [canStart()] is read from it, and the
    results of [start()], [complete()] and [fail()] are dropped. *)
Definition stepGroup (g : GroupRun) (w : World.t) : GroupRun * World.t :=
  match returned g with
  | Some _ => (g, w)
  | None =>
      match tasks g !! next g with
      | None => (finish true g, w)
      | Some task =>
          let stateMachine :=
            StateMachine.TaskStateMachine (World.clock w)
              (ExecutableTask.status task) in
          if negb (StateMachine.canStart stateMachine) then (skip g, w)
          else if negb (checkDependencies task (tasks g)) then (skip g, w)
          else
            let '(result, task', w') := executeTask task w in
            if result then (skip (ran task' g), w')
            else (finish false (ran task' g), w')
      end
  end.

(** [n] turns in a row. *)
Fixpoint stepsGroup (n : nat) (g : GroupRun) (w : World.t)
    : GroupRun * World.t :=
  match n with
  | O => (g, w)
  | S n' => let '(g', w') := stepGroup g w in stepsGroup n' g' w'
  end.

(** A call run to its end: one turn for each element of [sorted] and the
    [return] after the loop. *)
Definition runToEnd (g : GroupRun) (w : World.t) : GroupRun * World.t :=
  stepsGroup (S (length (tasks g) - next g)) g w.

(** [private executeTaskGroup(feedbackId, tasks, groupName)], run on its
    own. *)
Definition executeTaskGroup (group : list ExecutableTask.t) (w : World.t)
    : GroupRun * World.t :=
  runToEnd (enter group) w.

(** The two promises of [Promise.all]: an empty group is
    [Promise.resolve(true)]. *)
Definition promise (group : list ExecutableTask.t) : GroupRun :=
  if bool_decide (0 < length group)%nat then enter group
  else finish true {| tasks := []; next := 0%nat; returned := None;
                      executed := [] |}.

Inductive Side : Type := Back | Front.

(** The two calls advance in turns; which one is resumed next depends on
    when the awaited child processes end, and is given by a schedule.
    The grain is one turn of the [for] loop: the awaits inside a turn are
    taken together. *)
Fixpoint interleave (schedule : list Side) (b f : GroupRun) (w : World.t)
    : GroupRun * GroupRun * World.t :=
  match schedule with
  | [] => (b, f, w)
  | Back :: s => let '(b', w') := stepGroup b w in interleave s b' f w'
  | Front :: s => let '(f', w') := stepGroup f w in interleave s b f' w'
  end.

Record BatchRun : Type := {
  allSuccess : bool;
  backendRun : GroupRun;
  frontendRun : GroupRun;
}.

(** [execute(feedbackId, tasks)]: both calls are started, they advance as
    the schedule says and, the schedule exhausted, each is run to its
    end; [Promise.all] then gives both results (both calls have returned
    by then, see [runToEnd_ends]). *)
Definition execute (schedule : list Side) (batch : list ExecutableTask.t)
    (w : World.t) : BatchRun * World.t :=
  let groups := groupTasksByProject batch in
  let '(b, f, w1) :=
    interleave schedule (promise (TaskGroups.backend groups))
               (promise (TaskGroups.frontend groups)) w in
  let '(b', w2) := runToEnd b w1 in
  let '(f', w3) := runToEnd f w2 in
  let results := [default false (returned b'); default false (returned f')] in
  ({| allSuccess := forallb (fun r => r) results;
      backendRun := b'; frontendRun := f' |}, w3).

End TaskExecutor.

(** ** [class Scheduler], with the two storage functions it calls

    Calls of [poll()] overlap: each is a thread of control that runs
    until its next [await] and is resumed when the awaited promise
    settles.  The state below is what the threads share, and one step
    resumes one thread.  The two handlers are collaborators: how a call
    of [analyze] or of [FeedbackHandler.execute] ends is given with the
    step that resumes the poll waiting for it.  The store is today's
    partition, in order of creation. *)
Module Scheduler.
Import Types.

Inductive Kind : Type := Clarification | Feedback.

(** [AnyFeedback], with the fields the scheduler reads. *)
Record AnyFeedback : Type := {
  id : string;
  type : Kind;
  status : Status;
}.

#[global] Instance Kind_eq_dec : EqDecision Kind.
Proof. solve_decision. Defined.

(** [listPendingFeedbacks()]: the clarifications that are pending, and
    the feedbacks that are pending or analyzing, of today's partition. *)
Definition listPendingFeedbacks (store : list AnyFeedback)
    : list AnyFeedback * list AnyFeedback :=
  (List.filter
     (fun fb => bool_decide (type fb = Clarification)
                && bool_decide (status fb = Pending)) store,
   List.filter
     (fun fb => negb (bool_decide (type fb = Clarification))
                && (bool_decide (status fb = Pending)
                    || bool_decide (status fb = Analyzing))) store).

(** [updateFeedbackStatus(feedbackId, newStatus)] *)
Definition updateFeedbackStatus (feedbackId : string) (newStatus : Status)
    (store : list AnyFeedback) : list AnyFeedback :=
  (fun fb =>
     if bool_decide (id fb = feedbackId)
     then {| id := id fb; type := type fb; status := newStatus |}
     else fb) <$> store.

(** A record of one handler start, kept for the statements below: the
    poll that made it, the item, and [activeTasks] as it was just before
    the [add]. *)
Record Dispatch : Type := {
  byPoll : nat;
  item : string;
  activeBefore : gset string;
}.

(** What the calls of [poll()] share: the fields of the scheduler, the
    store, and the record of handler starts. *)
Record Shared : Type := {
  maxConcurrent : nat;
  running : bool;
  activeTasks : gset string;
  store : list AnyFeedback;
  dispatched : list Dispatch;
}.

Definition setRunning (b : bool) (sh : Shared) : Shared :=
  {| maxConcurrent := maxConcurrent sh; running := b;
     activeTasks := activeTasks sh; store := store sh;
     dispatched := dispatched sh |}.

Definition setStore (l : list AnyFeedback) (sh : Shared) : Shared :=
  {| maxConcurrent := maxConcurrent sh; running := running sh;
     activeTasks := activeTasks sh; store := l;
     dispatched := dispatched sh |}.

(** [private canStartTask()] *)
Definition canStartTask (sh : Shared) : bool :=
  bool_decide (size (activeTasks sh) < maxConcurrent sh)%nat.

(** The first statement of [handleClarification] and [handleFeedback]:
    [this.activeTasks.add(id)]. *)
Definition addActive (poll : nat) (fb : AnyFeedback) (sh : Shared) : Shared :=
  {| maxConcurrent := maxConcurrent sh; running := running sh;
     activeTasks := activeTasks sh ∪ {[ id fb ]}; store := store sh;
     dispatched :=
       dispatched sh
       ++ [ {| byPoll := poll; item := id fb;
               activeBefore := activeTasks sh |} ] |}.

(** Their [finally]: [this.activeTasks.delete(id)]. *)
Definition deleteActive (fb : AnyFeedback) (sh : Shared) : Shared :=
  {| maxConcurrent := maxConcurrent sh; running := running sh;
     activeTasks := activeTasks sh ∖ {[ id fb ]}; store := store sh;
     dispatched := dispatched sh |}.

(** The [await] a call of [poll()] is suspended at. *)
Inductive Stage : Type :=
  | Listing                                   (* listPendingFeedbacks() *)
  | MarkProcessing (c : AnyFeedback)          (* updateFeedbackStatus(id, 'processing') *)
  | Analyze (c : AnyFeedback)                 (* clarificationHandler.analyze(id) *)
  | SettleStatus (c : AnyFeedback) (st : Status) (* updateFeedbackStatus(id, st) *)
  | MarkAnalyzing (f : AnyFeedback)           (* updateFeedbackStatus(id, 'analyzing') *)
  | RunHandler (f : AnyFeedback)              (* feedbackHandler.execute(id) *)
  | MarkFailed (f : AnyFeedback)              (* updateFeedbackStatus(id, 'failed') *)
  | Over.                                     (* poll() has returned *)

(** A call of [poll()]: where it is suspended, and what is left of
    [pending.clarifications] and [pending.feedbacks] to iterate. *)
Record Poll : Type := {
  stage : Stage;
  clarifications : list AnyFeedback;
  feedbacks : list AnyFeedback;
}.

Definition over : Poll :=
  {| stage := Over; clarifications := []; feedbacks := [] |}.

(** The second [for] loop of [poll()], from its head to the next [await]:
    [break] when the budget is used up; otherwise [handleFeedback], which
    awaits something only for a feedback that is pending, analyzing or
    executing. *)
Fixpoint feedbackLoop (poll : nat) (todo : list AnyFeedback) (sh : Shared)
    : Poll * Shared :=
  match todo with
  | [] => (over, sh)
  | f :: rest =>
      if negb (canStartTask sh) then (over, sh)
      else
        let sh1 := addActive poll f sh in
        if bool_decide (status f = Pending) then
          ({| stage := MarkAnalyzing f; clarifications := [];
              feedbacks := rest |}, sh1)
        else if bool_decide (status f = Analyzing)
                || bool_decide (status f = Executing) then
          ({| stage := RunHandler f; clarifications := [];
              feedbacks := rest |}, sh1)
        else feedbackLoop poll rest (deleteActive f sh1)
  end.

(** The first [for] loop, from its head to the next [await]; after it,
    or after its [break], the second loop. *)
Definition clarificationLoop (poll : nat) (todo fbs : list AnyFeedback)
    (sh : Shared) : Poll * Shared :=
  match todo with
  | [] => feedbackLoop poll fbs sh
  | c :: rest =>
      if negb (canStartTask sh) then feedbackLoop poll fbs sh
      else
        ({| stage := MarkProcessing c; clarifications := rest;
            feedbacks := fbs |}, addActive poll c sh)
  end.

(** How an awaited promise settles. *)
Inductive Outcome : Type :=
  | Fulfilled
  | NeedsClarification   (* analyze: needsClarification with questions *)
  | Leaving (st : Status) (* feedbackHandler.execute: returns, having left
                             the feedback in status [st] *)
  | Rejected.

(** The call [poll] of [poll()], suspended at [stage p], is resumed with
    outcome [o] and runs to its next [await]. *)
Definition resume (poll : nat) (o : Outcome) (p : Poll) (sh : Shared)
    : Poll * Shared :=
  match stage p with
  | Listing =>
      match o with
      | Rejected => (over, sh)
      | _ =>
          let '(cs, fs) := listPendingFeedbacks (store sh) in
          clarificationLoop poll cs fs sh
      end
  | MarkProcessing c =>
      ({| stage := Analyze c; clarifications := clarifications p;
          feedbacks := feedbacks p |},
       setStore (updateFeedbackStatus (id c) Processing (store sh)) sh)
  | Analyze c =>
      let st :=
        match o with
        | NeedsClarification => Awaiting
        | Rejected => Failed
        | _ => Confirmed
        end in
      ({| stage := SettleStatus c st; clarifications := clarifications p;
          feedbacks := feedbacks p |}, sh)
  | SettleStatus c st =>
      clarificationLoop poll (clarifications p) (feedbacks p)
        (deleteActive c
           (setStore (updateFeedbackStatus (id c) st (store sh)) sh))
  | MarkAnalyzing f =>
      ({| stage := RunHandler f; clarifications := clarifications p;
          feedbacks := feedbacks p |},
       setStore (updateFeedbackStatus (id f) Analyzing (store sh)) sh)
  | RunHandler f =>
      match o with
      | Rejected =>
          ({| stage := MarkFailed f; clarifications := clarifications p;
              feedbacks := feedbacks p |}, sh)
      | Leaving st =>
          feedbackLoop poll (feedbacks p)
            (deleteActive f
               (setStore (updateFeedbackStatus (id f) st (store sh)) sh))
      | _ => feedbackLoop poll (feedbacks p) (deleteActive f sh)
      end
  | MarkFailed f =>
      feedbackLoop poll (feedbacks p)
        (deleteActive f
           (setStore (updateFeedbackStatus (id f) Failed (store sh)) sh))
  | Over => (p, sh)
  end.

Record t : Type := {
  shared : Shared;
  polls : list Poll;
}.

Inductive Event : Type :=
  | Start                              (* start() *)
  | Stop                               (* stop() *)
  | InvokePoll                         (* a timer tick, or a direct poll() *)
  | Settle (poll : nat) (o : Outcome). (* an awaited promise settles *)

Definition listing : Poll :=
  {| stage := Listing; clarifications := []; feedbacks := [] |}.

Definition step (ev : Event) (s : t) : t :=
  match ev with
  | Start =>
      if running (shared s) then s
      else {| shared := setRunning true (shared s);
              polls := polls s ++ [listing] |}
  | Stop => {| shared := setRunning false (shared s); polls := polls s |}
  | InvokePoll =>
      if negb (running (shared s)) then s
      else {| shared := shared s; polls := polls s ++ [listing] |}
  | Settle i o =>
      match polls s !! i with
      | None => s
      | Some p =>
          let '(p', sh') := resume i o p (shared s) in
          {| shared := sh'; polls := <[i := p']> (polls s) |}
      end
  end.

Definition run (events : list Event) (s : t) : t :=
  foldl (fun acc ev => step ev acc) s events.

(** [new Scheduler({ maxConcurrent })] over a given store. *)
Definition init (budget : nat) (items : list AnyFeedback) : t :=
  {| shared := {| maxConcurrent := budget; running := false;
                  activeTasks := ∅; store := items; dispatched := [] |};
     polls := [] |}.

(** The item a suspended call is handling, if any. *)
Definition handling (p : Poll) : option string :=
  match stage p with
  | MarkProcessing c | Analyze c | SettleStatus c _ => Some (id c)
  | MarkAnalyzing f | RunHandler f | MarkFailed f => Some (id f)
  | Listing | Over => None
  end.

(** The claim in the words of the specification: no handler is started
    for an item whose id is in [activeTasks] already. *)
Definition noDispatchOfActive (s : t) : Prop :=
  forall d, d ∈ dispatched (shared s) -> item d ∉ activeBefore d.

End Scheduler.

(** Two pending clarifications and a run of the scheduler in which a
    second call of [poll()] starts while the first is still handling its
    first item. *)
Module SampleTicks.
Import Types Scheduler.

Definition itemW : AnyFeedback :=
  {| id := "20261102-090000-w"; type := Clarification; status := Pending |}.
Definition itemX : AnyFeedback :=
  {| id := "20261102-090001-x"; type := Clarification; status := Pending |}.

Definition overlap : list Event :=
  [ Start;               (* poll 0 is invoked *)
    Settle 0 Fulfilled;  (* poll 0 lists [W; X] and starts on W *)
    Settle 0 Fulfilled;  (* W is marked processing; its analysis begins *)
    InvokePoll;          (* the timer fires: poll 1 is invoked *)
    Settle 1 Fulfilled;  (* poll 1 lists [X] and starts on X *)
    Settle 1 Fulfilled;  (* X is marked processing; its analysis begins *)
    Settle 0 Fulfilled;  (* the analysis of W returns *)
    Settle 0 Fulfilled   (* W is marked confirmed; poll 0 goes on to X *)
  ].

End SampleTicks.

(** Concrete configurations and worlds for the examples. *)
Module SampleWorlds.
Import Types.

Definition tool (n cmd : string) (prio : Z) : ToolConfig.t :=
  {| ToolConfig.name := n; ToolConfig.command := cmd;
     ToolConfig.args := []; ToolConfig.enabled := true;
     ToolConfig.priority := prio |}.

Definition config (l : list ToolConfig.t) : ToolsConfig.t :=
  {| ToolsConfig.tools := l; ToolsConfig.maxRetries := 3;
     ToolsConfig.retryDelayMs := 1000;
     ToolsConfig.failureCooldownMs := 300000;
     ToolsConfig.defaultTool := "claude" |}.

Definition world (l : list ToolConfig.t) (statuses : list ToolStatus.t)
    (procs : string -> list string -> nat -> World.ProcRun) : World.t :=
  {| World.toolsConfig := Some (config l);
     World.toolStatus := statuses;
     World.clock := 1000000;
     World.processes := procs;
     World.spawned := [];
     World.failureCooldownMs := 300000 |}.

Definition exits (code : Z) (out err : string) : World.ProcRun :=
  {| World.procEnd := World.Closed (Some code) out err;
     World.elapsedMs := 1200 |}.

(** The [claude] command fails on its quota; any other command would
    succeed. *)
Definition claudeOutOfQuota (cmd : string) (args : list string) (n : nat)
    : World.ProcRun :=
  if bool_decide (cmd = "claude"%string)
  then exits 1 "" "Error: quota exceeded"
  else exits 0 "done" "".

(** Two enabled backends, [claude] preferred, no status on file. *)
Definition twoBackends : World.t :=
  world [tool "claude" "claude" 1; tool "gemini" "gemini-cli" 2] []
        claudeOutOfQuota.

(** The first child spawned fails on a rate limit, the later ones
    succeed. *)
Definition firstRunLimited (cmd : string) (args : list string) (n : nat)
    : World.ProcRun :=
  match n with
  | O => exits 1 "" "429 rate limit"
  | S _ => exits 0 "done" ""
  end.

(** Two entries of the configuration under the one registered name. *)
Definition twiceClaude : World.t :=
  world [tool "claude" "claude" 1; tool "claude" "claude" 2] []
        firstRunLimited.

(** Every command fails with a message that is no quota message. *)
Definition alwaysBroken (cmd : string) (args : list string) (n : nat)
    : World.ProcRun :=
  exits 2 "" "segmentation fault".

Definition oneBackend : World.t :=
  world [tool "claude" "claude" 1] [] alwaysBroken.

(** A record of [claude] whose last failure is [ago] milliseconds old. *)
Definition failedAgo (ago : Z) : ToolStatus.t :=
  {| ToolStatus.name := "claude"; ToolStatus.available := true;
     ToolStatus.lastSuccess := None;
     ToolStatus.lastFailed := Some (1000000 - ago);
     ToolStatus.responseTimeMs := None; ToolStatus.failureCount := 1 |}.

Definition cooling (ago : Z) : World.t :=
  world [tool "claude" "claude" 1] [failedAgo ago] alwaysBroken.

End SampleWorlds.

(** Concrete tasks for the examples. *)
Module Samples.
Import Types.

Definition mkTask (i proj : string) (deps : list string) (st : Status)
    : ExecutableTask.t :=
  {| ExecutableTask.id := i;
     ExecutableTask.title := i;
     ExecutableTask.description := "";
     ExecutableTask.files := [];
     ExecutableTask.project := proj;
     ExecutableTask.dependsOn := deps;
     ExecutableTask.status := st;
     ExecutableTask.result := None;
     ExecutableTask.startedAt := None;
     ExecutableTask.completedAt := None |}.

(** Two independent tasks. *)
Definition taskX : ExecutableTask.t := mkTask "X" "backend" [] Pending.
Definition taskY : ExecutableTask.t := mkTask "Y" "backend" [] Pending.

(** A prerequisite and its two dependents. *)
Definition taskA : ExecutableTask.t := mkTask "A" "backend" [] Pending.
Definition taskB : ExecutableTask.t := mkTask "B" "backend" ["A"] Pending.
Definition taskC : ExecutableTask.t := mkTask "C" "backend" ["A"] Pending.

(** A batch of one backend task and two frontend tasks. *)
Definition taskB1 : ExecutableTask.t := mkTask "B1" "backend" [] Pending.
Definition taskF1 : ExecutableTask.t := mkTask "F1" "frontend" [] Pending.
Definition taskF2 : ExecutableTask.t := mkTask "F2" "frontend" ["F1"] Pending.

(** The child fails when the prompt, its second argument, mentions
    [B1], and succeeds otherwise. *)
Definition failsOnB1 (cmd : string) (args : list string) (n : nat)
    : World.ProcRun :=
  if Js.contains "B1" (default ""%string (args !! 1%nat))
  then SampleWorlds.exits 2 "" "compilation failed"
  else SampleWorlds.exits 0 "done" "".

Definition backendBreaks : World.t :=
  SampleWorlds.world [SampleWorlds.tool "claude" "claude" 1] [] failsOnB1.

End Samples.

(** ** The storage unit: feedback ids and the day they are filed under

    The strings handled here are ISO dates, clock times and base-36
    digits: ASCII, one byte to the UTF-16 code unit. *)
Module FeedbackIds.

(** [s.slice(i, j)] for [0 <= i <= j]. *)
Definition slice (i j : nat) (s : string) : string :=
  String.substring i (j - i) s.

(** [s] holds the character [c]. *)
Fixpoint has (c : ascii) (s : string) : bool :=
  match s with
  | EmptyString => false
  | String a s' => bool_decide (a = c) || has c s'
  end.

(** [s.replace(/c/g, '')] for a literal character [c]. *)
Fixpoint removeAll (c : ascii) (s : string) : string :=
  match s with
  | EmptyString => EmptyString
  | String a s' =>
      if bool_decide (a = c) then removeAll c s' else String a (removeAll c s')
  end.

(** [s.split(c)[0]]: what stands before the first [c]. *)
Fixpoint beforeFirst (c : ascii) (s : string) : string :=
  match s with
  | EmptyString => EmptyString
  | String a s' =>
      if bool_decide (a = c) then EmptyString else String a (beforeFirst c s')
  end.

(** [generateFeedbackId()], given what the calls it makes return:
    [now.toISOString()], [now.toTimeString()] and
    [Math.random().toString(36)]. *)
Definition generateFeedbackId (iso timeString randomText : string) : string :=
  let date := removeAll "-" (slice 0 10 iso) in
  let time := removeAll ":" (slice 0 8 timeString) in
  let random := slice 2 7 randomText in
  date +:+ "-" +:+ time +:+ "-" +:+ random.

(** [getTodayDate()], given [new Date().toISOString()]. *)
Definition getTodayDate (iso : string) : string := slice 0 10 iso.

Definition parseFeedbackDate (feedbackId : string) : string :=
  let datePart := beforeFirst "-" feedbackId in
  slice 0 4 datePart +:+ "-" +:+ slice 4 6 datePart +:+ "-"
  +:+ slice 6 8 datePart.

End FeedbackIds.

(** ** src/core/state-machine.ts: [class FeedbackStateMachine] *)
Module FeedbackStateMachine.
Import Types.

(** [new FeedbackStateMachine(initialStatus)] *)
Definition new (now : Timestamp) (initialStatus : Status) : StateMachine.t :=
  StateMachine.constructor now initialStatus TFeedback.

Definition startAnalyzing (now : Timestamp) (m : StateMachine.t) :=
  StateMachine.transition now Analyzing m.
Definition startExecuting (now : Timestamp) (m : StateMachine.t) :=
  StateMachine.transition now Executing m.
Definition complete (now : Timestamp) (m : StateMachine.t) :=
  StateMachine.transition now Completed m.
Definition fail (now : Timestamp) (m : StateMachine.t) :=
  StateMachine.transition now Failed m.
Definition retry (now : Timestamp) (m : StateMachine.t) :=
  StateMachine.transition now Pending m.

End FeedbackStateMachine.

(** ** src/handlers/feedback.ts: [FeedbackHandler.execute]

    The handler loads and saves [feedback.json] files, one per feedback
    id, and drives a [FeedbackStateMachine].  The three generation
    steps and the run of the tasks are its collaborators: what each
    gives back is an input of the call.  The logs, prompts and the [sdd]
    directory are written and not read back; they are left out. *)
Module FeedbackHandler.
Import Types.

Record SDDDocument : Type := {
  spec : string;
  plan : string;
  tasks : list ExecutableTask.t;
}.

(** [Feedback], with the fields [execute] reads or writes. *)
Record Feedback : Type := {
  id : string;
  status : Status;
  updatedAt : Timestamp;
  sdd : option SDDDocument;
}.

(** The [feedback.json] files, by the feedback id their path is made
    of. *)
Definition Store : Type := gmap string Feedback.

Definition loadFeedback (feedbackId : string) (store : Store)
    : option Feedback :=
  store !! feedbackId.

(** [saveFeedback(feedback)] writes under the id the object carries. *)
Definition saveFeedback (feedback : Feedback) (store : Store) : Store :=
  <[id feedback := feedback]> store.

(** [private updateStatus(feedbackId, newStatus)]: load, set, save. *)
Definition updateStatus (now : Timestamp) (feedbackId : string)
    (newStatus : Status) (store : Store) : Store :=
  match loadFeedback feedbackId store with
  | Some feedback =>
      saveFeedback {| id := id feedback; status := newStatus;
                      updatedAt := now; sdd := sdd feedback |} store
  | None => store
  end.

(** What the collaborators give back in one call. *)
Record Steps : Type := {
  generateSpec : option string;            (* string | null *)
  generatePlan : option string;            (* string | null *)
  generateTasks : list ExecutableTask.t;
  runTasks : bool;                         (* taskExecutor.execute *)
}.

(** The clock readings of one call: at the construction of the state
    machine, at the first status update and at the last one. *)
Record Clock : Type := {
  atEntry : Timestamp;
  atFirstUpdate : Timestamp;
  atLastUpdate : Timestamp;
}.

Inductive Ending : Type :=
  | Returned (b : bool)
  | Thrown (message : string).

(** [!s] for [s : string | null]. *)
Definition falsy (s : option string) : bool :=
  match s with
  | None => true
  | Some text => bool_decide (text = ""%string)
  end.

(** [stateMachine.fail(); await this.updateStatus(...); return false] *)
Definition giveUp (now : Timestamp) (feedbackId : string)
    (stateMachine : StateMachine.t) (store : Store) : Ending * Store :=
  let stateMachine' := snd (FeedbackStateMachine.fail now stateMachine) in
  (Returned false,
   updateStatus now feedbackId (StateMachine.getStatus stateMachine') store).

(** [execute] up to the call of [taskExecutor.execute]: the call has
    ended early, or the tasks are about to run, with the state machine
    and the files as they are then. *)
Definition prepare (clock : Clock) (feedbackId : string) (steps : Steps)
    (store : Store) : (Ending * Store) + (StateMachine.t * Store) :=
  match loadFeedback feedbackId store with
  | None => inl (Thrown ("Feedback not found: " +:+ feedbackId), store)
  | Some feedback =>
      let stateMachine :=
        FeedbackStateMachine.new (atEntry clock) (status feedback) in
      if falsy (generateSpec steps) then
        inl (giveUp (atFirstUpdate clock) feedbackId stateMachine store)
      else if falsy (generatePlan steps) then
        inl (giveUp (atFirstUpdate clock) feedbackId stateMachine store)
      else if bool_decide (length (generateTasks steps) = 0%nat) then
        inl (giveUp (atFirstUpdate clock) feedbackId stateMachine store)
      else
        (* feedback.sdd = { spec, plan, tasks } *)
        let feedback' :=
          {| id := id feedback; status := status feedback;
             updatedAt := updatedAt feedback;
             sdd := Some {| spec := default ""%string (generateSpec steps);
                            plan := default ""%string (generatePlan steps);
                            tasks := generateTasks steps |} |} in
        let stateMachine1 :=
          snd (FeedbackStateMachine.startExecuting (atFirstUpdate clock)
                 stateMachine) in
        let store1 :=
          updateStatus (atFirstUpdate clock) feedbackId
            (StateMachine.getStatus stateMachine1) store in
        let store2 := saveFeedback feedback' store1 in
        inr (stateMachine1, store2)
  end.

(** [execute] from the return of [taskExecutor.execute] on. *)
Definition conclude (clock : Clock) (feedbackId : string) (success : bool)
    (stateMachine : StateMachine.t) (store : Store) : Ending * Store :=
  let stateMachine' :=
    snd (if success
         then FeedbackStateMachine.complete (atLastUpdate clock) stateMachine
         else FeedbackStateMachine.fail (atLastUpdate clock) stateMachine) in
  (Returned success,
   updateStatus (atLastUpdate clock) feedbackId
     (StateMachine.getStatus stateMachine') store).

Definition execute (clock : Clock) (feedbackId : string) (steps : Steps)
    (store : Store) : Ending * Store :=
  match prepare clock feedbackId steps store with
  | inl ended => ended
  | inr (stateMachine, store') =>
      conclude clock feedbackId (runTasks steps) stateMachine store'
  end.

(** A task as the model wrote it in its JSON answer: every field may be
    missing; a field that is there has the type the prompt asks for. *)
Record RawTask : Type := {
  rawId : option string;
  rawTitle : option string;
  rawDescription : option string;
  rawFiles : option (list string);
  rawProject : option string;
  rawDependsOn : option (list string);
}.

(** [s || d] for a field that may be missing. *)
Definition orText (s : option string) (d : string) : string :=
  if falsy s then d else default d s.

(** The function mapped over [parsed.tasks] in [generateTasks], given
    the feedback's [projectScope] and [Math.random().toString(36)].
    The [project] expression parses as
    [(t.project || scope === 'fullstack') ? 'backend' : scope]. *)
Definition convertTask (projectScope : string) (randomText : string)
    (t : RawTask) : ExecutableTask.t :=
  {| ExecutableTask.id :=
       orText (rawId t) ("task-" +:+ String.substring 2 6 randomText);
     ExecutableTask.title := orText (rawTitle t) "无标题任务";
     ExecutableTask.description := orText (rawDescription t) "";
     ExecutableTask.files := default [] (rawFiles t);
     ExecutableTask.project :=
       if negb (falsy (rawProject t))
          || bool_decide (projectScope = "fullstack"%string)
       then "backend"%string else projectScope;
     ExecutableTask.dependsOn := default [] (rawDependsOn t);
     ExecutableTask.status := Pending;
     ExecutableTask.result := None;
     ExecutableTask.startedAt := None;
     ExecutableTask.completedAt := None |}.

(** [tasks.map(...)], each raw task with the random text drawn for
    it. *)
Definition convertTasks (projectScope : string)
    (raws : list (string * RawTask)) : list ExecutableTask.t :=
  (fun r => convertTask projectScope (fst r) (snd r)) <$> raws.

End FeedbackHandler.

(** ** Asynchronous functions, at the grain of their awaits

    The two calls of [executeTaskGroup] that [TaskExecutor.execute] hands
    to [Promise.all] run on one thread: a call runs until it awaits an
    operation of the file system or the end of a child process, and is
    resumed when that operation is over; in between, the other call may
    run.  An [async] function is kept here as the tree of the operations
    it performs, each with what the function does with the reply.

    The operations of the file system are taken to be atomic, each
    taking effect when it completes (the moment the awaiting call is
    resumed), and to take no time; the clock moves while a child runs.
    An [await] on a promise that is already settled is no point where
    the other call can be resumed with anything new to see, and is not
    kept as one. *)
Module Promises.
Import Types.

(** The files the executor and the adapter work on.  [tmp p] is
    [`${p}.tmp`], the path [writeJSON] writes before it renames. *)
Inductive Path : Type :=
  | toolsJson
  | statusJson
  | tasksJson (feedbackId : string)
  | agentLog (feedbackId : string)
  | tmp (filePath : Path).

#[global] Instance Path_eq_dec : EqDecision Path.
Proof. solve_decision. Defined.

Inductive Dir : Type :=
  | configDir
  | agentStatusDir
  | sddDir (feedbackId : string)
  | debugDir (feedbackId : string).

#[global] Instance Dir_eq_dec : EqDecision Dir.
Proof. solve_decision. Defined.

(** [path.dirname(filePath)] *)
Fixpoint dirname (p : Path) : Dir :=
  match p with
  | toolsJson => configDir
  | statusJson => agentStatusDir
  | tasksJson feedbackId => sddDir feedbackId
  | agentLog feedbackId => debugDir feedbackId
  | tmp filePath => dirname filePath
  end.

(** [getFeedbacksDir(date, feedbackId)], the working directory being
    [root]. *)
Definition feedbacksDir (root feedbackId : string) : string :=
  root +:+ "/storage/feedbacks/" +:+ FeedbackIds.parseFeedbackDate feedbackId
  +:+ "/" +:+ feedbackId.

(** The path as the code writes it: ['config/tools.json'],
    ['storage/agent-status/status.json'], [`${sddDir}/tasks.json`],
    [`${debugDir}/agent.log`]. *)
Fixpoint pathText (root : string) (p : Path) : string :=
  match p with
  | toolsJson => "config/tools.json"
  | statusJson => "storage/agent-status/status.json"
  | tasksJson feedbackId => feedbacksDir root feedbackId +:+ "/sdd/tasks.json"
  | agentLog feedbackId => feedbacksDir root feedbackId +:+ "/debug/agent.log"
  | tmp filePath => pathText root filePath +:+ ".tmp"
  end.

(** ['info' | 'warn' | 'error'] *)
Inductive Level : Type := Info | Warn | Error.

(** A line of the log,
    [`[${timestamp}] [${level.toUpperCase()}] ${message}\n`], kept as the
    three parts it is formatted from. *)
Record LogLine : Type := {
  timestamp : Timestamp;
  level : Level;
  message : string;
}.

(** What a file holds.  A JSON file is kept as the value that
    [JSON.stringify] was given and [JSON.parse] gives back. *)
Inductive Content : Type :=
  | ConfigData (config : ToolsConfig.t)
  | StatusData (statuses : list ToolStatus.t)
  | TasksData (tasks : list ExecutableTask.t)
  | LogData (lines : list LogLine).

(** A spawned child: what it will do, and when it was spawned. *)
Record Child : Type := {
  run : World.ProcRun;
  spawnedAt : Z;
}.

(** What settles the promise of [execCommand]: the timer, or the
    ['close'] or ['error'] event of the child. *)
Inductive ChildEvent : Type :=
  | TimerFired
  | Ended (e : World.ProcEnd).

Inductive Op : Type :=
  | DateNow
  | ExistsSync (d : Dir)
  | GetCooldown
  | SetCooldown (ms : Z)
  | Spawn (command : string) (args : list string)
  | Mkdir (d : Dir)
  | ReadFile (p : Path)
  | WriteFile (p : Path) (data : Content)
  | Rename (oldPath newPath : Path)
  | AppendFile (p : Path) (line : LogLine)
  | Settle (proc : Child) (timeout : Z).

(** What an operation answers.  An operation of [fs/promises] answers
    [inl] when its promise is fulfilled and [inr message] when it is
    rejected. *)
Definition Reply (op : Op) : Type :=
  match op with
  | DateNow => Z
  | ExistsSync _ => bool
  | GetCooldown => Z
  | SetCooldown _ => unit
  | Spawn _ _ => Child
  | Mkdir _ => unit
  | ReadFile _ => (Content + string)%type
  | WriteFile _ _ => (unit + string)%type
  | Rename _ _ => (unit + string)%type
  | AppendFile _ _ => (unit + string)%type
  | Settle _ _ => ChildEvent
  end.

(** The operations a call waits for; the others ([Date.now()],
    [existsSync], the [failureCooldownMs] field of the [aiAdapter]
    singleton, [spawn]) are synchronous. *)
Definition awaited (op : Op) : bool :=
  match op with
  | DateNow | ExistsSync _ | GetCooldown | SetCooldown _ | Spawn _ _ => false
  | Mkdir _ | ReadFile _ | WriteFile _ _ | Rename _ _ | AppendFile _ _
  | Settle _ _ => true
  end.

(** The body of an [async] function that returns [Promise<A>]: it
    returns, throws [new Error(message)], or performs an operation and
    goes on with the reply. *)
Inductive Promise (A : Type) : Type :=
  | Return (a : A)
  | Throw (message : string)
  | Do (op : Op) (k : Reply op -> Promise A).

Arguments Return {A} a.
Arguments Throw {A} message.
Arguments Do {A} op k.

Fixpoint bind {A B : Type} (p : Promise A) (f : A -> Promise B) : Promise B :=
  match p with
  | Return a => f a
  | Throw message => Throw message
  | Do op k => Do op (fun r => bind (k r) f)
  end.

#[global] Instance Promise_ret : MRet Promise := fun A a => Return a.
#[global] Instance Promise_bind : MBind Promise := fun A B f p => bind p f.

(** [try { p } catch (error) { handler(error.message) }], where both
    blocks end in a [return] or a [throw]. *)
Fixpoint tryCatch {A : Type} (p : Promise A) (handler : string -> Promise A)
    : Promise A :=
  match p with
  | Return a => Return a
  | Throw message => handler message
  | Do op k => Do op (fun r => tryCatch (k r) handler)
  end.

(** One operation, with the reply passed on. *)
Definition call (op : Op) : Promise (Reply op) := Do op Return.

(** An operation of [fs/promises], awaited: a rejection is thrown. *)
Definition orThrow {A : Type} (p : Promise (A + string)) : Promise A :=
  r ← p;
  match r with
  | inl a => Return a
  | inr message => Throw message
  end.

(** The process: the working directory, the files and directories, the
    clock, what the children do, the children spawned so far, and the
    [failureCooldownMs] field of the [aiAdapter] singleton. *)
Record Machine : Type := {
  cwd : string;
  files : Path -> option Content;
  dirs : Dir -> bool;
  clock : Z;
  processes : string -> list string -> nat -> World.ProcRun;
  spawned : list (string * list string);
  failureCooldownMs : Z;
}.

Definition withFiles (f : Path -> option Content) (m : Machine) : Machine :=
  {| cwd := cwd m; files := f; dirs := dirs m; clock := clock m;
     processes := processes m; spawned := spawned m;
     failureCooldownMs := failureCooldownMs m |}.

Definition withDirs (d : Dir -> bool) (m : Machine) : Machine :=
  {| cwd := cwd m; files := files m; dirs := d; clock := clock m;
     processes := processes m; spawned := spawned m;
     failureCooldownMs := failureCooldownMs m |}.

Definition withClock (now : Z) (m : Machine) : Machine :=
  {| cwd := cwd m; files := files m; dirs := dirs m; clock := now;
     processes := processes m; spawned := spawned m;
     failureCooldownMs := failureCooldownMs m |}.

Definition withSpawned (l : list (string * list string)) (m : Machine)
    : Machine :=
  {| cwd := cwd m; files := files m; dirs := dirs m; clock := clock m;
     processes := processes m; spawned := l;
     failureCooldownMs := failureCooldownMs m |}.

Definition withCooldown (ms : Z) (m : Machine) : Machine :=
  {| cwd := cwd m; files := files m; dirs := dirs m; clock := clock m;
     processes := processes m; spawned := spawned m;
     failureCooldownMs := ms |}.

(** The files with [p] holding [data], or removed. *)
Definition put (p : Path) (data : option Content)
    (f : Path -> option Content) : Path -> option Content :=
  fun q => if bool_decide (q = p) then data else f q.

Definition made (d : Dir) (f : Dir -> bool) : Dir -> bool :=
  fun e => if bool_decide (e = d) then true else f e.

(** The message of the error a missing file or directory gives. *)
Definition noEntry (syscall : string) (root : string) (p : Path) : string :=
  "ENOENT: no such file or directory, " +:+ syscall +:+ " '"
  +:+ pathText root p +:+ "'".

Definition noEntryRename (root : string) (oldPath newPath : Path) : string :=
  "ENOENT: no such file or directory, rename '" +:+ pathText root oldPath
  +:+ "' -> '" +:+ pathText root newPath +:+ "'".

(** The lines of a log file with one more line. *)
Definition appended (line : LogLine) (old : option Content) : Content :=
  match old with
  | Some (LogData lines) => LogData (lines ++ [line])
  | _ => LogData [line]
  end.

(** The delay [setTimeout] waits for: a delay below 1 or above
    2147483647 is set to 1. *)
Definition timerDelay (timeout : Z) : Z :=
  if (timeout <? 1) || (2147483647 <? timeout) then 1 else timeout.

(** What an operation does and answers.
    - [Spawn] starts the next child; what it will do is given by
      [processes].
    - [Mkdir] is [fs.mkdir(d, { recursive: true })].
    - [WriteFile] and [AppendFile] create the file where there is none
      and need its directory; [Rename] needs the file it moves, and
      replaces the file at the new path.
    - [Settle] is over when the timer fires (a timer is set when
      [timeout] is truthy) or when the child ends, whichever comes
      first, and no earlier than that. *)
Definition perform (op : Op) (m : Machine) : Reply op * Machine :=
  match op return Reply op * Machine with
  | DateNow => (clock m, m)
  | ExistsSync d => (dirs m d, m)
  | GetCooldown => (failureCooldownMs m, m)
  | SetCooldown ms => (tt, withCooldown ms m)
  | Spawn command args =>
      ({| run := processes m command args (length (spawned m));
          spawnedAt := clock m |},
       withSpawned (spawned m ++ [(command, args)]) m)
  | Mkdir d => (tt, withDirs (made d (dirs m)) m)
  | ReadFile p =>
      (match files m p with
       | Some data => inl data
       | None => inr (noEntry "open" (cwd m) p)
       end, m)
  | WriteFile p data =>
      if dirs m (dirname p) then
        (inl tt, withFiles (put p (Some data) (files m)) m)
      else (inr (noEntry "open" (cwd m) p), m)
  | Rename oldPath newPath =>
      match files m oldPath with
      | Some data =>
          (inl tt,
           withFiles (put newPath (Some data) (put oldPath None (files m))) m)
      | None => (inr (noEntryRename (cwd m) oldPath newPath), m)
      end
  | AppendFile p line =>
      if dirs m (dirname p) then
        (inl tt,
         withFiles (put p (Some (appended line (files m p))) (files m)) m)
      else (inr (noEntry "open" (cwd m) p), m)
  | Settle proc timeout =>
      if negb (timeout =? 0)
         && (timerDelay timeout <=? World.elapsedMs (run proc))
      then
        (TimerFired,
         withClock (Z.max (clock m) (spawnedAt proc + timerDelay timeout)) m)
      else
        (Ended (World.procEnd (run proc)),
         withClock
           (Z.max (clock m) (spawnedAt proc + World.elapsedMs (run proc))) m)
  end.

(** The reply is the rejection of a write to the file system. *)
Definition failed (op : Op) : Reply op -> bool :=
  match op return Reply op -> bool with
  | WriteFile _ _ | Rename _ _ | AppendFile _ _ =>
      fun r => match r with inl _ => false | inr _ => true end
  | _ => fun _ => false
  end.

(** How a promise is settled. *)
Inductive Settled (A : Type) : Type :=
  | Fulfilled (a : A)
  | Rejected (message : string).

Arguments Fulfilled {A} a.
Arguments Rejected {A} message.

(** The synchronous part of a call: it runs up to the next operation it
    has to wait for. *)
Fixpoint syncPart {A : Type} (p : Promise A) (m : Machine)
    : Promise A * Machine :=
  match p with
  | Do op k =>
      if awaited op then (p, m)
      else syncPart (k (fst (perform op m))) (snd (perform op m))
  | _ => (p, m)
  end.

(** A call that waits for an operation is resumed: the operation takes
    effect, and the call runs up to the next operation it has to wait
    for.  The third component is the operation when it was a write that
    failed. *)
Definition resume {A : Type} (p : Promise A) (m : Machine)
    : Promise A * Machine * list Op :=
  match p with
  | Do op k =>
      (syncPart (k (fst (perform op m))) (snd (perform op m)),
       if failed op (fst (perform op m)) then [op] else [])
  | _ => (p, m, [])
  end.

(** A call run to its end with nothing else running, and the writes
    that failed on the way. *)
Fixpoint complete {A : Type} (p : Promise A) (m : Machine)
    : Settled A * Machine * list Op :=
  match p with
  | Return a => (Fulfilled a, m, [])
  | Throw message => (Rejected message, m, [])
  | Do op k =>
      let '(s, m', errs) :=
        complete (k (fst (perform op m))) (snd (perform op m)) in
      (s, m', (if failed op (fst (perform op m)) then [op] else []) ++ errs)
  end.

End Promises.

(** ** src/storage/filesystem.ts *)
Module Filesystem.
Import Types Promises.

(** [ensureDir(dirPath)] *)
Definition ensureDir (dirPath : Dir) : Promise unit :=
  present ← call (ExistsSync dirPath);
  if negb present then call (Mkdir dirPath) else Return tt.

(** [readJSON(filePath)]: [null] when the file cannot be read. *)
Definition readJSON (filePath : Path) : Promise (option Content) :=
  tryCatch (content ← orThrow (call (ReadFile filePath)); Return (Some content))
           (fun _ => Return None).

(** [writeJSON(filePath, data)] *)
Definition writeJSON (filePath : Path) (data : Content) : Promise unit :=
  let dir := dirname filePath in
  ensureDir dir;;
  let tmpPath := tmp filePath in
  orThrow (call (WriteFile tmpPath data));;
  orThrow (call (Rename tmpPath filePath)).

(** [appendText(filePath, content)] *)
Definition appendText (filePath : Path) (content : LogLine) : Promise unit :=
  let dir := dirname filePath in
  ensureDir dir;;
  orThrow (call (AppendFile filePath content)).

End Filesystem.

(** ** The storage functions the executor and the adapter call, from the
    unit that follows storage/constitution/backend.md *)
Module StorageCalls.
Import Types Promises Filesystem.

Definition asConfig (c : Content) : option ToolsConfig.t :=
  match c with ConfigData config => Some config | _ => None end.

Definition asStatuses (c : Content) : option (list ToolStatus.t) :=
  match c with StatusData statuses => Some statuses | _ => None end.

Definition asTasks (c : Content) : option (list ExecutableTask.t) :=
  match c with TasksData tasks => Some tasks | _ => None end.

(** [appendLog(feedbackId, message, level)] *)
Definition appendLog (feedbackId message : string) (level : Level)
    : Promise unit :=
  ensureDir (debugDir feedbackId);;
  timestamp ← call DateNow;
  appendText (agentLog feedbackId)
    {| timestamp := timestamp; level := level; message := message |}.

(** [loadToolsConfig()] *)
Definition loadToolsConfig : Promise (option ToolsConfig.t) :=
  c ← readJSON toolsJson; Return (c ≫= asConfig).

(** [loadToolStatus()]: [[]] when there is no file. *)
Definition loadToolStatus : Promise (list ToolStatus.t) :=
  c ← readJSON statusJson; Return (default [] (c ≫= asStatuses)).

(** [saveToolStatus(status)] *)
Definition saveToolStatus (status : list ToolStatus.t) : Promise unit :=
  writeJSON statusJson (StatusData status).

(** The array [updateToolStatus] saves. *)
Definition updated (toolName : string) (updates : Storage.Updates)
    (statuses : list ToolStatus.t) : list ToolStatus.t :=
  match Storage.findIndex toolName statuses with
  | Some index =>
      match statuses !! index with
      | Some st => <[index := Storage.spread st updates]> statuses
      | None => statuses
      end
  | None => statuses ++ [Storage.spread (Storage.fresh toolName) updates]
  end.

(** [updateToolStatus(toolName, updates)] *)
Definition updateToolStatus (toolName : string) (updates : Storage.Updates)
    : Promise unit :=
  statuses ← loadToolStatus;
  saveToolStatus (updated toolName updates statuses).

(** [existingTasks.findIndex((t) => t.id === task.id)] *)
Fixpoint findIndex (taskId : string) (l : list ExecutableTask.t)
    : option nat :=
  match l with
  | [] => None
  | t :: l' =>
      if bool_decide (ExecutableTask.id t = taskId) then Some 0%nat
      else S <$> findIndex taskId l'
  end.

(** [saveTaskResult(feedbackId, task)] *)
Definition saveTaskResult (feedbackId : string) (task : ExecutableTask.t)
    : Promise unit :=
  let tasksPath := tasksJson feedbackId in
  existingTasks ← readJSON tasksPath;
  match existingTasks ≫= asTasks with
  | Some existingTasks =>
      match findIndex (ExecutableTask.id task) existingTasks with
      | Some index =>
          writeJSON tasksPath (TasksData (<[index := task]> existingTasks))
      | None => Return tt
      end
  | None => Return tt
  end.

End StorageCalls.

(** ** src/executors/ai-adapter.ts, at the grain of its awaits:
    [class ClaudeCodeAdapter] *)
Module ClaudeCodeAdapterCalls.
Import Types Promises.

(** [ClaudeCodeAdapter.execCommand(prompt, { cwd, timeout })] *)
Definition execCommand (a : ClaudeCodeAdapter.t) (prompt : string)
    (timeout : Z) : Promise string :=
  let args :=
    ["-p"; prompt; "--permission-mode"; "bypassPermissions";
     "--no-session-persistence"]%string ++ ClaudeCodeAdapter.baseArgs a in
  proc ← call (Spawn (ClaudeCodeAdapter.command a) args);
  event ← call (Settle proc timeout);
  match event with
  | TimerFired =>
      Throw ("Command timeout after " +:+ pretty timeout +:+ "ms")
  | Ended (World.Closed code output errorOutput) =>
      if bool_decide (code = Some 0) then Return output
      else
        Throw (Js.orString errorOutput
                 (Js.orString output
                    ("Command failed with code "
                     +:+ ClaudeCodeAdapter.codeText code)))
  | Ended (World.SpawnError message) => Throw message
  end.

(** [ClaudeCodeAdapter.execute(prompt, options)]; [timeout] defaults to
    [300000]. *)
Definition execute (a : ClaudeCodeAdapter.t) (prompt : string)
    (timeout : option Z) : Promise ExecuteResult.t :=
  startTime ← call DateNow;
  tryCatch
    (output ← execCommand a prompt (default 300000 timeout);
     now ← call DateNow;
     Return {| ExecuteResult.exitCode := 0;
               ExecuteResult.output := output;
               ExecuteResult.error := None;
               ExecuteResult.duration := now - startTime;
               ExecuteResult.tool := "claude" |})
    (fun errorMessage =>
       now ← call DateNow;
       Return {| ExecuteResult.exitCode := 1;
                 ExecuteResult.output := "";
                 ExecuteResult.error := Some errorMessage;
                 ExecuteResult.duration := now - startTime;
                 ExecuteResult.tool := "claude" |}).

End ClaudeCodeAdapterCalls.

(** ** src/executors/ai-adapter.ts, at the grain of its awaits:
    [class AICliAdapter] *)
Module AICliAdapterCalls.
Import Types Promises StorageCalls.

(** [AICliAdapter.getOrderedToolPool()] *)
Definition getOrderedToolPool : Promise (list ToolStatus.t) :=
  config ← loadToolsConfig;
  match config with
  | None => Return []
  | Some config =>
      statuses ← loadToolStatus;
      now ← call DateNow;
      cooldownMs ← call GetCooldown;
      let tools :=
        AICliAdapter.poolEntry statuses now cooldownMs
          <$> List.filter ToolConfig.enabled (ToolsConfig.tools config) in
      Return (Js.sort (AICliAdapter.compareTools config) tools)
  end.

(** [AICliAdapter.markSuccess(toolName, responseTimeMs)] *)
Definition markSuccess (toolName : string) (responseTimeMs : Z)
    : Promise unit :=
  now ← call DateNow;
  updateToolStatus toolName
    {| Storage.available := Some true;
       Storage.lastSuccess := Some now;
       Storage.lastFailed := None;
       Storage.responseTimeMs := Some responseTimeMs;
       Storage.failureCount := Some 0 |}.

(** [AICliAdapter.markFailed(toolName, reason)] *)
Definition markFailed (toolName reason : string) : Promise unit :=
  statuses ← loadToolStatus;
  let tool := Storage.find toolName statuses in
  let failureCount := Js.orElse (ToolStatus.failureCount <$> tool) 0 + 1 in
  now ← call DateNow;
  updateToolStatus toolName
    {| Storage.available :=
         Some (negb (bool_decide (reason = "quota"%string)));
       Storage.lastSuccess := None;
       Storage.lastFailed := Some now;
       Storage.responseTimeMs := None;
       Storage.failureCount := Some failureCount |}.

(** How one turn of the loop of [execute] on a tool with an adapter
    ends: [return result], on to the next tool, or [break]. *)
Inductive Turn : Type :=
  | Returns (result : ExecuteResult.t)
  | Continues (lastError : string)
  | Breaks (lastError : string).

(** [`All tools failed. Last error: ${lastError}`] *)
Definition allFailed (lastError : option string) : string :=
  "All tools failed. Last error: " +:+ default "undefined"%string lastError.

(** The [try] and [catch] blocks of the loop body. *)
Definition tryTool (adapter : ClaudeCodeAdapter.t) (prompt : string)
    (options : AICliAdapter.Options) (tool : ToolStatus.t) : Promise Turn :=
  tryCatch
    (result ← ClaudeCodeAdapterCalls.execute adapter prompt
               (AICliAdapter.timeout options);
     if ExecuteResult.exitCode result =? 0 then
       markSuccess (ToolStatus.name tool) (ExecuteResult.duration result);;
       Return (Returns result)
     else
       let lastError := AICliAdapter.lastErrorOf result in
       let isQuota :=
         AICliAdapter.isQuotaError (ExecuteResult.output result)
         || AICliAdapter.isQuotaError lastError in
       markFailed (ToolStatus.name tool)
         (if isQuota then "quota" else "error")%string;;
       Return (if isQuota then Continues lastError else Breaks lastError))
    (fun message =>
       markFailed (ToolStatus.name tool) "error";;
       Return (Breaks message)).

(** The [for (const tool of toolPool)] loop of [execute] and the [throw]
    after it. *)
Fixpoint tryTools (prompt : string) (options : AICliAdapter.Options)
    (toolPool : list ToolStatus.t) (lastError : option string)
    : Promise ExecuteResult.t :=
  match toolPool with
  | [] => Throw (allFailed lastError)
  | tool :: rest =>
      if AICliAdapter.notPreferred options tool then
        tryTools prompt options rest lastError
      else
        match AICliAdapter.adapters !! ToolStatus.name tool with
        | None => tryTools prompt options rest lastError
        | Some adapter =>
            turn ← tryTool adapter prompt options tool;
            match turn with
            | Returns result => Return result
            | Continues message => tryTools prompt options rest (Some message)
            | Breaks message => Throw (allFailed (Some message))
            end
        end
  end.

(** [AICliAdapter.execute(prompt, options)] *)
Definition execute (prompt : string) (options : AICliAdapter.Options)
    : Promise ExecuteResult.t :=
  config ← loadToolsConfig;
  match config with
  | None => Throw "Tools config not found"
  | Some config =>
      call (SetCooldown (ToolsConfig.failureCooldownMs config));;
      toolPool ← getOrderedToolPool;
      if bool_decide (length toolPool = 0%nat) then
        Throw "No available AI tools. Please check your configuration."
      else tryTools prompt options toolPool None
  end.

End AICliAdapterCalls.

(** ** [class TaskExecutor], at the grain of its awaits *)
Module TaskExecutorCalls.
Import Types Promises StorageCalls.
Import TaskExecutor.

(** [private executeTask(feedbackId, task)]: the value returned and the
    task object as it is left.  The [catch] block overwrites the three
    fields the [try] block may have set after the first two. *)
Definition executeTask (feedbackId : string) (task : ExecutableTask.t)
    : Promise (bool * ExecutableTask.t) :=
  startTime ← call DateNow;
  let task1 := started startTime task in
  tryCatch
    (saveTaskResult feedbackId task1;;
     let prompt := buildTaskPrompt task1 in
     result ← AICliAdapterCalls.execute prompt AICliAdapter.noOptions;
     now ← call DateNow;
     let task2 :=
       settled now Completed
         {| TaskResult.exitCode := 0;
            TaskResult.output := "";
            TaskResult.duration := ExecuteResult.duration result;
            TaskResult.tool := Some (ExecuteResult.tool result);
            TaskResult.error := None |} task1 in
     saveTaskResult feedbackId task2;;
     appendLog feedbackId
       ("任务 " +:+ ExecutableTask.id task2 +:+ " 执行完成，耗时 "
        +:+ pretty (ExecuteResult.duration result) +:+ "ms") Info;;
     Return (ExecuteResult.exitCode result =? 0, task2))
    (fun message =>
       now ← call DateNow;
       let task3 :=
         settled now Failed
           {| TaskResult.exitCode := 1;
              TaskResult.output := "";
              TaskResult.duration := now - startTime;
              TaskResult.tool := None;
              TaskResult.error := Some message |} task1 in
       saveTaskResult feedbackId task3;;
       appendLog feedbackId
         ("任务 " +:+ ExecutableTask.id task3 +:+ " 执行异常: Error: "
          +:+ message) Error;;
       Return (false, task3)).

(** The [for (const task of sorted)] loop of [executeTaskGroup], with
    [n] turns to go, and the [return true] after it. *)
Fixpoint forOf (feedbackId : string) (n : nat) (g : GroupRun)
    : Promise GroupRun :=
  match n with
  | O => Return (finish true g)
  | S n' =>
      match tasks g !! next g with
      | None => Return (finish true g)
      | Some task =>
          now ← call DateNow;
          let stateMachine :=
            StateMachine.TaskStateMachine now (ExecutableTask.status task) in
          if negb (StateMachine.canStart stateMachine) then
            appendLog feedbackId
              ("任务 " +:+ ExecutableTask.id task +:+ " 状态为 "
               +:+ statusText (ExecutableTask.status task) +:+ "，跳过") Info;;
            forOf feedbackId n' (skip g)
          else if negb (checkDependencies task (tasks g)) then
            appendLog feedbackId
              ("任务 " +:+ ExecutableTask.id task +:+ " 的依赖未完成，跳过")
              Warn;;
            forOf feedbackId n' (skip g)
          else
            appendLog feedbackId
              ("开始执行任务 " +:+ ExecutableTask.id task +:+ ": "
               +:+ ExecutableTask.title task) Info;;
            answer ← executeTask feedbackId task;
            let result : bool := fst answer in
            let task' : ExecutableTask.t := snd answer in
            if result then
              appendLog feedbackId
                ("任务 " +:+ ExecutableTask.id task' +:+ " 完成") Info;;
              forOf feedbackId n' (skip (ran task' g))
            else
              appendLog feedbackId
                ("任务 " +:+ ExecutableTask.id task' +:+ " 失败") Error;;
              Return (finish false (ran task' g))
      end
  end.

(** [private executeTaskGroup(feedbackId, tasks, groupName)]: the call
    returns the run, [returned] holding the value of the promise. *)
Definition executeTaskGroup (feedbackId : string)
    (group : list ExecutableTask.t) (groupName : string) : Promise GroupRun :=
  appendLog feedbackId
    ("执行 " +:+ groupName +:+ " 任务组，共 " +:+ pretty (length group)
     +:+ " 个任务") Info;;
  let g := enter group in
  forOf feedbackId (length (tasks g)) g.

(** The two promises given to [Promise.all]: an empty group is
    [Promise.resolve(true)]. *)
Definition promiseOf (feedbackId : string) (group : list ExecutableTask.t)
    (groupName : string) : Promise GroupRun :=
  if bool_decide (0 < length group)%nat
  then executeTaskGroup feedbackId group groupName
  else Return (promise group).

(** The two calls side by side: each waits for an operation or is over.
    [failures] are the writes that failed, with the call that made
    them; [rejection] is the error of the call that was rejected
    first, the one [Promise.all] rejects with. *)
Record Calls : Type := {
  back : Promise GroupRun;
  front : Promise GroupRun;
  machine : Machine;
  failures : list (Side * Op);
  rejection : option string;
}.

Definition callOf (side : Side) (s : Calls) : Promise GroupRun :=
  match side with
  | Back => back s
  | Front => front s
  end.

Definition noted (p : Promise GroupRun) (seen : option string)
    : option string :=
  match seen, p with
  | None, Throw message => Some message
  | _, _ => seen
  end.

(** The call on [side] is resumed. *)
Definition resumed (side : Side) (s : Calls) : Calls :=
  let '(p, m, errs) := resume (callOf side s) (machine s) in
  {| back := match side with Back => p | Front => back s end;
     front := match side with Back => front s | Front => p end;
     machine := m;
     failures := failures s ++ ((fun op => (side, op)) <$> errs);
     rejection := noted p (rejection s) |}.

(** Which call is resumed next depends on which awaited operation is
    over first, and is given by a schedule. *)
Definition interleave (schedule : list Side) (s : Calls) : Calls :=
  foldl (fun s side => resumed side s) s schedule.

(** The promise a call has become, once it is over. *)
Definition over (ended : Settled GroupRun) : Promise GroupRun :=
  match ended with
  | Fulfilled g => Return g
  | Rejected message => Throw message
  end.

(** The call on [side] runs to its end. *)
Definition completed (side : Side) (s : Calls) : Calls :=
  let '(ended, m, errs) := complete (callOf side s) (machine s) in
  {| back := match side with Back => over ended | Front => back s end;
     front := match side with Back => front s | Front => over ended end;
     machine := m;
     failures := failures s ++ ((fun op => (side, op)) <$> errs);
     rejection := noted (over ended) (rejection s) |}.

(** A call of [execute] that is over. [backendRun] and [frontendRun]
    are how the two calls of [executeTaskGroup] ended. *)
Record BatchRun : Type := {
  answer : Settled bool;
  backendRun : Promise GroupRun;
  frontendRun : Promise GroupRun;
  writeFailures : list (Side * Op);
  finalMachine : Machine;
}.

(** The value of the promise of a call that returned. *)
Definition valueOf (p : Promise GroupRun) : bool :=
  match p with
  | Return g => default false (returned g)
  | _ => false
  end.

(** The two calls of [executeTaskGroup] that [execute] makes, from the
    first to the end of both: each call is made and runs up to its first
    await, the backend call first; the calls are resumed as the schedule
    says and, the schedule exhausted, each runs to its end. *)
Definition bothCalls (schedule : list Side) (feedbackId : string)
    (batch : list ExecutableTask.t) (m : Machine) : Calls :=
  let groups := groupTasksByProject batch in
  let b :=
    syncPart (promiseOf feedbackId (TaskGroups.backend groups) "backend") m in
  let f :=
    syncPart (promiseOf feedbackId (TaskGroups.frontend groups) "frontend")
             (snd b) in
  completed Front
    (completed Back
       (interleave schedule
          {| back := fst b; front := fst f; machine := snd f;
             failures := [];
             rejection := noted (fst f) (noted (fst b) None) |})).

(** [execute(feedbackId, tasks)].  The first [appendLog] is awaited with
    nothing else running (were it rejected, the two calls would not be
    made).  [Promise.all] rejects with the first rejection, and
    [execute] with it; otherwise the last [appendLog] is awaited and
    [allSuccess] returned. *)
Definition execute (schedule : list Side) (feedbackId : string)
    (batch : list ExecutableTask.t) (m : Machine) : BatchRun :=
  let before :=
    complete
      (appendLog feedbackId
         ("开始执行 " +:+ pretty (length batch) +:+ " 个任务") Info) m in
  match fst (fst before) with
  | Rejected message =>
      let groups := groupTasksByProject batch in
      {| answer := Rejected message;
         backendRun :=
           promiseOf feedbackId (TaskGroups.backend groups) "backend";
         frontendRun :=
           promiseOf feedbackId (TaskGroups.frontend groups) "frontend";
         writeFailures := []; finalMachine := snd (fst before) |}
  | Fulfilled _ =>
      let s := bothCalls schedule feedbackId batch (snd (fst before)) in
      match rejection s with
      | Some message =>
          {| answer := Rejected message;
             backendRun := back s; frontendRun := front s;
             writeFailures := failures s; finalMachine := machine s |}
      | None =>
          let results := [valueOf (back s); valueOf (front s)] in
          let allSuccess := forallb (fun r => r) results in
          let after :=
            complete
              (appendLog feedbackId
                 ("任务执行" +:+ (if allSuccess then "成功" else "失败")) Info)
              (machine s) in
          {| answer :=
               match fst (fst after) with
               | Fulfilled _ => Fulfilled allSuccess
               | Rejected message => Rejected message
               end;
             backendRun := back s; frontendRun := front s;
             writeFailures := failures s; finalMachine := snd (fst after) |}
      end
  end.

End TaskExecutorCalls.

(** A machine and a batch for the examples: the configuration enables
    [claude], [tasks.json] holds the batch as [saveSDD] wrote it, the
    directories exist, there is no status file yet, and a child fails
    when its prompt mentions [B1]. *)
Module SampleMachines.
Import Types Promises.

Definition feedbackId : string := "20261102-090000-k3x9q".

Definition batch : list ExecutableTask.t :=
  [Samples.taskB1; Samples.taskF1; Samples.taskF2].

Definition onDisk (p : Path) : option Content :=
  match p with
  | toolsJson =>
      Some (ConfigData
              (SampleWorlds.config [SampleWorlds.tool "claude" "claude" 1]))
  | tasksJson i =>
      if bool_decide (i = feedbackId) then Some (TasksData batch) else None
  | _ => None
  end.

Definition backendBreaks : Machine :=
  {| cwd := "/srv/worker";
     files := onDisk;
     dirs := fun _ => true;
     clock := 1000000;
     processes := Samples.failsOnB1;
     spawned := [];
     failureCooldownMs := 300000 |}.

End SampleMachines.

(* ================================================================== *)
(** * Part I, continued: the predicates the statements are made of      *)
(* ================================================================== *)

Module StateMachineSpec.
Import Types StateMachine.

(** The invariant kept by every operation: the history is the seed entry
    followed by later entries, and its last entry carries the current
    status. *)
Definition tracks (init : Status) (m : t) : Prop :=
  (exists e rest, statusHistory m = e :: rest /\ status e = init)
  /\ (exists e, last (statusHistory m) = Some e
                /\ status e = currentStatus m).

End StateMachineSpec.

Module TaskSortSpec.
Import Types TaskSort.

Local Open Scope nat_scope.

(** What a scan from index [n - 1] down to [0] does to the variables. *)
Record scanned (n : nat) (v v' : Vars) (block : list ExecutableTask.t)
    : Prop := {
  scanned_sorted : sorted v' = sorted v ++ block;
  scanned_block : block `sublist_of` reverse (take n (remaining v));
  scanned_remaining : remaining v' `sublist_of` remaining v;
  scanned_perm : sorted v' ++ remaining v' ≡ₚ sorted v ++ remaining v;
  scanned_iterations : iterations v' = iterations v;
}.

(** One turn of the loop, if the guard lets it in. *)
Definition turn (m : nat) (v : Vars) : Vars :=
  if guard m v then pass v else v.

(** The loop invariant. *)
Record sortInv (tasks : list ExecutableTask.t) (m : nat) (v : Vars) : Prop := {
  inv_perm : sorted v ++ remaining v ≡ₚ tasks;
  inv_remaining : remaining v `sublist_of` tasks;
  inv_iterations : iterations v <= m;
}.

End TaskSortSpec.

Module AdapterSpec.
Import Types AICliAdapter.

(** A pool whose available entries all come before the others. *)
Definition availableFirst (pool : list ToolStatus.t) : Prop :=
  exists ready cooling,
    pool = ready ++ cooling
    /\ Forall (fun s => ToolStatus.available s = true) ready
    /\ Forall (fun s => ToolStatus.available s = false) cooling.

(** [a] is sorted before [b]: the comparator answers a negative number. *)
Definition before (config : ToolsConfig.t) (a b : ToolStatus.t) : Prop :=
  Js.negative (compareTools config a b) = true.

(** The three keys the comparator looks at, in order: availability,
    priority, response time (none when unknown or zero). *)
Definition keys (config : ToolsConfig.t) (a : ToolStatus.t)
    : Z * Z * option Z :=
  (if ToolStatus.available a then 0 else 1,
   priorityOf config (ToolStatus.name a),
   match ToolStatus.responseTimeMs a with
   | Some z => if z =? 0 then None else Some z
   | None => None
   end).

Definition fasterThan (r1 r2 : option Z) : Prop :=
  match r1, r2 with
  | Some u, Some v => u < v
  | Some _, None => True
  | None, _ => False
  end.

Definition lexBefore (k1 k2 : Z * Z * option Z) : Prop :=
  let '(x1, y1, r1) := k1 in
  let '(x2, y2, r2) := k2 in
  x1 < x2 \/ (x1 = x2 /\ (y1 < y2 \/ (y1 = y2 /\ fasterThan r1 r2))).

End AdapterSpec.

Module TaskExecutorSpec.
Import Types TaskExecutor.

Local Open Scope nat_scope.

(** A call that has returned did so on its own account: [true] after the
    loop went through the whole array, [false] at a task of this array
    that it executed and that failed. *)
Definition ranItsCourse (g : GroupRun) : Prop :=
  match returned g with
  | None => False
  | Some true => length (tasks g) <= next g
  | Some false =>
      exists task,
        tasks g !! next g = Some task
        /\ ExecutableTask.status task = Failed
        /\ last (executed g) = Some (ExecutableTask.id task)
  end.

Definition inProgressOrDone (g : GroupRun) : Prop :=
  returned g = None \/ ranItsCourse g.

(** What the run of a sorted bucket [A; X; Y] can be, [X] and [Y]
    depending on [A] alone. *)
Record threeRun (A X Y : ExecutableTask.t) (w : World.t) (g : GroupRun)
    : Prop := {
  three_first : exists rest, executed g = ExecutableTask.id A :: rest;
  three_order :
    executed g `prefix_of`
      [ExecutableTask.id A; ExecutableTask.id X; ExecutableTask.id Y];
  three_success :
    returned g = Some true ->
    executed g
    = [ExecutableTask.id A; ExecutableTask.id X; ExecutableTask.id Y];
  three_fail_fast :
    fst (fst (executeTask A w)) = false ->
    returned g = Some false
    /\ executed g = [ExecutableTask.id A]
    /\ tasks g !! 1 = Some X /\ tasks g !! 2 = Some Y;
}.

End TaskExecutorSpec.

Module SchedulerSpec.
Import Types Scheduler.

Local Open Scope nat_scope.

(** The budget is the one check made before a handler is started. *)
Record withinBudget (budget : nat) (sh : Shared) : Prop := {
  budget_kept : maxConcurrent sh = budget;
  budget_active : size (activeTasks sh) <= budget;
  budget_dispatch :
    Forall (fun d => size (activeBefore d) < budget) (dispatched sh);
}.

End SchedulerSpec.

Module LifecycleSpec.
Import Types Constants StateMachine.

(** A client that calls [transition] only: the targets it asks for, each
    with the clock reading of the call. *)
Definition transitions (cs : list (Timestamp * Status)) : list Call :=
  (fun c => CallTransition (fst c) (snd c)) <$> cs.

(** Every entry of a history but the first was reached from the entry
    before it along the transition table of the domain. *)
Definition lawful (ty : MachineType) (h : list HistoryEntry) : Prop :=
  forall i a b,
    h !! i = Some a -> h !! S i = Some b ->
    canTransition (status a) (status b) ty = true.

End LifecycleSpec.

Module InvocationSpec.
Import Types AICliAdapter.

(** A pattern made of decimal digits, as [/401/], [/403/] and [/429/]
    are. *)
Definition isDigit (c : ascii) : bool :=
  ((48 <=? nat_of_ascii c) && (nat_of_ascii c <=? 57))%nat.

Fixpoint allDigits (p : string) : bool :=
  match p with
  | EmptyString => true
  | String c p' => isDigit c && allDigits p'
  end.

(** The command line of every child the registered adapter spawns for a
    prompt. *)
Definition invocation (prompt : string) : string * list string :=
  ("claude"%string,
   ["-p"; prompt; "--permission-mode"; "bypassPermissions";
    "--no-session-persistence"]%string).

(** The enabled tools of the configuration on file, none when the file
    is missing. *)
Definition enabledTools (w : World.t) : list ToolConfig.t :=
  List.filter ToolConfig.enabled
    (default [] (ToolsConfig.tools <$> Storage.loadToolsConfig w)).

(** The world [execute] works in once it has read the configuration. *)
Definition configured (w : World.t) : World.t :=
  match Storage.loadToolsConfig w with
  | Some config =>
      World.setFailureCooldownMs (ToolsConfig.failureCooldownMs config) w
  | None => w
  end.

End InvocationSpec.

Module TimeoutSpec.
Import Types.

(** The child [execCommand] is about to spawn for a prompt: how it will
    end and how long it will take. *)
Definition childRun (a : ClaudeCodeAdapter.t) (prompt : string) (w : World.t)
    : World.ProcRun :=
  World.processes w (ClaudeCodeAdapter.command a)
    (["-p"; prompt; "--permission-mode"; "bypassPermissions";
      "--no-session-persistence"]%string ++ ClaudeCodeAdapter.baseArgs a)
    (length (World.spawned w)).

(** The timeouts the callers of the adapter pass: none ([executeTask],
    which leaves the default of 300000 in force), 120000 (the analysis of
    a clarification, the tasks of a feedback) and 180000 (the plan of a
    feedback). *)
Definition callerTimeouts : list (option Z) :=
  [None; Some 120000; Some 180000].

(** [`Command timeout after ${options.timeout}ms`] *)
Definition timeoutMessage (timeout : option Z) : string :=
  "Command timeout after " +:+ pretty (default 300000 timeout) +:+ "ms".

End TimeoutSpec.

Module SortOrderSpec.
Import Types TaskSort.

Local Open Scope nat_scope.

(** Every task of [l] stands after a task for each of its
    dependencies. *)
Definition dependenciesFirst (l : list ExecutableTask.t) : Prop :=
  forall k task dep,
    l !! k = Some task -> dep ∈ ExecutableTask.dependsOn task ->
    exists j u, j < k /\ l !! j = Some u /\ ExecutableTask.id u = dep.

(** One of the dependencies of [task] is the id of no task of
    [placed]. *)
Definition blockedBy (placed : list ExecutableTask.t)
    (task : ExecutableTask.t) : Prop :=
  exists dep,
    dep ∈ ExecutableTask.dependsOn task
    /\ dep ∉ ExecutableTask.id <$> placed.

(** Some task of [remaining] has all its dependencies processed. *)
Definition placeable (v : Vars) : bool :=
  existsb (fun task => allDepsProcessed task (processed v)) (remaining v).

(** What the loop keeps between [processed] and [sorted]. *)
Record orderInv (v : Vars) : Prop := {
  order_processed :
    forall dep, dep ∈ processed v <-> dep ∈ ExecutableTask.id <$> sorted v;
  order_sorted : dependenciesFirst (sorted v);
}.

End SortOrderSpec.

Module GroupRunSpec.
Import Types TaskExecutor.

Local Open Scope nat_scope.

(** A task the loop of [executeTaskGroup] passes over as things stand:
    it is not pending, or one of its dependencies is not the id of a
    completed task of the group. *)
Definition passedOver (group : list ExecutableTask.t)
    (task : ExecutableTask.t) : Prop :=
  ExecutableTask.status task <> Pending
  \/ exists dep,
       dep ∈ ExecutableTask.dependsOn task
       /\ forall u, u ∈ group -> ExecutableTask.id u = dep ->
                    ExecutableTask.status u <> Completed.

(** No task of the group under the id [x] can ever start: each is not
    pending, or has a dependency that is the id of no task of the
    group. *)
Definition neverStarts (group : list ExecutableTask.t) (x : string) : Prop :=
  forall task,
    task ∈ group -> ExecutableTask.id task = x ->
    ExecutableTask.status task <> Pending
    \/ exists dep,
         dep ∈ ExecutableTask.dependsOn task
         /\ dep ∉ ExecutableTask.id <$> group.

(** The ids executed so far are ids of the array, in the order of the
    array, from the part the loop has gone through. *)
Definition inArrayOrder (g : GroupRun) : Prop :=
  executed g `sublist_of`
    ExecutableTask.id
      <$> match returned g with
          | None => take (next g) (tasks g)
          | Some _ => tasks g
          end.

End GroupRunSpec.

Module PollSpec.
Import Types Scheduler.

Local Open Scope nat_scope.

(** What [listPendingFeedbacks] lets through. *)
Definition pendingClarification (fb : AnyFeedback) : Prop :=
  type fb = Clarification /\ status fb = Pending.

Definition listedFeedback (fb : AnyFeedback) : Prop :=
  type fb = Feedback /\ (status fb = Pending \/ status fb = Analyzing).

(** The item a call of [poll()] is handling was listed for it, with the
    status it was listed under. *)
Definition handlesListed (p : Poll) : Prop :=
  match stage p with
  | MarkProcessing c | Analyze c | SettleStatus c _ => pendingClarification c
  | MarkAnalyzing f => type f = Feedback /\ status f = Pending
  | RunHandler f | MarkFailed f => listedFeedback f
  | Listing | Over => True
  end.

Definition wellListed (p : Poll) : Prop :=
  Forall pendingClarification (clarifications p)
  /\ Forall listedFeedback (feedbacks p)
  /\ handlesListed p.

(** Every id of [activeTasks] is the item some call of [poll()] is
    handling. *)
Definition accounted (s : t) : Prop :=
  forall x, x ∈ activeTasks (shared s) ->
            exists i p, polls s !! i = Some p /\ handling p = Some x.

End PollSpec.

Module PoolOrderSpec.
Import Types AICliAdapter AdapterSpec.

(** [a] may stand before [b]: [b] is not strictly smaller on the three
    keys (availability, then priority, then known response time). *)
Definition mayPrecede (config : ToolsConfig.t) (a b : ToolStatus.t) : Prop :=
  ~ lexBefore (keys config b) (keys config a).

(** Every entry may stand before every later entry. *)
Fixpoint ordered (config : ToolsConfig.t) (pool : list ToolStatus.t) : Prop :=
  match pool with
  | [] => True
  | a :: rest => Forall (mayPrecede config a) rest /\ ordered config rest
  end.

End PoolOrderSpec.

Module FullRunSpec.
Import Types.

(** A world in which the one enabled tool is [claude] and every child
    exits with code 0 before the default timeout of 300000 ms. *)
Record reliable (w : World.t) : Prop := {
  reliable_tool :
    exists config tc,
      Storage.loadToolsConfig w = Some config
      /\ List.filter ToolConfig.enabled (ToolsConfig.tools config) = [tc]
      /\ ToolConfig.name tc = "claude"%string;
  reliable_child :
    forall cmd args n,
      exists out err,
        World.procEnd (World.processes w cmd args n)
        = World.Closed (Some 0) out err
        /\ World.elapsedMs (World.processes w cmd args n) < 300000;
}.

(** The run of a bucket that has gone through its first [k] tasks
    without a failure: they are completed, the others are as they were
    in the sorted array, and the ids executed are those of the first
    [k]. *)
Record onCourse (sorted : list ExecutableTask.t) (k : nat)
    (g : TaskExecutor.GroupRun) : Prop := {
  course_returned : TaskExecutor.returned g = None;
  course_next : TaskExecutor.next g = k;
  course_ids :
    ExecutableTask.id <$> TaskExecutor.tasks g = ExecutableTask.id <$> sorted;
  course_done :
    forall i task, (i < k)%nat -> TaskExecutor.tasks g !! i = Some task ->
                   ExecutableTask.status task = Completed;
  course_todo :
    forall i, (k <= i)%nat -> TaskExecutor.tasks g !! i = sorted !! i;
  course_executed :
    TaskExecutor.executed g = ExecutableTask.id <$> take k sorted;
}.

End FullRunSpec.

(** What a call can be relied on to do while another call runs in
    between its operations. *)
Module RelySpec.
Import Types Promises.

Section Steady.
Variable config : ToolsConfig.t.
Variable procs : string -> list string -> nat -> World.ProcRun.

(** What stays as it is whatever runs: the configuration file and what
    the children do. *)
Definition steady (m : Machine) : Prop :=
  files m toolsJson = Some (ConfigData config) /\ processes m = procs.

(** The operation does not write the configuration file. *)
Definition sparing (op : Op) : bool :=
  match op with
  | WriteFile p _ => negb (bool_decide (p = toolsJson))
  | AppendFile p _ => negb (bool_decide (p = toolsJson))
  | Rename oldPath newPath =>
      negb (bool_decide (oldPath = toolsJson))
      && negb (bool_decide (newPath = toolsJson))
  | _ => true
  end.

(** Whatever the replies, the call performs no operation that writes
    the configuration file. *)
Fixpoint allSparing {A : Type} (p : Promise A) : Prop :=
  match p with
  | Do op k => sparing op = true /\ forall r, allSparing (k r)
  | _ => True
  end.

(** Whatever else runs between its operations, the call returns, with
    a value that satisfies [Q], unless one of its writes is rejected:
    each of its operations is performed on some machine in which the
    configuration and the children are as given. *)
Fixpoint returns {A : Type} (p : Promise A) (Q : A -> Prop) : Prop :=
  match p with
  | Return a => Q a
  | Throw _ => False
  | Do op k =>
      forall m, steady m -> failed op (fst (perform op m)) = false ->
                returns (k (fst (perform op m))) Q
  end.

End Steady.

End RelySpec.

Module BucketRunSpec.
Import Types Promises TaskExecutor TaskExecutorCalls SortOrderSpec.

(** The bucket of the batch a call of [executeTaskGroup] is made on. *)
Definition bucket (side : Side) (batch : list ExecutableTask.t)
    : list ExecutableTask.t :=
  match side with
  | Back => TaskGroups.backend (groupTasksByProject batch)
  | Front => TaskGroups.frontend (groupTasksByProject batch)
  end.

Definition runOf (side : Side) (r : BatchRun) : Promise GroupRun :=
  match side with
  | Back => backendRun r
  | Front => frontendRun r
  end.

(** No write made by the call on [side] was rejected. *)
Definition writesWentThrough (side : Side) (r : BatchRun) : Prop :=
  forall op, (side, op) ∉ writeFailures r.

(** The tasks of the group are pending and can be put in dependency
    order. *)
Definition runnable (group : list ExecutableTask.t) : Prop :=
  Forall (fun t => ExecutableTask.status t = Pending) group
  /\ exists l, group ≡ₚ l /\ dependenciesFirst l.

(** The arguments [execCommand] gives the child for a prompt. *)
Definition argsFor (prompt : string) : list string :=
  ["-p"; prompt; "--permission-mode"; "bypassPermissions";
   "--no-session-persistence"]%string.

(** Every child spawned as [claude] with this prompt exits with code 0
    before the default timeout of 300000 ms. *)
Definition childSucceeds
    (procs : string -> list string -> nat -> World.ProcRun)
    (prompt : string) : Prop :=
  forall n,
    exists out err,
      World.procEnd (procs "claude"%string (argsFor prompt) n)
      = World.Closed (Some 0) out err
      /\ World.elapsedMs (procs "claude"%string (argsFor prompt) n) < 300000.

(** The configuration enables a tool named [claude]. *)
Definition enablesClaude (config : ToolsConfig.t) : Prop :=
  exists tc,
    tc ∈ ToolsConfig.tools config
    /\ ToolConfig.enabled tc = true
    /\ ToolConfig.name tc = "claude"%string.

(** The configuration on file enables a tool named [claude], and the
    child spawned for any task of the group succeeds. *)
Record dependable (m : Machine) (group : list ExecutableTask.t) : Prop := {
  dependable_tool :
    exists config,
      files m toolsJson = Some (ConfigData config) /\ enablesClaude config;
  dependable_child :
    forall task,
      task ∈ group -> childSucceeds (processes m) (buildTaskPrompt task);
}.

(** The run of a group in full: the call returned [true] after
    [executeTask] was called on every task, in the order
    [sortTasksByDependency] gave, and every task is completed. *)
Definition inFull (group : list ExecutableTask.t) (g : GroupRun) : Prop :=
  returned g = Some true
  /\ executed g = ExecutableTask.id <$> sortTasksByDependency group
  /\ ExecutableTask.id <$> tasks g
     = ExecutableTask.id <$> sortTasksByDependency group
  /\ Forall (fun t => ExecutableTask.status t = Completed) (tasks g).

Definition ranInFull (group : list ExecutableTask.t) (p : Promise GroupRun)
    : Prop :=
  exists g, p = Return g /\ inFull group g.

(** The backend bucket held one task, which was executed and failed,
    and its call returned [false]. *)
Definition soleBackendTaskFailed (r : BatchRun) : Prop :=
  exists g task,
    backendRun r = Return g
    /\ returned g = Some false
    /\ tasks g = [task]
    /\ executed g = [ExecutableTask.id task]
    /\ ExecutableTask.status task = Failed.

(** The rule in the words of the specification: when the sole task of
    the backend bucket fails, the frontend bucket still runs to
    completion (its tasks being such that they can). *)
Definition frontendStillRunsToCompletion : Prop :=
  forall (schedule : list Side) (feedbackId : string)
         (batch : list ExecutableTask.t) (m : Machine),
    let r := execute schedule feedbackId batch m in
    soleBackendTaskFailed r ->
    runnable (bucket Front batch) ->
    dependable m (bucket Front batch) ->
    ranInFull (bucket Front batch) (frontendRun r).

(** What a call does up to the point where it waits for its child,
    one entry for each operation it awaits: the log line of the group
    and the log line of its first task are appended; [saveTaskResult]
    reads [tasks.json], writes [tasks.json.tmp] and renames it;
    [AICliAdapter.execute] reads [tools.json]; [getOrderedToolPool]
    reads [tools.json] and [status.json], and the child is spawned. *)
Definition upToTheChild (side : Side) : list Side := replicate 8 side.

(** The schedule of the example.  Each call goes as far as its child,
    the backend call first, and the two children run at the same time.
    Then the two calls write the status file at the same time. *)
Definition overlappingWrites : list Side :=
  upToTheChild Back ++ upToTheChild Front
  ++ [ Back;   (* the child of B1 exits with code 2: on to markFailed *)
       Back;   (* markFailed reads status.json *)
       Back;   (* updateToolStatus reads status.json *)
       Front;  (* the child of F1 exits with code 0: on to markSuccess *)
       Front;  (* updateToolStatus reads status.json *)
       Front;  (* the frontend call writes status.json.tmp *)
       Back;   (* the backend call writes status.json.tmp *)
       Back;   (* the backend call renames status.json.tmp *)
       Front   (* the frontend call renames it: there is no such file *)
     ].

(** A schedule in which the two children run at the same time and no
    two writes overlap: each call goes as far as its child, the backend
    call first; the backend call then goes through the failure of its
    child to its end (ten awaited operations); the frontend call runs
    on from there. *)
Definition takingTurns : list Side :=
  upToTheChild Back ++ upToTheChild Front ++ replicate 10 Back.

(** The call returned [true]. *)
Definition returnedTrue (p : Promise GroupRun) : Prop :=
  exists g, p = Return g /\ returned g = Some true.

(** What holds of the two calls side by side, as the call on [side] is
    followed: neither writes the configuration file, the configuration
    and the children are as given, and the call on [side] returns with
    [Q] unless one of its writes is rejected, provided none was so
    far. *)
Definition onTrack (config : ToolsConfig.t)
    (procs : string -> list string -> nat -> World.ProcRun)
    (side : Side) (Q : GroupRun -> Prop) (s : Calls) : Prop :=
  RelySpec.allSparing (back s)
  /\ RelySpec.allSparing (front s)
  /\ RelySpec.steady config procs (machine s)
  /\ ((forall op, (side, op) ∉ failures s) ->
      RelySpec.returns config procs (callOf side s) Q).

(** A rejection has been noted exactly when one of the calls is
    rejected. *)
Definition rejectionNoted (s : Calls) : Prop :=
  rejection s = None
  <-> (forall message, back s <> Throw message)
      /\ (forall message, front s <> Throw message).

End BucketRunSpec.

(* ================================================================== *)
(** * Part II: properties                                              *)
(* ================================================================== *)

Module StateMachineProps.
Import Types Constants StateMachine StateMachineSpec.

Lemma recordState_status now s m :
  currentStatus (recordState now s m) = currentStatus m.
Proof. reflexivity. Qed.

Lemma recordState_history now s m :
  statusHistory (recordState now s m)
  = statusHistory m ++ [ {| status := s; timestamp := now |} ].
Proof. reflexivity. Qed.

Lemma tracks_constructor now init ty : tracks init (constructor now init ty).
Proof.
  split; simpl.
  - eexists _, []. split; reflexivity.
  - eexists. split; reflexivity.
Qed.

Lemma tracks_commit init now s m :
  tracks init m -> tracks init (recordState now s (setStatus s m)).
Proof.
  intros [(e & rest & Hh & He) _]. split.
  - rewrite recordState_history. simpl. rewrite Hh.
    exists e, (rest ++ [ {| status := s; timestamp := now |} ]).
    split; [reflexivity | exact He].
  - rewrite recordState_history, last_snoc. eexists. split; reflexivity.
Qed.

Lemma tracks_call init c m : tracks init m -> tracks init (snd (call c m)).
Proof.
  intros H. destruct c as [now s | now s]; simpl.
  - unfold transition.
    destruct (bool_decide (currentStatus m = s)); [exact H |].
    destruct (negb (canTransition (currentStatus m) s (type m)));
      [exact H | now apply tracks_commit].
  - now apply tracks_commit.
Qed.

Lemma tracks_calls init cs : forall m, tracks init m -> tracks init (calls cs m).
Proof.
  unfold calls. induction cs as [| c cs IH]; intros m H; simpl.
  - exact H.
  - apply IH, tracks_call, H.
Qed.

(** C8. Re-applying the current status: for every domain and every
    machine, [transition] to the status the machine is already in
    returns success with that status, and hands back the machine
    unchanged: same current status, same history (nothing appended). *)
Theorem transition_current_is_silent :
  forall (now : Timestamp) (m : t),
    let r := transition now (getStatus m) m in
    StateTransitionResult.success (fst r) = true
    /\ StateTransitionResult.newStatus (fst r) = Some (getStatus m)
    /\ getStatus (snd r) = getStatus m
    /\ getHistory (snd r) = getHistory m
    /\ snd r = m.
Proof.
  intros now m. unfold transition, getStatus.
  rewrite bool_decide_eq_true_2 by reflexivity. simpl. auto.
Qed.

(** C10. After construction with any initial status in any domain and
    any finite sequence of [transition] / [forceTransition] calls,
    [getHistory()] is non-empty, its first entry is the initial status
    and its last entry is [getStatus()]. *)
Theorem history_head_and_tail :
  forall (now : Timestamp) (init : Status) (ty : MachineType)
         (cs : list Call),
    let m := calls cs (constructor now init ty) in
    getHistory m <> []
    /\ (status <$> head (getHistory m)) = Some init
    /\ (status <$> last (getHistory m)) = Some (getStatus m).
Proof.
  intros now init ty cs m.
  destruct (tracks_calls init cs _ (tracks_constructor now init ty))
    as [(e & rest & Hh & He) (e' & Hl & He')].
  fold m in Hh, Hl, He'. unfold getHistory, getStatus.
  rewrite Hh. split; [discriminate |]. split.
  - simpl. now rewrite He.
  - rewrite <- Hh, Hl. simpl. now rewrite He'.
Qed.

End StateMachineProps.

Module TaskSortProps.
Import Types TaskSort TaskSortSpec.

Local Open Scope nat_scope.

(** *** One visit, one scan *)

Lemma visit_cases i v :
  visit i v = v
  \/ exists task,
       remaining v !! i = Some task
       /\ sorted (visit i v) = sorted v ++ [task]
       /\ remaining (visit i v) = delete i (remaining v)
       /\ iterations (visit i v) = iterations v.
Proof.
  unfold visit. destruct (remaining v !! i) as [task |] eqn:E; [| now left].
  destruct (allDepsProcessed task (processed v)); [| now left].
  right. exists task. simpl. auto.
Qed.

Lemma take_delete_same {A} (l : list A) n : take n (delete n l) = take n l.
Proof.
  revert l. induction n as [| n IH]; intros [| a l]; simpl; try reflexivity.
  now rewrite IH.
Qed.

Lemma scanDown_scanned n :
  forall v, n <= length (remaining v) ->
    exists block, scanned n v (scanDown n v) block.
Proof.
  induction n as [| n IH]; intros v Hn; simpl.
  - exists []. split; rewrite ?app_nil_r; auto; constructor.
  - destruct (lookup_lt_is_Some_2 (remaining v) n) as [x Hx]; [lia |].
    assert (Hrev : reverse (take (S n) (remaining v))
                   = x :: reverse (take n (remaining v))).
    { rewrite (take_S_r _ _ _ Hx), reverse_app. reflexivity. }
    destruct (visit_cases n v) as [Hsame | (task & Ht & Hs & Hr & Hi)].
    + rewrite Hsame. destruct (IH v) as [block Hb]; [lia |].
      exists block. destruct Hb. split; auto.
      rewrite Hrev. now apply sublist_cons.
    + assert (task = x) by congruence. subst task.
      destruct (IH (visit n v)) as [block Hb].
      { rewrite Hr, length_delete by eauto. lia. }
      destruct Hb as [Bs Bb Br Bp Bi].
      exists (x :: block). split.
      * rewrite Bs, Hs, <- app_assoc. reflexivity.
      * rewrite Hrev. apply sublist_skip.
        now rewrite Hr, take_delete_same in Bb.
      * etrans; [exact Br |]. rewrite Hr. apply sublist_delete.
      * rewrite Bp, Hs, Hr, <- app_assoc. simpl.
        apply Permutation_app_head. symmetry. now apply delete_Permutation.
      * congruence.
Qed.

Lemma pass_scanned v :
  exists block,
    sorted (pass v) = sorted v ++ block
    /\ block `sublist_of` reverse (remaining v)
    /\ remaining (pass v) `sublist_of` remaining v
    /\ sorted (pass v) ++ remaining (pass v) ≡ₚ sorted v ++ remaining v
    /\ iterations (pass v) = S (iterations v).
Proof.
  unfold pass.
  destruct (scanDown_scanned (length (remaining v))
              {| sorted := sorted v; remaining := remaining v;
                 processed := processed v;
                 iterations := S (iterations v) |}) as [block Hb];
    [simpl; lia |].
  destruct Hb as [Bs Bb Br Bp Bi]. simpl in *.
  rewrite firstn_all in Bb. exists block. auto.
Qed.

(** *** The loop *)

Lemma while_stuck fuel m v : guard m v = false -> while fuel m v = v.
Proof. intros H. destruct fuel; simpl; [| rewrite H]; reflexivity. Qed.

Lemma while_S_r fuel m : forall v, while (S fuel) m v = turn m (while fuel m v).
Proof.
  unfold turn. induction fuel as [| fuel IH]; intros v.
  - reflexivity.
  - change (while (S (S fuel)) m v)
      with (if guard m v then while (S fuel) m (pass v) else v).
    destruct (guard m v) eqn:G.
    + rewrite IH. simpl. now rewrite G.
    + rewrite (while_stuck _ _ _ G). now rewrite G.
Qed.

Lemma while_add a b m : forall v, while (a + b) m v = while b m (while a m v).
Proof.
  induction a as [| a IH]; intros v; simpl; [reflexivity |].
  destruct (guard m v) eqn:G; [apply IH |].
  now rewrite while_stuck.
Qed.

Lemma inv_init tasks m : sortInv tasks m (init tasks).
Proof. split; simpl; [reflexivity | reflexivity | lia]. Qed.

Lemma inv_step tasks m v : sortInv tasks m v -> sortInv tasks m (turn m v).
Proof.
  intros [Hp Hr Hi]. unfold turn. destruct (guard m v) eqn:G; [| now split].
  apply andb_true_iff in G as [_ G]. apply bool_decide_eq_true in G.
  destruct (pass_scanned v) as (block & Ps & Pb & Pr & Pp & Pi).
  split.
  - now rewrite Pp.
  - etrans; [exact Pr | exact Hr].
  - lia.
Qed.

Lemma inv_while tasks m fuel v :
  sortInv tasks m v -> sortInv tasks m (while fuel m v).
Proof.
  intros H. induction fuel as [| fuel IH]; [exact H |].
  rewrite while_S_r. now apply inv_step.
Qed.

Lemma while_iterations fuel m :
  forall v, guard m (while fuel m v) = true ->
            iterations (while fuel m v) = fuel + iterations v.
Proof.
  induction fuel as [| fuel IH]; intros v G; simpl in *; [reflexivity |].
  destruct (guard m v) eqn:Gv.
  - rewrite (IH _ G).
    destruct (pass_scanned v) as (_ & _ & _ & _ & _ & Pi). lia.
  - congruence.
Qed.

(** [maxIterations] turns are enough: the guard is false afterwards. *)
Lemma loop_exits tasks : guard (maxIterations tasks) (atExit tasks) = false.
Proof.
  unfold atExit, afterPasses.
  destruct (guard _ (while _ _ _)) eqn:G; [| reflexivity].
  pose proof (while_iterations _ _ _ G) as Hi.
  apply andb_true_iff in G as [_ G]. apply bool_decide_eq_true in G.
  simpl in Hi. lia.
Qed.

Lemma afterPasses_ge tasks fuel :
  maxIterations tasks <= fuel -> afterPasses fuel tasks = atExit tasks.
Proof.
  intros H. unfold atExit, afterPasses.
  replace fuel with (maxIterations tasks + (fuel - maxIterations tasks)) at 1
    by lia.
  rewrite while_add. apply while_stuck, loop_exits.
Qed.

Lemma sort_unfold tasks :
  sortTasksByDependency tasks
  = sorted (atExit tasks) ++ remaining (atExit tasks).
Proof.
  unfold sortTasksByDependency. case_bool_decide as H; [reflexivity |].
  destruct (remaining (atExit tasks)); simpl in *; [| lia].
  now rewrite app_nil_r.
Qed.

Lemma sortTasks_Permutation tasks : sortTasksByDependency tasks ≡ₚ tasks.
Proof.
  rewrite sort_unfold.
  apply (inv_while tasks (maxIterations tasks) (maxIterations tasks)
           _ (inv_init tasks _)).
Qed.

(** C6. The dependency sort on any task list, cyclic or dangling
    dependencies included: the loop is left after at most
    [2 * |tasks|] turns (more fuel changes nothing), the result is a
    permutation of the input (every task exactly once), and it is the
    placed tasks followed by the tasks still remaining, which stand in
    their original relative order. *)
Theorem sort_bounded_and_complete :
  forall tasks : list ExecutableTask.t,
    let v := atExit tasks in
    guard (maxIterations tasks) v = false
    /\ iterations v <= 2 * length tasks
    /\ (forall fuel, maxIterations tasks <= fuel ->
                     afterPasses fuel tasks = v)
    /\ sortTasksByDependency tasks ≡ₚ tasks
    /\ length (sortTasksByDependency tasks) = length tasks
    /\ sortTasksByDependency tasks = sorted v ++ remaining v
    /\ remaining v `sublist_of` tasks.
Proof.
  intros tasks v.
  destruct (inv_while tasks (maxIterations tasks) (maxIterations tasks)
              _ (inv_init tasks _)) as [Hp Hr Hi].
  fold (afterPasses (maxIterations tasks) tasks) in Hp, Hr, Hi.
  fold (atExit tasks) in Hp, Hr, Hi. fold v in Hp, Hr, Hi.
  pose proof (sortTasks_Permutation tasks) as Hperm.
  repeat split.
  - apply loop_exits.
  - unfold maxIterations in Hi. lia.
  - intros fuel. apply afterPasses_ge.
  - exact Hperm.
  - now rewrite Hperm.
  - apply sort_unfold.
  - exact Hr.
Qed.

(** *** Order inside one turn of the loop *)

Lemma sublist_reverse {A} (l1 l2 : list A) :
  l1 `sublist_of` l2 -> reverse l1 `sublist_of` reverse l2.
Proof.
  induction 1 as [| x l1 l2 _ IH | x l1 l2 _ IH]; rewrite ?reverse_cons.
  - reflexivity.
  - now apply sublist_app.
  - now apply sublist_inserts_r.
Qed.

Lemma placed_block tasks k :
  sorted (afterPasses (S k) tasks)
  = sorted (afterPasses k tasks) ++ placedInPass k tasks
  /\ placedInPass k tasks `sublist_of` reverse tasks.
Proof.
  unfold placedInPass.
  destruct (inv_while tasks (maxIterations tasks) k _ (inv_init tasks _))
    as [_ Hr _].
  unfold afterPasses in *. rewrite while_S_r. unfold turn.
  set (v := while k (maxIterations tasks) (init tasks)) in *.
  destruct (guard (maxIterations tasks) v).
  - destruct (pass_scanned v) as (block & Ps & Pb & _).
    rewrite Ps, drop_app_length. split; [reflexivity |].
    etrans; [exact Pb |]. now apply sublist_reverse.
  - rewrite drop_all, app_nil_r. split; [reflexivity |].
    apply sublist_nil_l.
Qed.

Lemma sorted_prefix_while fuel m :
  forall v, sorted v `prefix_of` sorted (while fuel m v).
Proof.
  induction fuel as [| fuel IH]; intros v; simpl; [reflexivity |].
  destruct (guard m v); [| reflexivity].
  etrans; [| apply IH].
  destruct (pass_scanned v) as (block & Ps & _). rewrite Ps.
  now apply prefix_app_r.
Qed.

Lemma sorted_prefix_sort tasks k :
  sorted (afterPasses k tasks) `prefix_of` sortTasksByDependency tasks.
Proof.
  rewrite sort_unfold. apply prefix_app_r.
  destruct (Nat.le_gt_cases k (maxIterations tasks)) as [H | H].
  - unfold atExit, afterPasses.
    pose proof (while_add k (maxIterations tasks - k) (maxIterations tasks)
                  (init tasks)) as E.
    replace (k + (maxIterations tasks - k)) with (maxIterations tasks) in E
      by lia.
    rewrite E. apply sorted_prefix_while.
  - rewrite afterPasses_ge by lia. reflexivity.
Qed.

Lemma precedes_sublist x y l1 l2 :
  l1 `sublist_of` l2 -> precedes x y l1 -> precedes x y l2.
Proof.
  induction 1 as [| a l1 l2 Hs IH | a l1 l2 Hs IH];
    intros (i & j & Hi & Hj & Hij).
  - now rewrite lookup_nil in Hi.
  - destruct j as [| j]; [lia |]. destruct i as [| i]; simpl in *.
    + assert (y ∈ l2) as Hy
        by (eapply elem_of_sublist; [| exact Hs];
            eapply list_elem_of_lookup_2; eauto).
      apply list_elem_of_lookup_1 in Hy as [j' Hj'].
      exists 0, (S j'). repeat split; auto. lia.
    + destruct IH as (i' & j' & ? & ? & ?); [exists i, j; auto with lia |].
      exists (S i'), (S j'). repeat split; auto. lia.
  - destruct IH as (i' & j' & ? & ? & ?); [exists i, j; auto |].
    exists (S i'), (S j'). repeat split; auto. lia.
Qed.

Lemma precedes_middle x y (l0 l1 l : list ExecutableTask.t) :
  l0 ++ l1 `prefix_of` l -> precedes x y l1 -> precedes x y l.
Proof.
  intros [l2 ->] (i & j & Hi & Hj & Hij).
  exists (length l0 + i), (length l0 + j). repeat split; [| | lia].
  - rewrite <- app_assoc, lookup_app_r by lia.
    replace (length l0 + i - length l0) with i by lia.
    now apply lookup_app_l_Some.
  - rewrite <- app_assoc, lookup_app_r by lia.
    replace (length l0 + j - length l0) with j by lia.
    now apply lookup_app_l_Some.
Qed.

Lemma precedes_total x y (l : list ExecutableTask.t) :
  x ∈ l -> y ∈ l -> x = y \/ precedes x y l \/ precedes y x l.
Proof.
  intros [i Hi]%list_elem_of_lookup_1 [j Hj]%list_elem_of_lookup_1.
  destruct (Nat.lt_trichotomy i j) as [H | [H | H]].
  - right. left. exists i, j. auto.
  - left. subst. congruence.
  - right. right. exists j, i. auto.
Qed.

Lemma precedes_NoDup_asym x y (l : list ExecutableTask.t) :
  NoDup l -> precedes x y l -> precedes y x l -> False.
Proof.
  intros Hnd (i & j & Hi & Hj & Hij) (j' & i' & Hj' & Hi' & Hji).
  assert (i = i') by (apply (NoDup_lookup l i i' x Hnd); assumption).
  assert (j = j') by (apply (NoDup_lookup l j j' y Hnd); assumption).
  lia.
Qed.

Lemma precedes_reverse x y (l : list ExecutableTask.t) :
  precedes x y l -> precedes y x (reverse l).
Proof.
  intros (i & j & Hi & Hj & Hij).
  pose proof (lookup_lt_Some _ _ _ Hi). pose proof (lookup_lt_Some _ _ _ Hj).
  exists (length l - S j), (length l - S i). repeat split; [| | lia].
  - rewrite reverse_lookup by lia.
    now replace (length l - S (length l - S j)) with j by lia.
  - rewrite reverse_lookup by lia.
    now replace (length l - S (length l - S i)) with i by lia.
Qed.

(** C7 as corrected. The scan of one turn runs from the end of
    [remaining] to its start, so ties go the other way: when two distinct
    positions [i < j] of the input hold tasks placed in the same turn of
    the loop, the task at the later position [j] precedes the task at
    [i] in the output (the input being free of repeated task objects). *)
Theorem same_pass_reverse_input_order :
  forall (tasks : list ExecutableTask.t) k i j x y,
    NoDup tasks ->
    tasks !! i = Some x -> tasks !! j = Some y -> i < j ->
    x ∈ placedInPass k tasks -> y ∈ placedInPass k tasks ->
    precedes y x (sortTasksByDependency tasks).
Proof.
  intros tasks k i j x y Hnd Hi Hj Hij Hx Hy.
  destruct (placed_block tasks k) as [Hs Hb].
  apply (precedes_middle y x (sorted (afterPasses k tasks))
           (placedInPass k tasks)).
  { rewrite <- Hs. apply sorted_prefix_sort. }
  assert (Hin : precedes y x (reverse tasks))
    by (apply precedes_reverse; exists i, j; auto).
  assert (Hndr : NoDup (reverse tasks)) by now rewrite reverse_Permutation.
  destruct (precedes_total y x _ Hy Hx) as [E | [H | H]].
  - assert (i = j) by (apply (NoDup_lookup tasks i j x Hnd); congruence).
    lia.
  - exact H.
  - exfalso. apply (precedes_NoDup_asym x y (reverse tasks)); auto.
    eapply precedes_sublist; eauto.
Qed.

(** *** Running the sort on a list that is given element by element *)

Lemma visit_place i v task :
  remaining v !! i = Some task ->
  (forall d, d ∈ ExecutableTask.dependsOn task -> d ∈ processed v) ->
  visit i v = {| sorted := sorted v ++ [task];
                 remaining := delete i (remaining v);
                 processed := processed v ∪ {[ ExecutableTask.id task ]};
                 iterations := iterations v |}.
Proof.
  intros Ht Hd. unfold visit. rewrite Ht.
  replace (allDepsProcessed task (processed v)) with true; [reflexivity |].
  symmetry. unfold allDepsProcessed. apply forallb_forall. intros d Hin.
  apply bool_decide_eq_true_2, Hd. now apply list_elem_of_In.
Qed.

Lemma visit_keep i v task d :
  remaining v !! i = Some task ->
  d ∈ ExecutableTask.dependsOn task -> d ∉ processed v ->
  visit i v = v.
Proof.
  intros Ht Hd Hn. unfold visit. rewrite Ht.
  replace (allDepsProcessed task (processed v)) with false; [reflexivity |].
  symmetry. apply not_true_iff_false. intros H.
  unfold allDepsProcessed in H. rewrite forallb_forall in H.
  specialize (H d (proj1 (list_elem_of_In _ _) Hd)).
  now apply bool_decide_eq_true in H.
Qed.

Lemma while_step fuel m v :
  guard m v = true -> while (S fuel) m v = while fuel m (pass v).
Proof. intros H. simpl. now rewrite H. Qed.

Lemma guard_true m v :
  0 < length (remaining v) -> iterations v < m -> guard m v = true.
Proof. intros. unfold guard. now rewrite !bool_decide_eq_true_2. Qed.

Lemma guard_empty m v : remaining v = [] -> guard m v = false.
Proof. intros H. unfold guard. rewrite H. reflexivity. Qed.

(** Dependencies all in the processed set, when both are given. *)
Ltac deps_processed :=
  let d := fresh "d" in
  let Hd := fresh "Hd" in
  cbn; intros d Hd;
  repeat (apply elem_of_cons in Hd as [-> | Hd]);
  [.. | now apply elem_of_nil in Hd];
  rewrite ?elem_of_union, ?elem_of_singleton; tauto.

(** The visit at the innermost position, placed or kept. *)
Ltac visit1 :=
  match goal with
  | |- context [visit ?i (Build_Vars ?s ?r ?p ?it)] =>
      first
        [ erewrite (visit_place i (Build_Vars s r p it))
            by (first [reflexivity | deps_processed])
        | erewrite (visit_keep i (Build_Vars s r p it))
            by (first [reflexivity | apply list_elem_of_here
                      | apply not_elem_of_empty]) ];
      cbn [remaining iterations sorted processed app delete list_delete
           ExecutableTask.id ExecutableTask.dependsOn]
  end.

Ltac run_pass :=
  rewrite while_step by (apply guard_true; simpl; lia);
  unfold pass;
  cbn [remaining iterations length sorted processed scanDown];
  repeat visit1.

Ltac run_sort :=
  rewrite sort_unfold;
  unfold atExit, afterPasses, maxIterations, init;
  cbn [length Nat.mul Nat.add];
  repeat run_pass;
  rewrite while_stuck by (apply guard_empty; reflexivity);
  reflexivity.

(** A prerequisite and its two dependents, in each of the six input
    orders: the prerequisite comes out first. *)
Lemma sort_three (A B C : ExecutableTask.t) :
  ExecutableTask.dependsOn A = [] ->
  ExecutableTask.dependsOn B = [ExecutableTask.id A] ->
  ExecutableTask.dependsOn C = [ExecutableTask.id A] ->
  sortTasksByDependency [A; B; C] = [A; C; B]
  /\ sortTasksByDependency [A; C; B] = [A; B; C]
  /\ sortTasksByDependency [B; A; C] = [A; B; C]
  /\ sortTasksByDependency [B; C; A] = [A; C; B]
  /\ sortTasksByDependency [C; A; B] = [A; C; B]
  /\ sortTasksByDependency [C; B; A] = [A; B; C].
Proof.
  intros HA HB HC. destruct A, B, C; simpl in *; subst.
  repeat split; run_sort.
Qed.

Lemma same_pass_reverse_input_order_witness :
  precedes Samples.taskY Samples.taskX
    (sortTasksByDependency [Samples.taskX; Samples.taskY]).
Proof.
  apply (same_pass_reverse_input_order
           [Samples.taskX; Samples.taskY] 0 0 1 Samples.taskX Samples.taskY).
  - apply NoDup_cons. split; [| apply NoDup_singleton].
    intros H. apply list_elem_of_singleton in H. discriminate H.
  - reflexivity.
  - reflexivity.
  - lia.
  - vm_compute. apply list_elem_of_further, list_elem_of_here.
  - vm_compute. apply list_elem_of_here.
Defined.

(** C7 as stated fails: two independent tasks [X; Y] are both placed in
    the first turn of the loop, [X] is the earlier one in the input, and
    the output is [Y; X]. *)
Lemma ties_follow_input_order_fails :
  sortTasksByDependency [Samples.taskX; Samples.taskY]
  = [Samples.taskY; Samples.taskX]
  /\ placedInPass 0 [Samples.taskX; Samples.taskY]
     = [Samples.taskY; Samples.taskX]
  /\ ~ tiesFollowInputOrder [Samples.taskX; Samples.taskY].
Proof.
  assert (Hs : sortTasksByDependency [Samples.taskX; Samples.taskY]
               = [Samples.taskY; Samples.taskX]) by (vm_compute; reflexivity).
  assert (Hp : placedInPass 0 [Samples.taskX; Samples.taskY]
               = [Samples.taskY; Samples.taskX]) by (vm_compute; reflexivity).
  split; [exact Hs |]. split; [exact Hp |].
  intros H.
  destruct (H 0 0 1 Samples.taskX Samples.taskY) as (i & j & Hi & Hj & Hij).
  - reflexivity.
  - reflexivity.
  - lia.
  - rewrite Hp. apply list_elem_of_further, list_elem_of_here.
  - rewrite Hp. apply list_elem_of_here.
  - rewrite Hs in Hi, Hj.
    destruct i as [| [| i]]; destruct j as [| [| j]];
      simpl in Hi, Hj; try lia; discriminate.
Qed.

End TaskSortProps.

Module AdapterProps.
Import Types AICliAdapter AdapterSpec.

(** *** The sort of the pool *)

Lemma insert_Permutation {A} (cmp : A -> A -> Js.Num) x l :
  Js.insert cmp x l ≡ₚ x :: l.
Proof.
  induction l as [| y l IH]; simpl; [reflexivity |].
  destruct (Js.negative (cmp y x)); [| reflexivity].
  rewrite IH. apply Permutation_swap.
Qed.

Lemma sort_Permutation {A} (cmp : A -> A -> Js.Num) l : Js.sort cmp l ≡ₚ l.
Proof.
  induction l as [| x l IH]; simpl; [reflexivity |].
  now rewrite insert_Permutation, IH.
Qed.

(** The comparator is the lexicographic order on the three keys, hence a
    consistent ordering: sorted-before is irreflexive and transitive, and
    so is being tied. *)
Lemma before_keys config a b :
  before config a b <-> lexBefore (keys config a) (keys config b).
Proof.
  unfold before, keys, lexBefore, fasterThan, compareTools, Js.orInfinity.
  generalize (priorityOf config (ToolStatus.name a)) as pa.
  generalize (priorityOf config (ToolStatus.name b)) as pb. intros pb pa.
  destruct (ToolStatus.available a), (ToolStatus.available b); simpl;
    try (split; [intros; lia | intros [? | [? _]]; [reflexivity | lia]]);
    try (split; [discriminate | intros [? | [? _]]; lia]);
    (destruct (Z.eqb_spec pa pb) as [-> | Hn]; simpl;
     [ destruct (ToolStatus.responseTimeMs a) as [u |],
                (ToolStatus.responseTimeMs b) as [v |];
       repeat match goal with
              | |- context [Z.eqb ?x 0] => destruct (Z.eqb_spec x 0)
              end; simpl; rewrite ?Z.ltb_lt;
       split; intros; try discriminate; try lia; try tauto
     | rewrite Z.ltb_lt; lia ]).
Qed.

Ltac by_keys :=
  rewrite !before_keys; unfold lexBefore, fasterThan;
  repeat match goal with
         | |- context [keys ?c ?a] =>
             let x := fresh "x" in
             let y := fresh "y" in
             let r := fresh "r" in
             destruct (keys c a) as [[x y] [r |]]
         end;
  intros; lia.

Lemma before_irreflexive config a : ~ before config a a.
Proof. by_keys. Qed.

Lemma before_transitive config a b c :
  before config a b -> before config b c -> before config a c.
Proof. by_keys. Qed.

Lemma tied_transitive config a b c :
  ~ before config a b -> ~ before config b a ->
  ~ before config b c -> ~ before config c b ->
  ~ before config a c /\ ~ before config c a.
Proof. by_keys. Qed.

Lemma compareTools_ready_first config a b :
  ToolStatus.available a = true -> ToolStatus.available b = false ->
  Js.negative (compareTools config a b) = true
  /\ Js.negative (compareTools config b a) = false.
Proof.
  intros Ha Hb. unfold compareTools. rewrite Ha, Hb. simpl. auto.
Qed.

Lemma insert_availableFirst config x pool :
  availableFirst pool -> availableFirst (Js.insert (compareTools config) x pool).
Proof.
  intros (ready & cooling & -> & Hr & Hc).
  destruct (ToolStatus.available x) eqn:Hx.
  - (* an available entry stops at the first unavailable one at the latest *)
    induction Hr as [| y ready Hy Hr IH]; simpl.
    + exists [x], cooling. split; [| split; auto].
      destruct Hc as [| z cooling Hz Hc]; simpl; [reflexivity |].
      now rewrite (proj2 (compareTools_ready_first config x z Hx Hz)).
    + destruct (Js.negative (compareTools config y x)).
      * destruct IH as (r & c & E & Hr' & Hc'). rewrite E.
        exists (y :: r), c. split; [reflexivity |]. split; auto.
      * exists (x :: y :: ready), cooling. split; [reflexivity |].
        split; auto.
  - (* an unavailable entry passes every available one *)
    exists ready, (Js.insert (compareTools config) x cooling). split.
    + clear Hc. induction Hr as [| y ready Hy Hr IH]; simpl; [reflexivity |].
      rewrite (proj1 (compareTools_ready_first config y x Hy Hx)).
      now rewrite IH.
    + split; [exact Hr |].
      rewrite insert_Permutation. now constructor.
Qed.

Lemma sort_availableFirst config l :
  availableFirst (Js.sort (compareTools config) l).
Proof.
  induction l as [| x l IH]; simpl.
  - exists [], []. repeat split; constructor.
  - now apply insert_availableFirst.
Qed.

(** C2 as corrected. A cooling backend is not removed from the pool:
    selection keeps an enabled backend whose record has a non-zero
    [lastFailed] in it, with [available] set to false on the returned
    entry when the failure is strictly less than [failureCooldownMs]
    old, and with the record unchanged when it is older or exactly that
    old.  The pool lists every available entry before every unavailable
    one, and selection leaves the world, the status file included, as it
    found it. *)
Theorem cooldown_demotes_without_excluding :
  forall (w : World.t) config tc st t,
    Storage.loadToolsConfig w = Some config ->
    tc ∈ ToolsConfig.tools config ->
    ToolConfig.enabled tc = true ->
    statusMapGet (Storage.loadToolStatus w) (ToolConfig.name tc) = Some st ->
    ToolStatus.lastFailed st = Some t ->
    t <> 0 ->
    snd (getOrderedToolPool w) = w
    /\ (World.clock w - t < World.failureCooldownMs w ->
        setAvailable false st ∈ fst (getOrderedToolPool w))
    /\ (World.failureCooldownMs w <= World.clock w - t ->
        st ∈ fst (getOrderedToolPool w))
    /\ availableFirst (fst (getOrderedToolPool w)).
Proof.
  intros w config tc st t Hc Htc Hen Hst Ht Ht0.
  unfold getOrderedToolPool. rewrite Hc. simpl.
  split; [reflexivity |].
  assert (Hin : poolEntry (Storage.loadToolStatus w) (World.clock w)
                  (World.failureCooldownMs w) tc
                ∈ Js.sort (compareTools config)
                    (poolEntry (Storage.loadToolStatus w) (World.clock w)
                       (World.failureCooldownMs w)
                     <$> List.filter ToolConfig.enabled
                           (ToolsConfig.tools config))).
  { rewrite sort_Permutation. apply list_elem_of_fmap_2.
    apply list_elem_of_In, filter_In. split; [| exact Hen].
    now apply list_elem_of_In. }
  unfold poolEntry in Hin at 1. rewrite Hst in Hin. simpl in Hin.
  unfold inCooldown, Js.truthy, Js.orElse in Hin. rewrite Ht in Hin.
  destruct (Z.eqb_spec t 0) as [| _]; [contradiction |]. simpl in Hin.
  split; [| split].
  - intros Hlt. now rewrite (proj2 (Z.ltb_lt _ _) Hlt) in Hin.
  - intros Hge. now rewrite (proj2 (Z.ltb_ge _ _) Hge) in Hin.
  - apply sort_availableFirst.
Qed.

Lemma cooldown_demotes_witness :
  snd (getOrderedToolPool (SampleWorlds.cooling 1000))
  = SampleWorlds.cooling 1000
  /\ (World.clock (SampleWorlds.cooling 1000) - 999000
      < World.failureCooldownMs (SampleWorlds.cooling 1000) ->
      setAvailable false (SampleWorlds.failedAgo 1000)
      ∈ fst (getOrderedToolPool (SampleWorlds.cooling 1000)))
  /\ (World.failureCooldownMs (SampleWorlds.cooling 1000)
      <= World.clock (SampleWorlds.cooling 1000) - 999000 ->
      SampleWorlds.failedAgo 1000
      ∈ fst (getOrderedToolPool (SampleWorlds.cooling 1000)))
  /\ availableFirst (fst (getOrderedToolPool (SampleWorlds.cooling 1000))).
Proof.
  apply (cooldown_demotes_without_excluding (SampleWorlds.cooling 1000)
           (SampleWorlds.config [SampleWorlds.tool "claude" "claude" 1])
           (SampleWorlds.tool "claude" "claude" 1)
           (SampleWorlds.failedAgo 1000) 999000).
  - reflexivity.
  - apply list_elem_of_here.
  - reflexivity.
  - reflexivity.
  - reflexivity.
  - lia.
Defined.

(** C2 as stated fails: with [failureCooldownMs = 300000] and a failure
    one second old, the only enabled backend is still in the returned
    pool (flagged unavailable), not excluded from it. *)
Lemma cooling_backend_is_not_excluded :
  World.failureCooldownMs (SampleWorlds.cooling 1000) = 300000
  /\ ToolStatus.lastFailed <$> Storage.loadToolStatus (SampleWorlds.cooling 1000)
     = [Some (World.clock (SampleWorlds.cooling 1000) - 1000)]
  /\ fst (getOrderedToolPool (SampleWorlds.cooling 1000))
     = [setAvailable false (SampleWorlds.failedAgo 1000)]
  /\ ~ ("claude"%string
        ∉ ToolStatus.name <$> fst (getOrderedToolPool (SampleWorlds.cooling 1000))).
Proof.
  repeat split; try reflexivity.
  intros H. apply H. vm_compute. apply list_elem_of_here.
Qed.

(** *** What a run of the child and the status updates leave behind *)

Lemma spawn_effects a prompt t w :
  let w' := snd (ClaudeCodeAdapter.execute a prompt t w) in
  World.toolStatus w' = World.toolStatus w
  /\ World.toolsConfig w' = World.toolsConfig w
  /\ World.failureCooldownMs w' = World.failureCooldownMs w
  /\ length (World.spawned w') = S (length (World.spawned w)).
Proof.
  unfold ClaudeCodeAdapter.execute, ClaudeCodeAdapter.execCommand.
  destruct (negb _ && _).
  - simpl. rewrite length_app. simpl. repeat split; lia.
  - destruct (World.procEnd _) as [code out err | msg]; [case_bool_decide |];
      simpl; rewrite length_app; simpl; repeat split; lia.
Qed.

Lemma spread_name st u : ToolStatus.name (Storage.spread st u) = ToolStatus.name st.
Proof. reflexivity. Qed.

Lemma find_updated toolName u (l : list ToolStatus.t) :
  match Storage.findIndex toolName l with
  | Some index =>
      exists st, l !! index = Some st
                 /\ Storage.find toolName l = Some st
                 /\ Storage.find toolName (<[index := Storage.spread st u]> l)
                    = Some (Storage.spread st u)
  | None =>
      Storage.find toolName l = None
      /\ Storage.find toolName (l ++ [Storage.spread (Storage.fresh toolName) u])
         = Some (Storage.spread (Storage.fresh toolName) u)
  end.
Proof.
  unfold Storage.find.
  induction l as [| s l IH]; simpl.
  - split; [reflexivity |]. now rewrite bool_decide_eq_true_2.
  - case_bool_decide as Hn; simpl.
    + exists s. rewrite ?bool_decide_eq_true_2 by exact Hn. auto.
    + destruct (Storage.findIndex toolName l) as [index |]; simpl.
      * destruct IH as (st & H1 & H2 & H3). exists st.
        rewrite ?bool_decide_eq_false_2 by exact Hn. auto.
      * destruct IH as [H1 H2].
        rewrite ?bool_decide_eq_false_2 by exact Hn. auto.
Qed.

Lemma updateToolStatus_effects toolName u w :
  let w' := Storage.updateToolStatus toolName u w in
  Storage.find toolName (Storage.loadToolStatus w')
  = Some (Storage.spread
            (default (Storage.fresh toolName)
                     (Storage.find toolName (Storage.loadToolStatus w))) u)
  /\ World.spawned w' = World.spawned w.
Proof.
  unfold Storage.updateToolStatus.
  pose proof (find_updated toolName u (Storage.loadToolStatus w)) as H.
  destruct (Storage.findIndex toolName (Storage.loadToolStatus w)).
  - destruct H as (st & H1 & H2 & H3). rewrite H1, H2. simpl. auto.
  - destruct H as [H1 H2]. rewrite H1. simpl. auto.
Qed.

Lemma markFailed_effects toolName reason w :
  let w' := markFailed toolName reason w in
  (exists r,
     Storage.find toolName (Storage.loadToolStatus w') = Some r
     /\ ToolStatus.available r = negb (bool_decide (reason = "quota"%string))
     /\ ToolStatus.failureCount r
        = Js.orElse (ToolStatus.failureCount
                       <$> Storage.find toolName (Storage.loadToolStatus w)) 0
          + 1)
  /\ World.spawned w' = World.spawned w.
Proof.
  unfold markFailed.
  edestruct updateToolStatus_effects as [Hf Hs]. split; [| exact Hs].
  eexists. split; [exact Hf |]. split; reflexivity.
Qed.

(** *** The loop of [execute] *)

Lemma statusMapGet_name statuses toolName st :
  statusMapGet statuses toolName = Some st -> ToolStatus.name st = toolName.
Proof.
  unfold statusMapGet, Storage.find. intros H.
  apply find_some in H as [_ H]. now apply bool_decide_eq_true in H.
Qed.

Lemma poolEntry_name statuses now cooldownMs tc :
  ToolStatus.name (poolEntry statuses now cooldownMs tc) = ToolConfig.name tc.
Proof.
  unfold poolEntry.
  destruct (statusMapGet statuses (ToolConfig.name tc)) as [st |] eqn:E;
    cbn [default];
    match goal with
    | |- context [inCooldown ?a ?b ?c] => destruct (inCooldown a b c)
    end; simpl; eauto using statusMapGet_name.
Qed.

Lemma notPreferred_same options tool :
  preferredTool options = None
  \/ preferredTool options = Some (ToolStatus.name tool) ->
  notPreferred options tool = false.
Proof.
  unfold notPreferred. intros [-> | ->]; [reflexivity |].
  rewrite (bool_decide_eq_true_2 (ToolStatus.name tool = ToolStatus.name tool))
    by reflexivity.
  now rewrite andb_false_r.
Qed.

(** The registry holds the one name. *)
Lemma adapters_claude toolName adapter :
  adapters !! toolName = Some adapter ->
  toolName = "claude"%string /\ adapter = claude.
Proof.
  unfold adapters. intros H.
  apply lookup_singleton_Some in H as [<- <-]. auto.
Qed.

(** A candidate without a registered adapter is passed over. *)
Lemma tryTools_skips_unregistered prompt options tool rest lastError w :
  adapters !! ToolStatus.name tool = None ->
  tryTools prompt options (tool :: rest) lastError w
  = tryTools prompt options rest lastError w.
Proof.
  intros Hn. simpl. destruct (notPreferred options tool); [reflexivity |].
  now rewrite Hn.
Qed.

(** The failover path: after a quota failure of a candidate the loop
    goes on with the candidates that are left. *)
Lemma tryTools_quota_continues
    prompt options tool rest lastError w adapter result w1 :
  adapters !! ToolStatus.name tool = Some adapter ->
  notPreferred options tool = false ->
  ClaudeCodeAdapter.execute adapter prompt (timeout options) w = (result, w1) ->
  ExecuteResult.exitCode result <> 0 ->
  isQuotaError (ExecuteResult.output result)
  || isQuotaError (lastErrorOf result) = true ->
  tryTools prompt options (tool :: rest) lastError w
  = tryTools prompt options rest (Some (lastErrorOf result))
      (markFailed (ToolStatus.name tool) "quota" w1).
Proof.
  intros Hn Hp He Hx Hq. simpl. rewrite Hp, Hn, He.
  rewrite (proj2 (Z.eqb_neq _ _) Hx), Hq. reflexivity.
Qed.

(** The hard-error path: the loop is left at once. *)
Lemma tryTools_hard_error_breaks
    prompt options tool rest lastError w adapter result w1 :
  adapters !! ToolStatus.name tool = Some adapter ->
  notPreferred options tool = false ->
  ClaudeCodeAdapter.execute adapter prompt (timeout options) w = (result, w1) ->
  ExecuteResult.exitCode result <> 0 ->
  isQuotaError (ExecuteResult.output result) = false ->
  isQuotaError (lastErrorOf result) = false ->
  tryTools prompt options (tool :: rest) lastError w
  = (allFailed (Some (lastErrorOf result)),
     markFailed (ToolStatus.name tool) "error" w1).
Proof.
  intros Hn Hp He Hx Ho Hl. simpl. rewrite Hp, Hn, He.
  rewrite (proj2 (Z.eqb_neq _ _) Hx), Ho, Hl. reflexivity.
Qed.

Lemma execute_unfold prompt options w config :
  Storage.loadToolsConfig w = Some config ->
  let w0 :=
    World.setFailureCooldownMs (ToolsConfig.failureCooldownMs config) w in
  fst (getOrderedToolPool w0) <> [] ->
  execute prompt options w
  = tryTools prompt options (fst (getOrderedToolPool w0)) None w0.
Proof.
  intros Hc w0 Hne. unfold execute. rewrite Hc. fold w0.
  unfold getOrderedToolPool in *.
  change (Storage.loadToolsConfig w0) with (Storage.loadToolsConfig w) in *.
  rewrite Hc in *. simpl in *.
  case_bool_decide as Hl; [| reflexivity].
  apply length_zero_iff_nil in Hl. contradiction.
Qed.

(** C3. One enabled backend that is invoked (an adapter is registered
    under its name, and [preferredTool] is unset or names it), whose
    invocation ends with a non-zero exit code and no quota text in the
    output or the error: [execute] throws the aggregate error with the
    last error text, has spawned exactly one child, and the record of
    the backend on file is available with its failure count one higher
    (counting from zero when there was no record). *)
Theorem hard_error_is_surfaced_without_failover :
  forall prompt options (w : World.t) config tc adapter result w1,
    Storage.loadToolsConfig w = Some config ->
    List.filter ToolConfig.enabled (ToolsConfig.tools config) = [tc] ->
    adapters !! ToolConfig.name tc = Some adapter ->
    (preferredTool options = None
     \/ preferredTool options = Some (ToolConfig.name tc)) ->
    ClaudeCodeAdapter.execute adapter prompt (timeout options)
      (World.setFailureCooldownMs (ToolsConfig.failureCooldownMs config) w)
    = (result, w1) ->
    ExecuteResult.exitCode result <> 0 ->
    isQuotaError (ExecuteResult.output result) = false ->
    isQuotaError (lastErrorOf result) = false ->
    fst (execute prompt options w)
    = Thrown ("All tools failed. Last error: " +:+ lastErrorOf result)
    /\ length (World.spawned (snd (execute prompt options w)))
       = S (length (World.spawned w))
    /\ exists r,
         Storage.find (ToolConfig.name tc)
           (Storage.loadToolStatus (snd (execute prompt options w))) = Some r
         /\ ToolStatus.available r = true
         /\ ToolStatus.failureCount r
            = Js.orElse (ToolStatus.failureCount
                           <$> Storage.find (ToolConfig.name tc)
                                 (Storage.loadToolStatus w))
                        0 + 1.
Proof.
  intros prompt options w config tc adapter result w1 Hc Hf Hn Hp He Hx Ho Hl.
  set (w0 := World.setFailureCooldownMs (ToolsConfig.failureCooldownMs config) w)
    in *.
  set (entry := poolEntry (Storage.loadToolStatus w0) (World.clock w0)
                  (World.failureCooldownMs w0) tc).
  assert (Hname : ToolStatus.name entry = ToolConfig.name tc)
    by apply poolEntry_name.
  assert (Hpool : fst (getOrderedToolPool w0) = [entry]).
  { unfold getOrderedToolPool.
    change (Storage.loadToolsConfig w0) with (Storage.loadToolsConfig w).
    rewrite Hc. simpl. rewrite Hf. reflexivity. }
  rewrite (execute_unfold prompt options w config Hc)
    by (fold w0; rewrite Hpool; discriminate).
  fold w0. rewrite Hpool.
  rewrite (tryTools_hard_error_breaks prompt options entry [] None w0
             adapter result w1); auto.
  2: { now rewrite Hname. }
  2: { apply notPreferred_same. now rewrite Hname. }
  simpl. rewrite Hname.
  pose proof (spawn_effects adapter prompt (timeout options) w0) as Hs.
  rewrite He in Hs. simpl in Hs. destruct Hs as (Hst & _ & _ & Hsp).
  destruct (markFailed_effects (ToolConfig.name tc) "error" w1)
    as [(r & Hr & Ha & Hfc) Hsp'].
  split; [reflexivity |]. split.
  - rewrite Hsp', Hsp. reflexivity.
  - exists r. split; [exact Hr |]. split; [exact Ha |].
    rewrite Hfc. unfold Storage.loadToolStatus. rewrite Hst. reflexivity.
Qed.

Lemma hard_error_is_surfaced_witness :
  fst (execute "fix the bug" noOptions SampleWorlds.oneBackend)
  = Thrown "All tools failed. Last error: segmentation fault"
  /\ length (World.spawned
               (snd (execute "fix the bug" noOptions SampleWorlds.oneBackend)))
     = 1%nat
  /\ exists r,
       Storage.find "claude"
         (Storage.loadToolStatus
            (snd (execute "fix the bug" noOptions SampleWorlds.oneBackend)))
       = Some r
       /\ ToolStatus.available r = true
       /\ ToolStatus.failureCount r = 1.
Proof.
  apply (hard_error_is_surfaced_without_failover
           "fix the bug" noOptions SampleWorlds.oneBackend
           (SampleWorlds.config [SampleWorlds.tool "claude" "claude" 1])
           (SampleWorlds.tool "claude" "claude" 1)
           claude
           (fst (ClaudeCodeAdapter.execute claude "fix the bug" None
                   SampleWorlds.oneBackend))
           (snd (ClaudeCodeAdapter.execute claude "fix the bug" None
                   SampleWorlds.oneBackend))).
  - reflexivity.
  - reflexivity.
  - reflexivity.
  - left. reflexivity.
  - reflexivity.
  - vm_compute. discriminate.
  - vm_compute. reflexivity.
  - vm_compute. reflexivity.
Defined.




(** The one configuration in which a second backend is run after a
    quota failure of the first has both entries under the registered
    name; they then share one record, which the success of the second
    run marks available again. *)
Example both_entries_named_claude :
  let r := execute "fix the bug" noOptions SampleWorlds.twiceClaude in
  (exists result, fst r = Returned result
                  /\ ExecuteResult.output result = "done"%string)
  /\ length (World.spawned (snd r)) = 2%nat
  /\ ToolStatus.available <$> Storage.loadToolStatus (snd r) = [true].
Proof.
  split; [eexists; split; vm_compute; reflexivity |].
  split; vm_compute; reflexivity.
Qed.

End AdapterProps.

Module TaskExecutorProps.
Import Types TaskExecutor TaskExecutorSpec.

Local Open Scope nat_scope.

(** *** The adapter returns only on exit code 0 *)

Lemma tryTools_returned prompt options pool :
  forall lastError w r w',
    AICliAdapter.tryTools prompt options pool lastError w
    = (AICliAdapter.Returned r, w') ->
    ExecuteResult.exitCode r = 0%Z.
Proof.
  induction pool as [| tool rest IH]; intros lastError w r w' H; simpl in H.
  - discriminate H.
  - destruct (AICliAdapter.notPreferred options tool); [eauto |].
    destruct (AICliAdapter.adapters !! ToolStatus.name tool); [| eauto].
    destruct (ClaudeCodeAdapter.execute _ _ _ _) as [result w1].
    destruct (Z.eqb_spec (ExecuteResult.exitCode result) 0) as [E | _].
    + congruence.
    + destruct (_ || _); [eauto | discriminate H].
Qed.

Lemma execute_returned prompt options w r w' :
  AICliAdapter.execute prompt options w = (AICliAdapter.Returned r, w') ->
  ExecuteResult.exitCode r = 0%Z.
Proof.
  unfold AICliAdapter.execute.
  destruct (Storage.loadToolsConfig w); [| discriminate].
  destruct (AICliAdapter.getOrderedToolPool _) as [pool w1].
  case_bool_decide; [discriminate |]. apply tryTools_returned.
Qed.

(** [executeTask] answers [true] with the task completed, or [false]
    with the task failed; the id stays. *)
Lemma executeTask_cases task w :
  let '(result, task', _) := executeTask task w in
  ExecutableTask.id task' = ExecutableTask.id task
  /\ ((result = true /\ ExecutableTask.status task' = Completed)
      \/ (result = false /\ ExecutableTask.status task' = Failed)).
Proof.
  unfold executeTask.
  destruct (AICliAdapter.execute _ _ _) as [[r | message] w'] eqn:E; simpl.
  - apply execute_returned in E. rewrite E. auto.
  - auto.
Qed.

(** *** One call of [executeTaskGroup] *)

Lemma stepGroup_cases g w :
  returned g = None ->
  let g' := fst (stepGroup g w) in
  length (tasks g') = length (tasks g)
  /\ ExecutableTask.id <$> tasks g' = ExecutableTask.id <$> tasks g
  /\ executed g `prefix_of` executed g'
  /\ ((returned g' = None /\ next g' = S (next g) /\ next g < length (tasks g))
      \/ ranItsCourse g').
Proof.
  intros Hr. unfold stepGroup. rewrite Hr.
  destruct (tasks g !! next g) as [task |] eqn:Ht; simpl.
  - pose proof (lookup_lt_Some _ _ _ Ht) as Hlt.
    destruct (negb (StateMachine.canStart _)); simpl.
    { split; [reflexivity |]. split; [reflexivity |].
      split; [reflexivity |]. left. auto. }
    destruct (negb (checkDependencies task (tasks g))); simpl.
    { split; [reflexivity |]. split; [reflexivity |].
      split; [reflexivity |]. left. auto. }
    pose proof (executeTask_cases task w) as Hc.
    destruct (executeTask task w) as [[result task'] w'].
    destruct Hc as [Hid Hc].
    assert (Hids : ExecutableTask.id <$> <[next g := task']> (tasks g)
                   = ExecutableTask.id <$> tasks g).
    { rewrite list_fmap_insert, Hid. apply list_insert_id.
      now rewrite list_lookup_fmap, Ht. }
    destruct result; simpl; rewrite length_insert;
      (split; [reflexivity |]); (split; [exact Hids |]);
      (split; [now apply prefix_app_r |]).
    + left. auto.
    + right. unfold ranItsCourse. simpl. exists task'.
      destruct Hc as [[? _] | [_ Hf]]; [discriminate |].
      rewrite list_lookup_insert_eq by exact Hlt. rewrite last_snoc. auto.
  - apply lookup_ge_None in Ht.
    split; [reflexivity |]. split; [reflexivity |]. split; [reflexivity |].
    right. unfold ranItsCourse. simpl. exact Ht.
Qed.

Lemma stepGroup_returned g w :
  returned g <> None -> stepGroup g w = (g, w).
Proof. unfold stepGroup. destruct (returned g); [reflexivity | contradiction]. Qed.

Lemma stepsGroup_returned n : forall g w,
  returned g <> None -> stepsGroup n g w = (g, w).
Proof.
  induction n as [| n IH]; intros g w H; simpl; [reflexivity |].
  rewrite stepGroup_returned by exact H. now apply IH.
Qed.

Lemma ranItsCourse_returned g : ranItsCourse g -> returned g <> None.
Proof. unfold ranItsCourse. destruct (returned g); [discriminate | tauto]. Qed.

(** Enough turns end the call. *)
Lemma stepsGroup_ends n : forall g w,
  inProgressOrDone g ->
  length (tasks g) - next g < n ->
  ranItsCourse (fst (stepsGroup n g w))
  /\ ExecutableTask.id <$> tasks (fst (stepsGroup n g w))
     = ExecutableTask.id <$> tasks g
  /\ executed g `prefix_of` executed (fst (stepsGroup n g w)).
Proof.
  induction n as [| n IH]; intros g w Hg Hn; [lia |].
  destruct Hg as [Hnone | Hdone].
  - simpl. pose proof (stepGroup_cases g w Hnone) as Hs.
    destruct (stepGroup g w) as [g' w']. simpl in Hs.
    destruct Hs as (Hlen & Hids & Hpre & [(Hr & Hnx & Hlt) | Hdone]).
    + destruct (IH g' w') as (H1 & H2 & H3); [now left | lia |].
      split; [exact H1 |]. split; [congruence |].
      etrans; [exact Hpre | exact H3].
    + rewrite stepsGroup_returned by now apply ranItsCourse_returned.
      simpl. auto.
  - rewrite stepsGroup_returned by now apply ranItsCourse_returned.
    simpl. auto.
Qed.

Lemma runToEnd_ends g w :
  inProgressOrDone g ->
  ranItsCourse (fst (runToEnd g w))
  /\ ExecutableTask.id <$> tasks (fst (runToEnd g w))
     = ExecutableTask.id <$> tasks g.
Proof.
  intros Hg. unfold runToEnd.
  destruct (stepsGroup_ends (S (length (tasks g) - next g)) g w Hg) as (H1 & H2 & _);
    [lia | auto].
Qed.

Lemma groupTasksByProject_filter batch :
  TaskGroups.backend (groupTasksByProject batch)
  = List.filter
      (fun t => negb (bool_decide (ExecutableTask.project t = "frontend"%string)))
      batch
  /\ TaskGroups.frontend (groupTasksByProject batch)
     = List.filter
         (fun t => bool_decide (ExecutableTask.project t = "frontend"%string))
         batch.
Proof.
  unfold groupTasksByProject.
  induction batch as [| t batch IH] using rev_ind; [split; reflexivity |].
  rewrite foldl_app, !List.filter_app. simpl.
  destruct IH as [-> ->].
  destruct (bool_decide (ExecutableTask.project t = "frontend"%string)); simpl;
    rewrite ?app_nil_r; auto.
Qed.

(** *** A prerequisite and its two dependents in one bucket *)

Lemma stepsGroup_S n g w :
  stepsGroup (S n) g w
  = stepsGroup n (fst (stepGroup g w)) (snd (stepGroup g w)).
Proof. simpl. now destruct (stepGroup g w). Qed.

(** The turn of a pending task whose dependencies are completed. *)
Lemma stepGroup_executes g w task :
  returned g = None ->
  tasks g !! next g = Some task ->
  ExecutableTask.status task = Pending ->
  checkDependencies task (tasks g) = true ->
  stepGroup g w
  = (if fst (fst (executeTask task w))
     then skip (ran (snd (fst (executeTask task w))) g)
     else finish false (ran (snd (fst (executeTask task w))) g),
     snd (executeTask task w)).
Proof.
  intros Hr Ht Hs Hd. unfold stepGroup. rewrite Hr, Ht.
  unfold StateMachine.canStart, StateMachine.getStatus. simpl.
  rewrite Hs, Hd. simpl.
  destruct (executeTask task w) as [[result task'] w']. simpl.
  now destruct result.
Qed.

Lemma checkDependencies_none task allTasks :
  ExecutableTask.dependsOn task = [] -> checkDependencies task allTasks = true.
Proof. intros H. unfold checkDependencies. now rewrite H. Qed.

Lemma checkDependencies_head task dep rest :
  ExecutableTask.dependsOn task = [ExecutableTask.id dep] ->
  ExecutableTask.status dep = Completed ->
  checkDependencies task (dep :: rest) = true.
Proof.
  intros Hd Hs. unfold checkDependencies. rewrite Hd. simpl.
  rewrite bool_decide_eq_true_2 by reflexivity.
  rewrite Hs. reflexivity.
Qed.

Lemma executeTask_thrown task w message w' :
  AICliAdapter.execute (buildTaskPrompt (started (World.clock w) task))
    AICliAdapter.noOptions w = (AICliAdapter.Thrown message, w') ->
  fst (fst (executeTask task w)) = false.
Proof. intros H. unfold executeTask. now rewrite H. Qed.

Lemma run_three (A X Y : ExecutableTask.t) (w : World.t) :
  ExecutableTask.dependsOn A = [] ->
  ExecutableTask.dependsOn X = [ExecutableTask.id A] ->
  ExecutableTask.dependsOn Y = [ExecutableTask.id A] ->
  ExecutableTask.status A = Pending ->
  ExecutableTask.status X = Pending ->
  ExecutableTask.status Y = Pending ->
  threeRun A X Y w
    (fst (runToEnd {| tasks := [A; X; Y]; next := 0; returned := None;
                      executed := [] |} w)).
Proof.
  intros HdA HdX HdY HsA HsX HsY.
  unfold runToEnd. cbn [tasks next length Nat.sub].
  (* the turn of A *)
  rewrite stepsGroup_S.
  rewrite (stepGroup_executes _ w A) by
    (first [reflexivity | assumption | now apply checkDependencies_none]).
  pose proof (executeTask_cases A w) as HA.
  destruct (executeTask A w) as [[r1 A'] w1] eqn:EA. cbn [fst snd] in *.
  destruct HA as [HidA [[-> HcA] | [-> HfA]]].
  2: { rewrite stepsGroup_returned by discriminate.
       unfold finish, ran. simpl. rewrite HidA. split; simpl.
       - eexists. reflexivity.
       - now apply prefix_cons, prefix_nil.
       - discriminate.
       - auto. }
  (* the turn of X *)
  rewrite stepsGroup_S.
  rewrite (stepGroup_executes _ w1 X) by
    (first [reflexivity | assumption
           | apply checkDependencies_head; [congruence | assumption]]).
  pose proof (executeTask_cases X w1) as HX.
  destruct (executeTask X w1) as [[r2 X'] w2]. cbn [fst snd] in *.
  destruct HX as [HidX [[-> HcX] | [-> HfX]]].
  2: { rewrite stepsGroup_returned by discriminate.
       unfold finish, ran, skip. simpl. rewrite HidA, HidX.
       split; simpl; rewrite ?EA; simpl.
       - eexists. reflexivity.
       - now apply prefix_cons, prefix_cons, prefix_nil.
       - discriminate.
       - discriminate. }
  (* the turn of Y *)
  rewrite stepsGroup_S.
  rewrite (stepGroup_executes _ w2 Y) by
    (first [reflexivity | assumption
           | apply checkDependencies_head; [congruence | assumption]]).
  pose proof (executeTask_cases Y w2) as HY.
  destruct (executeTask Y w2) as [[r3 Y'] w3]. cbn [fst snd] in *.
  destruct HY as [HidY [[-> HcY] | [-> HfY]]];
    unfold finish, ran, skip; simpl;
    rewrite HidA, HidX, HidY; split; simpl; rewrite ?EA; simpl;
    try (eexists; reflexivity); try reflexivity; try discriminate.
Qed.



(** The same bucket run in two worlds: where every child fails, [A] is
    executed and nothing else; where the children succeed, all three
    run, [A] first. *)
Example prerequisite_fails_or_succeeds :
  (let g := fst (executeTaskGroup
                   [Samples.taskA; Samples.taskB; Samples.taskC]
                   SampleWorlds.oneBackend) in
   returned g = Some false /\ executed g = ["A"]%string
   /\ ExecutableTask.status <$> tasks g = [Failed; Pending; Pending])
  /\ (let g := fst (executeTaskGroup
                      [Samples.taskA; Samples.taskB; Samples.taskC]
                      Samples.backendBreaks) in
      returned g = Some true /\ executed g = ["A"; "C"; "B"]%string
      /\ ExecutableTask.status <$> tasks g = [Completed; Completed; Completed]).
Proof. vm_compute. repeat split. Qed.

End TaskExecutorProps.

Module SchedulerProps.
Import Types Scheduler SchedulerSpec.

Local Open Scope nat_scope.

Lemma withinBudget_add budget poll fb sh :
  canStartTask sh = true ->
  withinBudget budget sh -> withinBudget budget (addActive poll fb sh).
Proof.
  intros Hc [Hk Ha Hd]. apply bool_decide_eq_true in Hc. rewrite Hk in Hc.
  split; simpl.
  - exact Hk.
  - rewrite size_union_alt.
    assert (size ({[id fb]} ∖ activeTasks sh : gset string)
            <= size ({[id fb]} : gset string))
      by (apply subseteq_size, subseteq_difference_l; reflexivity).
    rewrite size_singleton in *. lia.
  - apply Forall_app. split; [exact Hd |]. constructor; [exact Hc | constructor].
Qed.

Lemma withinBudget_delete budget fb sh :
  withinBudget budget sh -> withinBudget budget (deleteActive fb sh).
Proof.
  intros [Hk Ha Hd]. split; simpl; auto.
  etrans; [apply subseteq_size | exact Ha].
  apply subseteq_difference_l. reflexivity.
Qed.

Lemma withinBudget_store budget l sh :
  withinBudget budget sh -> withinBudget budget (setStore l sh).
Proof. intros [Hk Ha Hd]. split; simpl; auto. Qed.

Lemma withinBudget_running budget b sh :
  withinBudget budget sh -> withinBudget budget (setRunning b sh).
Proof. intros [Hk Ha Hd]. split; simpl; auto. Qed.

Lemma feedbackLoop_withinBudget budget poll todo :
  forall sh, withinBudget budget sh ->
             withinBudget budget (snd (feedbackLoop poll todo sh)).
Proof.
  induction todo as [| f rest IH]; intros sh H; simpl; [exact H |].
  destruct (canStartTask sh) eqn:Hc; simpl; [| exact H].
  pose proof (withinBudget_add budget poll f sh Hc H) as H1.
  destruct (bool_decide (status f = Pending)); [exact H1 |].
  destruct (_ || _); [exact H1 |].
  apply IH. now apply withinBudget_delete.
Qed.

Lemma clarificationLoop_withinBudget budget poll todo fbs sh :
  withinBudget budget sh ->
  withinBudget budget (snd (clarificationLoop poll todo fbs sh)).
Proof.
  intros H. destruct todo as [| c rest]; simpl.
  - now apply feedbackLoop_withinBudget.
  - destruct (canStartTask sh) eqn:Hc; simpl.
    + now apply withinBudget_add.
    + now apply feedbackLoop_withinBudget.
Qed.

Lemma resume_withinBudget budget poll o p sh :
  withinBudget budget sh -> withinBudget budget (snd (resume poll o p sh)).
Proof.
  intros H. unfold resume.
  destruct (stage p) as [| c | c | c st | f | f | f |]; simpl.
  - destruct (listPendingFeedbacks (store sh)) as [cs fs].
    destruct o; simpl; auto using clarificationLoop_withinBudget.
  - now apply withinBudget_store.
  - exact H.
  - apply clarificationLoop_withinBudget, withinBudget_delete.
    now apply withinBudget_store.
  - now apply withinBudget_store.
  - destruct o; simpl; auto;
      apply feedbackLoop_withinBudget, withinBudget_delete; auto.
    now apply withinBudget_store.
  - apply feedbackLoop_withinBudget, withinBudget_delete.
    now apply withinBudget_store.
  - exact H.
Qed.

Lemma step_withinBudget budget ev s :
  withinBudget budget (shared s) -> withinBudget budget (shared (step ev s)).
Proof.
  intros H. destruct ev as [| | | i o]; simpl.
  - destruct (running (shared s)); simpl; auto using withinBudget_running.
  - now apply withinBudget_running.
  - now destruct (negb (running (shared s))).
  - destruct (polls s !! i) as [p |]; [| exact H].
    pose proof (resume_withinBudget budget i o p (shared s) H) as Hr.
    now destruct (resume i o p (shared s)).
Qed.

Lemma run_withinBudget budget events : forall s,
  withinBudget budget (shared s) ->
  withinBudget budget (shared (run events s)).
Proof.
  unfold run. induction events as [| ev events IH]; intros s H; simpl.
  - exact H.
  - apply IH. now apply step_withinBudget.
Qed.

(** C9 as corrected. Across poll ticks, however the calls of [poll()]
    overlap, the check made before a handler is started is the budget:
    every handler was started with fewer than [maxConcurrent] ids in
    [activeTasks] (whether or not the id of its item was among them), and
    [activeTasks] never holds more than [maxConcurrent] ids. *)
Theorem dispatch_is_guarded_by_budget_only :
  forall (budget : nat) (items : list AnyFeedback) (events : list Event),
    let s := run events (init budget items) in
    size (activeTasks (shared s)) <= budget
    /\ forall d, d ∈ dispatched (shared s) -> size (activeBefore d) < budget.
Proof.
  intros budget items events s.
  destruct (run_withinBudget budget events (init budget items)) as [_ Ha Hd].
  - split; [reflexivity | | constructor].
    cbn [init shared activeTasks]. rewrite size_empty. lia.
  - split; [exact Ha |]. intros d Hin.
    rewrite Forall_forall in Hd. now apply Hd.
Qed.

(** C9 as stated fails: with a budget of 3 and two pending
    clarifications [W] and [X], poll 0 lists both and starts on [W];
    poll 1, invoked meanwhile, lists [X] and starts on it; poll 0, done
    with [W], goes on to [X] from its own list and starts a handler for
    it while [X] is in [activeTasks] and poll 1 is still handling it. *)
Lemma overlapping_polls_dispatch_an_active_item :
  let before := run (take 7 SampleTicks.overlap)
                    (init 3 [SampleTicks.itemW; SampleTicks.itemX]) in
  let s := run SampleTicks.overlap
               (init 3 [SampleTicks.itemW; SampleTicks.itemX]) in
  id SampleTicks.itemX ∈ activeTasks (shared before)
  /\ handling <$> polls before
     = [Some (id SampleTicks.itemW); Some (id SampleTicks.itemX)]
  /\ handling <$> polls s
     = [Some (id SampleTicks.itemX); Some (id SampleTicks.itemX)]
  /\ (fun d => (byPoll d, item d)) <$> dispatched (shared s)
     = [(0, id SampleTicks.itemW); (1, id SampleTicks.itemX);
        (0, id SampleTicks.itemX)]
  /\ ~ noDispatchOfActive s.
Proof.
  split; [apply (bool_decide_unpack _); vm_compute; exact I |].
  split; [vm_compute; reflexivity |].
  split; [vm_compute; reflexivity |].
  split; [vm_compute; reflexivity |].
  intros H.
  assert (E : last (dispatched
                      (shared (run SampleTicks.overlap
                                 (init 3 [SampleTicks.itemW;
                                          SampleTicks.itemX]))))
              = Some {| byPoll := 0; item := id SampleTicks.itemX;
                        activeBefore := {[ id SampleTicks.itemX ]} |})
    by (vm_compute; reflexivity).
  apply (H {| byPoll := 0; item := id SampleTicks.itemX;
              activeBefore := {[ id SampleTicks.itemX ]} |}).
  - apply list_elem_of_lookup_2 with 2.
    rewrite last_lookup in E. exact E.
  - simpl. apply elem_of_singleton. reflexivity.
Qed.

End SchedulerProps.

(** ** The transition tables and the history *)
Module LifecycleProps.
Import Types Constants StateMachine LifecycleSpec.

Lemma terminal_has_no_successor ty s s' :
  isTerminalStatus s = true -> canTransition s s' ty = false.
Proof. intros H. destruct ty, s, s'; try reflexivity; discriminate H. Qed.

Lemma transition_of_terminal now s m :
  isTerminal m = true -> snd (transition now s m) = m.
Proof.
  intros H. unfold transition. case_bool_decide; [reflexivity |].
  now rewrite (terminal_has_no_successor _ _ _ H).
Qed.

(** X1. A terminal status is final for [transition]: when [isTerminal()]
    answers true the table of the machine's domain allows no target, and
    the machine comes out of any sequence of [transition] calls as it
    went in, current status and history alike. *)
Theorem terminal_status_is_final :
  forall (m : t) (cs : list (Timestamp * Status)),
    isTerminal m = true ->
    (forall s, canTransition (getStatus m) s (type m) = false)
    /\ calls (transitions cs) m = m.
Proof.
  intros m cs H. split.
  - intros s. now apply terminal_has_no_successor.
  - unfold calls, transitions.
    induction cs as [| [now s] cs IH]; simpl; [reflexivity |].
    now rewrite (transition_of_terminal now s m H).
Qed.

Lemma terminal_status_is_final_witness :
  (forall s, canTransition Completed s TTask = false)
  /\ calls (transitions [(1, Pending); (2, Failed); (3, Completed)])
       (TaskStateMachine 0 Completed)
     = TaskStateMachine 0 Completed.
Proof.
  apply (terminal_status_is_final (TaskStateMachine 0 Completed)
           [(1, Pending); (2, Failed); (3, Completed)]).
  reflexivity.
Defined.

Lemma lawful_snoc ty h e e' :
  lawful ty h -> last h = Some e ->
  canTransition (status e) (status e') ty = true ->
  lawful ty (h ++ [e']).
Proof.
  intros Hl He Hc i a b Ha Hb.
  destruct (decide (S i < length h)%nat) as [Hlt | Hge].
  - rewrite lookup_app_l in Ha by lia. rewrite lookup_app_l in Hb by lia.
    eauto.
  - pose proof (lookup_lt_Some _ _ _ Hb) as Hb'.
    rewrite length_app in Hb'. simpl in Hb'.
    assert (Hi : S i = length h) by lia.
    rewrite lookup_app_l in Ha by lia.
    rewrite last_lookup in He.
    replace (pred (length h)) with i in He by lia.
    rewrite Hi, lookup_app_r, Nat.sub_diag in Hb by lia. simpl in Hb.
    congruence.
Qed.

(** The invariant behind the next theorem. *)
Lemma transition_lawful ty now s m :
  type m = ty -> lawful ty (statusHistory m) ->
  (exists e, last (statusHistory m) = Some e /\ status e = currentStatus m) ->
  let m' := snd (transition now s m) in
  type m' = ty /\ lawful ty (statusHistory m')
  /\ exists e, last (statusHistory m') = Some e /\ status e = currentStatus m'.
Proof.
  intros Ht Hl (e & He & Hs). unfold transition.
  case_bool_decide as Hcur; simpl; [eauto |].
  destruct (canTransition (currentStatus m) s (type m)) eqn:Hc; simpl;
    [| eauto].
  split; [exact Ht |]. split.
  - apply (lawful_snoc ty _ e); [exact Hl | exact He |].
    simpl. now rewrite Hs, <- Ht.
  - rewrite last_snoc. eexists. split; reflexivity.
Qed.

(** X2. The history of a machine driven by [transition] alone is a path of
    the transition table of its domain: every entry after the first was
    reached from the entry before it by an allowed transition (so, in
    the task domain, [completed] is only ever recorded right after
    [in_progress]). *)
Theorem history_follows_the_transition_table :
  forall (now : Timestamp) (init : Status) (ty : MachineType)
         (cs : list (Timestamp * Status)),
    lawful ty (getHistory (calls (transitions cs) (constructor now init ty))).
Proof.
  intros now init ty cs. unfold getHistory.
  assert (H : forall m,
             type m = ty -> lawful ty (statusHistory m) ->
             (exists e, last (statusHistory m) = Some e
                        /\ status e = currentStatus m) ->
             lawful ty (statusHistory (calls (transitions cs) m))).
  { unfold calls, transitions.
    induction cs as [| [n s] cs IH]; intros m Ht Hl He; simpl; [exact Hl |].
    destruct (transition_lawful ty n s m Ht Hl He) as (H1 & H2 & H3).
    now apply IH. }
  apply H.
  - reflexivity.
  - intros i a b Ha Hb. destruct i; discriminate Hb.
  - eexists. split; reflexivity.
Qed.

(** X3. Retry is the one way out of a failed status.  In each of the
    three domains, for a status [isFailedStatus] reports, the allowed
    transitions are exactly the one from [failed] to [pending]: that
    one is allowed in every domain, nothing else is, and [expired] moves
    nowhere. *)
Theorem failed_status_only_retries :
  forall (ty : MachineType) (s s' : Status),
    isFailedStatus s = true ->
    (canTransition s s' ty = true <-> s = Failed /\ s' = Pending).
Proof.
  intros ty s s' Hf. split.
  - intros Hc.
    destruct ty, s; try discriminate Hf; destruct s'; try discriminate Hc;
      split; reflexivity.
  - intros [-> ->]. destruct ty; reflexivity.
Qed.

Lemma failed_status_only_retries_witness :
  isFailedStatus Failed = true
  /\ canTransition Failed Pending TClarification = true
  /\ canTransition Failed Pending TFeedback = true
  /\ canTransition Failed Pending TTask = true
  /\ canTransition Expired Pending TClarification = false.
Proof.
  split; [reflexivity |].
  split; [apply (proj2 (failed_status_only_retries TClarification Failed
                          Pending eq_refl)); split; reflexivity |].
  split; [apply (proj2 (failed_status_only_retries TFeedback Failed
                          Pending eq_refl)); split; reflexivity |].
  split; [apply (proj2 (failed_status_only_retries TTask Failed
                          Pending eq_refl)); split; reflexivity |].
  destruct (canTransition Expired Pending TClarification) eqn:E;
    [| reflexivity].
  destruct (proj1 (failed_status_only_retries TClarification Expired
                     Pending eq_refl) E) as [H _].
  discriminate H.
Defined.

End LifecycleProps.

(** ** Quota detection and the result of one child *)
Module QuotaProps.
Import Types AICliAdapter InvocationSpec.

(** *** Letter case *)

Lemma toLower_cases b :
  Js.toLower b = b
  \/ ((65 <= nat_of_ascii b <= 90)%nat
      /\ nat_of_ascii (Js.toLower b) = (nat_of_ascii b + 32)%nat).
Proof.
  unfold Js.toLower.
  destruct ((65 <=? nat_of_ascii b)%nat && (nat_of_ascii b <=? 90)%nat) eqn:E;
    [| now left].
  apply andb_true_iff in E as [E1 E2].
  apply Nat.leb_le in E1, E2. right. split; [lia |].
  apply nat_ascii_embedding. lia.
Qed.

Lemma toLower_idem b : Js.toLower (Js.toLower b) = Js.toLower b.
Proof.
  destruct (toLower_cases b) as [E | [Hb Hn]]; [now rewrite !E |].
  unfold Js.toLower at 1. rewrite Hn.
  replace ((65 <=? nat_of_ascii b + 32)%nat
           && (nat_of_ascii b + 32 <=? 90)%nat) with false; [reflexivity |].
  symmetry. apply andb_false_iff. right. apply Nat.leb_gt. lia.
Qed.

Lemma lower_idem s : Js.lower (Js.lower s) = Js.lower s.
Proof.
  induction s as [| c s IH]; simpl; [reflexivity |].
  now rewrite toLower_idem, IH.
Qed.

Lemma toLower_digit c b :
  isDigit c = true ->
  bool_decide (c = Js.toLower b) = bool_decide (c = b).
Proof.
  unfold isDigit. intros H. apply andb_true_iff in H as [H1 H2].
  apply Nat.leb_le in H1, H2.
  destruct (toLower_cases b) as [E | [Hb Hn]]; [now rewrite E |].
  rewrite !bool_decide_eq_false_2; [reflexivity | |]; intros ->; lia.
Qed.

Lemma startsWith_lower_digits p :
  allDigits p = true ->
  forall s, Js.startsWith p (Js.lower s) = Js.startsWith p s.
Proof.
  induction p as [| c p IH]; intros H s; [now destruct s |].
  simpl in H. apply andb_true_iff in H as [Hc Hp].
  destruct s as [| b s]; simpl; [reflexivity |].
  now rewrite toLower_digit, IH.
Qed.

Lemma contains_lower_digits p :
  allDigits p = true ->
  forall s, Js.contains p (Js.lower s) = Js.contains p s.
Proof.
  intros H s. induction s as [| b s IH].
  - reflexivity.
  - change (Js.contains p (Js.lower (String b s)))
      with (Js.startsWith p (Js.lower (String b s))
            || Js.contains p (Js.lower s)).
    now rewrite startsWith_lower_digits, IH.
Qed.

(** X4. Quota detection does not look at letter case: a text and its
    lower-cased form are classified alike.  (Seven patterns carry the
    [i] flag; the other three are digits, which no letter folds to.) *)
Theorem quota_detection_ignores_case :
  forall s : string, isQuotaError (Js.lower s) = isQuotaError s.
Proof.
  intros s. unfold isQuotaError, QUOTA_PATTERNS, Js.test.
  cbn [existsb Js.ignoreCase Js.source].
  rewrite lower_idem.
  now rewrite (contains_lower_digits "401"), (contains_lower_digits "403"),
    (contains_lower_digits "429") by reflexivity.
Qed.

(** *** Text around a match *)

Lemma lower_app a b : Js.lower (a +:+ b) = Js.lower a +:+ Js.lower b.
Proof. induction a as [| c a IH]; simpl; [reflexivity | now rewrite IH]. Qed.

Lemma startsWith_app_r p : forall s post,
  Js.startsWith p s = true -> Js.startsWith p (s +:+ post) = true.
Proof.
  induction p as [| a p IH]; intros s post H; [reflexivity |].
  destruct s as [| b s]; simpl in *; [discriminate |].
  apply andb_true_iff in H as [H1 H2]. rewrite H1. simpl. now apply IH.
Qed.

Lemma contains_app_r p : forall s post,
  Js.contains p s = true -> Js.contains p (s +:+ post) = true.
Proof.
  induction s as [| b s IH]; intros post H.
  - simpl in H. rewrite orb_false_r in H.
    destruct p; [| discriminate H]. now destruct post.
  - change (Js.contains p (String b s))
      with (Js.startsWith p (String b s) || Js.contains p s) in H.
    change (Js.contains p (String b s +:+ post))
      with (Js.startsWith p (String b s +:+ post)
            || Js.contains p (s +:+ post)).
    apply orb_true_iff in H as [H | H]; apply orb_true_iff.
    + left. now apply startsWith_app_r.
    + right. now apply IH.
Qed.

Lemma contains_app_l p s : forall pre,
  Js.contains p s = true -> Js.contains p (pre +:+ s) = true.
Proof.
  induction pre as [| b pre IH]; intros H; [exact H |].
  change (Js.contains p (String b pre +:+ s))
    with (Js.startsWith p (String b (pre +:+ s))
          || Js.contains p (pre +:+ s)).
  rewrite IH by exact H. apply orb_true_r.
Qed.

Lemma test_wrapped r pre s post :
  Js.test r s = true -> Js.test r (pre +:+ s +:+ post) = true.
Proof.
  unfold Js.test. destruct (Js.ignoreCase r); intros H.
  - rewrite !lower_app. now apply contains_app_l, contains_app_r.
  - now apply contains_app_l, contains_app_r.
Qed.

(** X5. Quota detection is a substring search: text put before or after a
    message that is a quota error gives a quota error again. *)
Theorem quota_text_survives_wrapping :
  forall pre s post : string,
    isQuotaError s = true -> isQuotaError (pre +:+ s +:+ post) = true.
Proof.
  intros pre s post H. unfold isQuotaError in *.
  apply existsb_exists in H as (r & Hin & Hr).
  apply existsb_exists. exists r. split; [exact Hin |].
  now apply test_wrapped.
Qed.

Lemma quota_text_survives_wrapping_witness :
  isQuotaError ("All tools failed. Last error: " +:+ "HTTP 429" +:+ " (retry)")
  = true.
Proof.
  apply (quota_text_survives_wrapping
           "All tools failed. Last error: " "HTTP 429" " (retry)").
  vm_compute. reflexivity.
Defined.

(** *** One run of the child *)

(** X6. [ClaudeCodeAdapter.execute] settles every end of the child into a
    result named ['claude']: exit code 0 with no error, or exit code 1
    with an empty [output] and the message in [error].  On a failure the
    quota test on [output] therefore never fires, and the text the
    failover decision reads, [error || output], is the error message. *)
Theorem failed_child_reports_through_error :
  forall (a : ClaudeCodeAdapter.t) (prompt : string) (timeout : option Z)
         (w : World.t),
    let r := fst (ClaudeCodeAdapter.execute a prompt timeout w) in
    ExecuteResult.tool r = "claude"%string
    /\ ((ExecuteResult.exitCode r = 0 /\ ExecuteResult.error r = None)
        \/ (ExecuteResult.exitCode r = 1
            /\ ExecuteResult.output r = ""%string
            /\ isQuotaError (ExecuteResult.output r) = false
            /\ exists message,
                 ExecuteResult.error r = Some message
                 /\ lastErrorOf r = message)).
Proof.
  intros a prompt timeout w. unfold ClaudeCodeAdapter.execute.
  destruct (ClaudeCodeAdapter.execCommand _ _ _ _) as [[output | message] w'];
    simpl.
  - split; [reflexivity |]. left. auto.
  - split; [reflexivity |]. right. repeat split.
    exists message. split; [reflexivity |].
    unfold lastErrorOf, Js.orString. simpl. now case_bool_decide.
Qed.

End QuotaProps.

(** ** What [AICliAdapter.execute] invokes and what it leaves on file *)
Module InvocationProps.
Import Types AICliAdapter InvocationSpec.

Local Open Scope nat_scope.

Lemma claude_spawns prompt t w :
  World.spawned (snd (ClaudeCodeAdapter.execute claude prompt t w))
  = World.spawned w ++ [invocation prompt].
Proof.
  unfold ClaudeCodeAdapter.execute, ClaudeCodeAdapter.execCommand.
  destruct (negb _ && _); [reflexivity |].
  destruct (World.procEnd _) as [code out err | msg]; [case_bool_decide |];
    reflexivity.
Qed.

Lemma markSuccess_spawned toolName d w :
  World.spawned (markSuccess toolName d w) = World.spawned w.
Proof. apply AdapterProps.updateToolStatus_effects. Qed.

Lemma markFailed_spawned toolName reason w :
  World.spawned (markFailed toolName reason w) = World.spawned w.
Proof. apply AdapterProps.markFailed_effects. Qed.

Lemma tryTools_spawns prompt options pool :
  forall lastError w,
    exists k,
      k <= length pool
      /\ World.spawned (snd (tryTools prompt options pool lastError w))
         = World.spawned w ++ replicate k (invocation prompt).
Proof.
  induction pool as [| tool rest IH]; intros lastError w; simpl.
  - exists 0. split; [lia |]. now rewrite app_nil_r.
  - destruct (notPreferred options tool).
    { destruct (IH lastError w) as (k & Hk & E). exists k. split; [lia | exact E]. }
    destruct (adapters !! ToolStatus.name tool) as [adapter |] eqn:Ha.
    2: { destruct (IH lastError w) as (k & Hk & E). exists k.
         split; [lia | exact E]. }
    apply AdapterProps.adapters_claude in Ha as [_ ->].
    pose proof (claude_spawns prompt (timeout options) w) as Hs.
    destruct (ClaudeCodeAdapter.execute claude prompt (timeout options) w)
      as [result w1]. simpl in Hs.
    destruct (ExecuteResult.exitCode result =? 0)%Z.
    { exists 1. split; [lia |]. simpl. now rewrite markSuccess_spawned. }
    destruct (isQuotaError _ || isQuotaError _).
    + destruct (IH (Some (lastErrorOf result))
                  (markFailed (ToolStatus.name tool) "quota" w1))
        as (k & Hk & E).
      exists (S k). split; [lia |].
      rewrite E, markFailed_spawned, Hs, <- app_assoc. reflexivity.
    + exists 1. split; [lia |]. simpl. now rewrite markFailed_spawned.
Qed.

Lemma pool_length w config :
  Storage.loadToolsConfig w = Some config ->
  length (fst (getOrderedToolPool w)) = length (enabledTools w).
Proof.
  intros Hc. unfold getOrderedToolPool, enabledTools. rewrite Hc. simpl.
  now rewrite AdapterProps.sort_Permutation, length_fmap.
Qed.

(** X7. The command and arguments configured for a tool are never used:
    whatever the configuration, every child [execute] spawns is
    [claude -p <prompt> --permission-mode bypassPermissions
    --no-session-persistence], and it spawns at most as many children as
    there are enabled tools. *)
Theorem only_the_claude_command_is_spawned :
  forall (prompt : string) (options : Options) (w : World.t),
    exists k,
      k <= length (enabledTools w)
      /\ World.spawned (snd (execute prompt options w))
         = World.spawned w ++ replicate k (invocation prompt).
Proof.
  intros prompt options w. unfold execute.
  destruct (Storage.loadToolsConfig w) as [config |] eqn:Hc.
  2: { exists 0. split; [lia |]. simpl. now rewrite app_nil_r. }
  set (w0 := World.setFailureCooldownMs _ w).
  pose proof (pool_length w0 config Hc) as Hl.
  change (enabledTools w0) with (enabledTools w) in Hl.
  assert (Hw : snd (getOrderedToolPool w0) = w0).
  { unfold getOrderedToolPool.
    change (Storage.loadToolsConfig w0) with (Storage.loadToolsConfig w).
    now rewrite Hc. }
  destruct (getOrderedToolPool w0) as [pool w1]. simpl in Hl, Hw. subst w1.
  case_bool_decide.
  - exists 0. split; [lia |]. simpl. now rewrite app_nil_r.
  - destruct (tryTools_spawns prompt options pool None w0) as (k & Hk & E).
    exists k. split; [lia | exact E].
Qed.

Lemma configured_pool w :
  fst (getOrderedToolPool (configured w)) <> [] ->
  exists config,
    Storage.loadToolsConfig w = Some config
    /\ configured w
       = World.setFailureCooldownMs (ToolsConfig.failureCooldownMs config) w.
Proof.
  unfold configured, getOrderedToolPool.
  destruct (Storage.loadToolsConfig w) as [config |] eqn:Hc.
  - eauto.
  - rewrite Hc. simpl. contradiction.
Qed.

(** X8. The success path: when the first candidate of the pool is invoked
    and its child exits with code 0, [execute] returns that result after
    one child, and the record of the tool on file is available, with a
    failure count of 0, the duration as response time and the time of
    the success; the time of its last failure stays as it was. *)
Theorem first_success_is_returned :
  forall prompt options (w : World.t) tool rest adapter result w1,
    fst (getOrderedToolPool (configured w)) = tool :: rest ->
    adapters !! ToolStatus.name tool = Some adapter ->
    (preferredTool options = None
     \/ preferredTool options = Some (ToolStatus.name tool)) ->
    ClaudeCodeAdapter.execute adapter prompt (timeout options) (configured w)
    = (result, w1) ->
    ExecuteResult.exitCode result = 0%Z ->
    execute prompt options w
    = (Returned result,
       markSuccess (ToolStatus.name tool) (ExecuteResult.duration result) w1)
    /\ length (World.spawned (snd (execute prompt options w)))
       = S (length (World.spawned w))
    /\ exists r,
         Storage.find (ToolStatus.name tool)
           (Storage.loadToolStatus (snd (execute prompt options w))) = Some r
         /\ ToolStatus.available r = true
         /\ ToolStatus.failureCount r = 0%Z
         /\ ToolStatus.responseTimeMs r = Some (ExecuteResult.duration result)
         /\ ToolStatus.lastSuccess r = Some (World.clock w1)
         /\ ToolStatus.lastFailed r
            = Storage.find (ToolStatus.name tool) (Storage.loadToolStatus w)
                ≫= ToolStatus.lastFailed.
Proof.
  intros prompt options w tool rest adapter result w1 Hpool Ha Hp He Hx.
  destruct (configured_pool w) as (config & Hc & Hw);
    [rewrite Hpool; discriminate |].
  assert (Hexec : execute prompt options w
                  = (Returned result,
                     markSuccess (ToolStatus.name tool)
                       (ExecuteResult.duration result) w1)).
  { rewrite (AdapterProps.execute_unfold prompt options w config Hc)
      by (rewrite <- Hw, Hpool; discriminate).
    rewrite <- Hw, Hpool. simpl.
    rewrite (AdapterProps.notPreferred_same _ _ Hp), Ha, He, Hx. reflexivity. }
  split; [exact Hexec |]. rewrite Hexec. simpl.
  pose proof (AdapterProps.spawn_effects adapter prompt (timeout options)
                (configured w)) as Hs.
  rewrite He in Hs. simpl in Hs. destruct Hs as (Hst & _ & _ & Hsp).
  split.
  - rewrite markSuccess_spawned, Hsp, Hw. reflexivity.
  - unfold markSuccess.
    destruct (AdapterProps.updateToolStatus_effects (ToolStatus.name tool)
                {| Storage.available := Some true;
                   Storage.lastSuccess := Some (World.clock w1);
                   Storage.lastFailed := None;
                   Storage.responseTimeMs :=
                     Some (ExecuteResult.duration result);
                   Storage.failureCount := Some 0%Z |} w1) as [Hf _].
    eexists. split; [exact Hf |]. simpl. repeat split.
    unfold Storage.loadToolStatus. rewrite Hst, Hw. simpl.
    destruct (Storage.find (ToolStatus.name tool) (World.toolStatus w));
      reflexivity.
Qed.

Lemma first_success_is_returned_witness :
  let w := SampleWorlds.world [SampleWorlds.tool "claude" "run-claude" 1] []
             (fun _ _ _ => SampleWorlds.exits 0 "done" "") in
  let r := fst (ClaudeCodeAdapter.execute claude "hello" None w) in
  let w1 := snd (ClaudeCodeAdapter.execute claude "hello" None w) in
  execute "hello" noOptions w
  = (Returned r, markSuccess "claude" (ExecuteResult.duration r) w1)
  /\ length (World.spawned (snd (execute "hello" noOptions w))) = 1
  /\ exists r',
       Storage.find "claude"
         (Storage.loadToolStatus (snd (execute "hello" noOptions w)))
       = Some r'
       /\ ToolStatus.available r' = true
       /\ ToolStatus.failureCount r' = 0%Z
       /\ ToolStatus.responseTimeMs r' = Some 1200%Z
       /\ ToolStatus.lastSuccess r' = Some 1001200%Z
       /\ ToolStatus.lastFailed r' = None.
Proof.
  intros w r w1.
  apply (first_success_is_returned "hello" noOptions w
           (Storage.fresh "claude") [] claude r w1).
  - reflexivity.
  - reflexivity.
  - left. reflexivity.
  - reflexivity.
  - reflexivity.
Defined.

End InvocationProps.

(** ** Nothing to invoke, and availability after a failure or a success *)
Module AvailabilityProps.
Import Types AICliAdapter InvocationSpec.

Lemma tryTools_none_preferred prompt options pool :
  forall lastError w,
    Forall (fun tool => notPreferred options tool = true) pool ->
    tryTools prompt options pool lastError w = (allFailed lastError, w).
Proof.
  induction pool as [| tool rest IH]; intros lastError w H; simpl;
    [reflexivity |].
  inversion H as [| ? ? Ht Hrest]; subst. rewrite Ht. now apply IH.
Qed.

(** X9. [preferredTool] naming no enabled tool: every candidate is passed
    over, so [execute] throws the aggregate error with the last error it
    has, [undefined]; no child is spawned and the status file is left as
    it was. *)
Theorem preferred_tool_outside_the_pool :
  forall prompt options (w : World.t) (p : string),
    preferredTool options = Some p ->
    p <> ""%string ->
    enabledTools w <> [] ->
    (forall tc, tc ∈ enabledTools w -> ToolConfig.name tc <> p) ->
    execute prompt options w
    = (Thrown "All tools failed. Last error: undefined", configured w)
    /\ World.spawned (configured w) = World.spawned w
    /\ Storage.loadToolStatus (configured w) = Storage.loadToolStatus w.
Proof.
  intros prompt options w p Hp Hne Hen Hnames.
  unfold enabledTools, configured in *.
  destruct (Storage.loadToolsConfig w) as [config |] eqn:Hc;
    [| contradiction]. simpl in Hen, Hnames.
  split; [| split; reflexivity].
  set (w0 := World.setFailureCooldownMs _ w).
  assert (Hpool : fst (getOrderedToolPool w0)
                  = Js.sort (compareTools config)
                      (poolEntry (Storage.loadToolStatus w0) (World.clock w0)
                         (World.failureCooldownMs w0)
                       <$> List.filter ToolConfig.enabled
                             (ToolsConfig.tools config))).
  { unfold getOrderedToolPool.
    change (Storage.loadToolsConfig w0) with (Storage.loadToolsConfig w).
    now rewrite Hc. }
  rewrite (AdapterProps.execute_unfold prompt options w config Hc).
  2: { fold w0. rewrite Hpool. intros E.
       apply (f_equal length) in E.
       rewrite AdapterProps.sort_Permutation, length_fmap in E.
       destruct (List.filter _ _); [contradiction | discriminate E]. }
  fold w0. rewrite Hpool. apply tryTools_none_preferred.
  apply Forall_forall. intros tool Hin.
  rewrite AdapterProps.sort_Permutation in Hin.
  apply list_elem_of_fmap in Hin as (tc & -> & Htc).
  unfold notPreferred. rewrite Hp, AdapterProps.poolEntry_name.
  rewrite bool_decide_eq_false_2 by exact Hne.
  rewrite bool_decide_eq_false_2 by now apply Hnames.
  reflexivity.
Qed.

Lemma preferred_tool_outside_the_pool_witness :
  execute "hello"
    {| preferredTool := Some "gemini"%string; cwd := None; timeout := None |}
    SampleWorlds.oneBackend
  = (Thrown "All tools failed. Last error: undefined",
     configured SampleWorlds.oneBackend)
  /\ World.spawned (configured SampleWorlds.oneBackend)
     = World.spawned SampleWorlds.oneBackend
  /\ Storage.loadToolStatus (configured SampleWorlds.oneBackend)
     = Storage.loadToolStatus SampleWorlds.oneBackend.
Proof.
  apply (preferred_tool_outside_the_pool "hello" _ SampleWorlds.oneBackend
           "gemini").
  - reflexivity.
  - discriminate.
  - discriminate.
  - intros tc Hin. apply list_elem_of_singleton in Hin. subst tc.
    discriminate.
Defined.

(** X10. No enabled tool: [execute] throws before anything is invoked,
    ['Tools config not found'] when the configuration file is missing
    and ['No available AI tools...'] when it holds no enabled tool; the
    status file and the list of spawned children are left as they
    were. *)
Theorem nothing_to_invoke :
  forall prompt options (w : World.t),
    enabledTools w = [] ->
    execute prompt options w
    = (Thrown (match Storage.loadToolsConfig w with
               | None => "Tools config not found"
               | Some _ =>
                   "No available AI tools. Please check your configuration."
               end),
       configured w)
    /\ World.spawned (configured w) = World.spawned w
    /\ Storage.loadToolStatus (configured w) = Storage.loadToolStatus w.
Proof.
  intros prompt options w Hen. unfold execute, enabledTools, configured in *.
  destruct (Storage.loadToolsConfig w) as [config |] eqn:Hc;
    [| repeat split]. simpl in Hen.
  split; [| split; reflexivity].
  set (w0 := World.setFailureCooldownMs _ w).
  unfold getOrderedToolPool.
  change (Storage.loadToolsConfig w0) with (Storage.loadToolsConfig w).
  rewrite Hc, Hen. reflexivity.
Qed.

Lemma nothing_to_invoke_witness :
  execute "hello" noOptions
    (SampleWorlds.world [] [] SampleWorlds.alwaysBroken)
  = (Thrown "No available AI tools. Please check your configuration.",
     configured (SampleWorlds.world [] [] SampleWorlds.alwaysBroken))
  /\ World.spawned
       (configured (SampleWorlds.world [] [] SampleWorlds.alwaysBroken))
     = World.spawned (SampleWorlds.world [] [] SampleWorlds.alwaysBroken)
  /\ Storage.loadToolStatus
       (configured (SampleWorlds.world [] [] SampleWorlds.alwaysBroken))
     = Storage.loadToolStatus
         (SampleWorlds.world [] [] SampleWorlds.alwaysBroken).
Proof.
  apply (nothing_to_invoke "hello" noOptions
           (SampleWorlds.world [] [] SampleWorlds.alwaysBroken)).
  reflexivity.
Defined.

(** *** [isToolAvailable] *)

Lemma markFailed_record toolName reason w :
  exists r,
    Storage.find toolName (Storage.loadToolStatus (markFailed toolName reason w))
    = Some r
    /\ ToolStatus.available r = negb (bool_decide (reason = "quota"%string))
    /\ ToolStatus.lastFailed r = Some (World.clock w).
Proof.
  unfold markFailed.
  edestruct AdapterProps.updateToolStatus_effects as [Hf _].
  eexists. split; [exact Hf |]. split; reflexivity.
Qed.

(** X11. After [markFailed] (the clock not reading 0), for as long as the
    status file is not written again: a quota failure makes
    [isToolAvailable] answer false at any later time, cooldown or not;
    any failure makes it answer false while less than
    [failureCooldownMs] has gone by; and a failure that is no quota
    failure lets it answer true again from then on. *)
Theorem availability_after_a_failure :
  forall (toolName reason : string) (w w' : World.t),
    Storage.loadToolStatus w'
    = Storage.loadToolStatus (markFailed toolName reason w) ->
    World.clock w <> 0 ->
    (reason = "quota"%string -> isToolAvailable toolName w' = false)
    /\ (World.clock w' - World.clock w < World.failureCooldownMs w' ->
        isToolAvailable toolName w' = false)
    /\ (reason <> "quota"%string ->
        World.failureCooldownMs w' <= World.clock w' - World.clock w ->
        isToolAvailable toolName w' = true).
Proof.
  intros toolName reason w w' Hfile Hclock.
  destruct (markFailed_record toolName reason w) as (r & Hr & Ha & Hl).
  unfold isToolAvailable. rewrite Hfile, Hr, Ha, Hl. simpl.
  destruct (Z.eqb_spec (World.clock w) 0) as [| _]; [contradiction |]. simpl.
  split; [| split].
  - intros ->. reflexivity.
  - intros Hlt. rewrite (proj2 (Z.ltb_lt _ _) Hlt).
    now destruct (negb (negb _)).
  - intros Hq Hge. rewrite (bool_decide_eq_false_2 _ Hq). simpl.
    now rewrite (proj2 (Z.ltb_ge _ _) Hge).
Qed.

Lemma availability_after_a_failure_witness :
  let w := SampleWorlds.oneBackend in
  let w' := World.afterSpawn "claude" [] 400000 (markFailed "claude" "quota" w) in
  ("quota"%string = "quota"%string -> isToolAvailable "claude" w' = false)
  /\ (World.clock w' - World.clock w < World.failureCooldownMs w' ->
      isToolAvailable "claude" w' = false)
  /\ ("quota"%string <> "quota"%string ->
      World.failureCooldownMs w' <= World.clock w' - World.clock w ->
      isToolAvailable "claude" w' = true).
Proof.
  intros w w'.
  apply (availability_after_a_failure "claude" "quota" w w').
  - reflexivity.
  - discriminate.
Defined.

(** X12. A success does not lift the cooldown: [markSuccess] resets the
    failure count and the availability flag of the record but keeps the
    time of the last failure, so [isToolAvailable] still answers false
    right after it while that failure is less than [failureCooldownMs]
    old. *)
Theorem success_does_not_lift_the_cooldown :
  forall (toolName : string) (d : Z) (w : World.t) (st : ToolStatus.t) (t : Z),
    Storage.find toolName (Storage.loadToolStatus w) = Some st ->
    ToolStatus.lastFailed st = Some t ->
    t <> 0 ->
    World.clock w - t < World.failureCooldownMs w ->
    isToolAvailable toolName (markSuccess toolName d w) = false
    /\ exists r,
         Storage.find toolName (Storage.loadToolStatus (markSuccess toolName d w))
         = Some r
         /\ ToolStatus.available r = true
         /\ ToolStatus.failureCount r = 0
         /\ ToolStatus.lastFailed r = Some t.
Proof.
  intros toolName d w st t Hst Ht Ht0 Hlt.
  unfold markSuccess.
  edestruct AdapterProps.updateToolStatus_effects as [Hf _].
  split.
  - unfold isToolAvailable. rewrite Hf, Hst. simpl. rewrite Ht. simpl.
    destruct (Z.eqb_spec t 0) as [| _]; [contradiction |]. simpl.
    unfold Storage.updateToolStatus.
    destruct (Storage.findIndex _ _); [destruct (_ !! _) |]; simpl;
      now rewrite (proj2 (Z.ltb_lt _ _) Hlt).
  - eexists. split; [exact Hf |]. rewrite Hst. simpl. rewrite Ht. auto.
Qed.

Lemma success_does_not_lift_the_cooldown_witness :
  isToolAvailable "claude" (markSuccess "claude" 1200 (SampleWorlds.cooling 1000))
  = false
  /\ exists r,
       Storage.find "claude"
         (Storage.loadToolStatus
            (markSuccess "claude" 1200 (SampleWorlds.cooling 1000)))
       = Some r
       /\ ToolStatus.available r = true
       /\ ToolStatus.failureCount r = 0
       /\ ToolStatus.lastFailed r = Some 999000.
Proof.
  apply (success_does_not_lift_the_cooldown "claude" 1200
           (SampleWorlds.cooling 1000) (SampleWorlds.failedAgo 1000) 999000).
  - reflexivity.
  - reflexivity.
  - discriminate.
  - vm_compute. reflexivity.
Defined.

End AvailabilityProps.

(** ** The status file under [updateToolStatus] *)
Module ToolStatusProps.
Import Types.

Lemma find_app_other other (x : ToolStatus.t) l :
  ToolStatus.name x <> other ->
  Storage.find other (l ++ [x]) = Storage.find other l.
Proof.
  intros Hx. unfold Storage.find.
  induction l as [| s l IH]; simpl.
  - now rewrite bool_decide_eq_false_2.
  - destruct (bool_decide (ToolStatus.name s = other)); [reflexivity | exact IH].
Qed.

Lemma find_insert_other other toolName (x : ToolStatus.t) l :
  forall index,
    Storage.findIndex toolName l = Some index ->
    ToolStatus.name x = toolName -> other <> toolName ->
    Storage.find other (<[index := x]> l) = Storage.find other l.
Proof.
  unfold Storage.find.
  induction l as [| s l IH]; intros index Hi Hx Ho; [discriminate Hi |].
  simpl in Hi. case_bool_decide as Hs.
  - injection Hi as <-. simpl.
    rewrite !bool_decide_eq_false_2 by congruence. reflexivity.
  - destruct (Storage.findIndex toolName l) as [i |]; [| discriminate Hi].
    injection Hi as <-. simpl.
    destruct (bool_decide (ToolStatus.name s = other)); [reflexivity |].
    now apply IH.
Qed.

Lemma findIndex_lookup toolName l index :
  Storage.findIndex toolName l = Some index ->
  exists st, l !! index = Some st /\ ToolStatus.name st = toolName.
Proof.
  revert index. induction l as [| s l IH]; intros index Hi; [discriminate Hi |].
  simpl in Hi. case_bool_decide as Hs.
  - injection Hi as <-. eauto.
  - destruct (Storage.findIndex toolName l) as [i |]; [| discriminate Hi].
    injection Hi as <-. destruct (IH i eq_refl) as (st & H1 & H2). eauto.
Qed.

Lemma findIndex_None toolName l :
  Storage.findIndex toolName l = None ->
  toolName ∉ ToolStatus.name <$> l.
Proof.
  induction l as [| s l IH]; intros Hi; simpl; [apply not_elem_of_nil |].
  simpl in Hi. case_bool_decide as Hs; [discriminate Hi |].
  destruct (Storage.findIndex toolName l); [discriminate Hi |].
  apply not_elem_of_cons. split; [congruence | now apply IH].
Qed.

(** X13. [updateToolStatus] writes one record and nothing else: the record
    of any other name reads as before; the names on file stay as they
    were, in order, with the name appended when it was not there; so
    names that were distinct stay distinct; and the configuration, the
    clock and the children are not touched. *)
Theorem updateToolStatus_writes_one_record :
  forall (toolName : string) (u : Storage.Updates) (w : World.t),
    let w' := Storage.updateToolStatus toolName u w in
    (forall other, other <> toolName ->
       Storage.find other (Storage.loadToolStatus w')
       = Storage.find other (Storage.loadToolStatus w))
    /\ ToolStatus.name <$> Storage.loadToolStatus w'
       = (ToolStatus.name <$> Storage.loadToolStatus w)
         ++ match Storage.find toolName (Storage.loadToolStatus w) with
            | Some _ => []
            | None => [toolName]
            end
    /\ (NoDup (ToolStatus.name <$> Storage.loadToolStatus w) ->
        NoDup (ToolStatus.name <$> Storage.loadToolStatus w'))
    /\ Storage.loadToolsConfig w' = Storage.loadToolsConfig w
    /\ World.clock w' = World.clock w
    /\ World.spawned w' = World.spawned w.
Proof.
  intros toolName u w w'. subst w'. unfold Storage.updateToolStatus.
  pose proof (AdapterProps.find_updated toolName u (Storage.loadToolStatus w))
    as Hfu.
  destruct (Storage.findIndex toolName (Storage.loadToolStatus w))
    as [index |] eqn:Hi.
  - destruct Hfu as (st & Hl & Hf & _). rewrite Hl, Hf.
    destruct (findIndex_lookup _ _ _ Hi) as (st' & Hl' & Hn).
    assert (st' = st) by congruence. subst st'.
    assert (Hnames : ToolStatus.name
                       <$> <[index := Storage.spread st u]>
                             (Storage.loadToolStatus w)
                     = ToolStatus.name <$> Storage.loadToolStatus w).
    { rewrite list_fmap_insert. apply list_insert_id.
      now rewrite list_lookup_fmap, Hl. }
    simpl. split; [| split; [| split]].
    + intros other Ho. now apply (find_insert_other other toolName).
    + now rewrite Hnames, app_nil_r.
    + now rewrite Hnames.
    + auto.
  - destruct Hfu as [Hf _]. rewrite Hf. simpl. split; [| split; [| split]].
    + intros other Ho. apply find_app_other. simpl. congruence.
    + now rewrite fmap_app.
    + intros Hnd. rewrite fmap_app. apply NoDup_app. split; [exact Hnd |].
      split; [| apply NoDup_singleton].
      intros x Hx Hx'. apply list_elem_of_singleton in Hx'. subst x.
      now apply (findIndex_None _ _ Hi).
    + auto.
Qed.

End ToolStatusProps.

(** ** A child that outlives the timeout *)
Module TimeoutProps.
Import Types AICliAdapter TimeoutSpec.

(** X14. A child still running when the timeout fires, under any of the
    timeouts the callers use: the adapter reports exit code 1 with the
    message [Command timeout after <timeout>ms] as error, and that
    message is no quota error, so a timeout is a hard error for
    [AICliAdapter.execute] and does not lead to failover. *)
Theorem timeout_is_a_hard_error :
  forall (a : ClaudeCodeAdapter.t) (prompt : string) (timeout : option Z)
         (w : World.t),
    timeout ∈ callerTimeouts ->
    default 300000 timeout <= World.elapsedMs (childRun a prompt w) ->
    let r := fst (ClaudeCodeAdapter.execute a prompt timeout w) in
    ExecuteResult.exitCode r = 1
    /\ ExecuteResult.output r = ""%string
    /\ ExecuteResult.error r = Some (timeoutMessage timeout)
    /\ lastErrorOf r = timeoutMessage timeout
    /\ isQuotaError (ExecuteResult.output r) || isQuotaError (lastErrorOf r)
       = false.
Proof.
  intros a prompt timeout w Hin Hlate.
  unfold childRun in Hlate.
  unfold ClaudeCodeAdapter.execute, ClaudeCodeAdapter.execCommand.
  rewrite (proj2 (Z.leb_le _ _) Hlate).
  unfold callerTimeouts in Hin.
  repeat (apply elem_of_cons in Hin as [-> | Hin]);
    [| | | apply elem_of_nil in Hin; contradiction];
    simpl; repeat split; vm_compute; reflexivity.
Qed.

Lemma timeout_is_a_hard_error_witness :
  let w := SampleWorlds.world [SampleWorlds.tool "claude" "claude" 1] []
             (fun _ _ _ => {| World.procEnd := World.Closed (Some 0) "late" "";
                              World.elapsedMs := 500000 |}) in
  let r := fst (ClaudeCodeAdapter.execute claude "hello" None w) in
  ExecuteResult.exitCode r = 1
  /\ ExecuteResult.output r = ""%string
  /\ ExecuteResult.error r = Some (timeoutMessage None)
  /\ lastErrorOf r = timeoutMessage None
  /\ isQuotaError (ExecuteResult.output r) || isQuotaError (lastErrorOf r)
     = false.
Proof.
  intros w.
  apply (timeout_is_a_hard_error claude "hello" None w).
  - apply list_elem_of_here.
  - vm_compute. discriminate.
Defined.

End TimeoutProps.

(** ** The order [sortTasksByDependency] gives *)
Module SortOrderProps.
Import Types TaskSort TaskSortSpec SortOrderSpec.

Local Open Scope nat_scope.

(** *** [processed] and [sorted] go together *)

Lemma allDepsProcessed_spec task done :
  allDepsProcessed task done = true
  <-> forall dep, dep ∈ ExecutableTask.dependsOn task -> dep ∈ done.
Proof.
  unfold allDepsProcessed. rewrite forallb_forall. split.
  - intros H dep Hin. apply list_elem_of_In in Hin.
    apply (bool_decide_eq_true_1 _ (H dep Hin)).
  - intros H dep Hin. apply bool_decide_eq_true_2, H.
    now apply list_elem_of_In.
Qed.

Lemma allDepsProcessed_false task done :
  allDepsProcessed task done = false ->
  exists dep, dep ∈ ExecutableTask.dependsOn task /\ dep ∉ done.
Proof.
  unfold allDepsProcessed.
  induction (ExecutableTask.dependsOn task) as [| d l IH]; simpl;
    [discriminate |].
  intros H. apply andb_false_iff in H as [H | H].
  - exists d. split; [apply list_elem_of_here |].
    now apply bool_decide_eq_false in H.
  - destruct (IH H) as (dep & Hin & Hn). exists dep.
    split; [now apply list_elem_of_further | exact Hn].
Qed.

Lemma orderInv_visit i v : orderInv v -> orderInv (visit i v).
Proof.
  intros [Hp Hs]. unfold visit.
  destruct (remaining v !! i) as [task |] eqn:Ht; [| now split].
  destruct (allDepsProcessed task (processed v)) eqn:Hd; [| now split].
  split; simpl.
  - intros dep. rewrite elem_of_union, elem_of_singleton, fmap_app, elem_of_app.
    simpl. rewrite list_elem_of_singleton. now rewrite Hp.
  - intros k t dep Hk Hdep.
    destruct (decide (k < length (sorted v))) as [Hlt | Hge].
    + rewrite lookup_app_l in Hk by exact Hlt.
      destruct (Hs k t dep Hk Hdep) as (j & u & Hj & Hu & Hid).
      exists j, u. split; [exact Hj |]. split; [| exact Hid].
      rewrite lookup_app_l by lia. exact Hu.
    + pose proof (lookup_lt_Some _ _ _ Hk) as Hk'.
      rewrite length_app in Hk'. simpl in Hk'.
      assert (k = length (sorted v)) by lia. subst k.
      rewrite lookup_app_r, Nat.sub_diag in Hk by lia.
      injection Hk as <-.
      apply allDepsProcessed_spec with (dep := dep) in Hd; [| exact Hdep].
      apply Hp, list_elem_of_fmap in Hd as (u & -> & Hu).
      apply list_elem_of_lookup in Hu as [j Hj].
      exists j, u. split; [now apply lookup_lt_Some in Hj |].
      split; [| reflexivity].
      rewrite lookup_app_l by now apply lookup_lt_Some in Hj. exact Hj.
Qed.

Lemma orderInv_scanDown n : forall v, orderInv v -> orderInv (scanDown n v).
Proof.
  induction n as [| n IH]; intros v H; simpl; [exact H |].
  apply IH, orderInv_visit, H.
Qed.

Lemma orderInv_turn m v : orderInv v -> orderInv (turn m v).
Proof.
  intros H. unfold turn. destruct (guard m v); [| exact H].
  unfold pass. apply orderInv_scanDown. destruct H as [Hp Hs]. now split.
Qed.

Lemma orderInv_while m fuel v : orderInv v -> orderInv (while fuel m v).
Proof.
  intros H. induction fuel as [| fuel IH]; [exact H |].
  rewrite TaskSortProps.while_S_r. now apply orderInv_turn.
Qed.

Lemma orderInv_atExit tasks : orderInv (atExit tasks).
Proof.
  apply orderInv_while. split; simpl.
  - intros dep. rewrite elem_of_empty. split; [tauto |].
    intros H. now apply elem_of_nil in H.
  - intros k t dep Hk. discriminate Hk.
Qed.

(** X15. The tasks the loop placed are in dependency order: in the output,
    which begins with them, each of them stands after a task for every
    one of its dependencies, whatever the input (cycles, dangling or
    repeated ids included). *)
Theorem placed_tasks_follow_their_dependencies :
  forall tasks : list ExecutableTask.t,
    sorted (atExit tasks) `prefix_of` sortTasksByDependency tasks
    /\ dependenciesFirst (sorted (atExit tasks)).
Proof.
  intros tasks. split.
  - rewrite TaskSortProps.sort_unfold. now apply prefix_app_r.
  - apply orderInv_atExit.
Qed.

(** *** A turn that can place a task does *)

Lemma visit_length i v :
  length (remaining (visit i v)) <= length (remaining v).
Proof.
  destruct (TaskSortProps.visit_cases i v) as [-> | (task & Ht & _ & -> & _)];
    [lia |].
  rewrite length_delete by eauto. lia.
Qed.

Lemma visit_processed i v : processed v ⊆ processed (visit i v).
Proof.
  unfold visit. destruct (remaining v !! i); [| reflexivity].
  destruct (allDepsProcessed _ _); [| reflexivity].
  simpl. apply union_subseteq_l.
Qed.

Lemma scanDown_length n : forall v,
  length (remaining (scanDown n v)) <= length (remaining v).
Proof.
  induction n as [| n IH]; intros v; simpl; [lia |].
  etrans; [apply IH | apply visit_length].
Qed.

Lemma allDepsProcessed_mono task (d1 d2 : gset string) :
  d1 ⊆ d2 -> allDepsProcessed task d1 = true -> allDepsProcessed task d2 = true.
Proof.
  rewrite !allDepsProcessed_spec. intros Hsub H dep Hin.
  apply Hsub. now apply H.
Qed.

Lemma scanDown_progress n : forall v j task,
  j < n -> remaining v !! j = Some task ->
  allDepsProcessed task (processed v) = true ->
  length (remaining (scanDown n v)) < length (remaining v).
Proof.
  induction n as [| n IH]; intros v j task Hj Ht Hd; [lia |]. simpl.
  destruct (decide (j = n)) as [-> | Hne].
  - assert (E : remaining (visit n v) = delete n (remaining v)).
    { unfold visit. now rewrite Ht, Hd. }
    pose proof (scanDown_length n (visit n v)) as Hl.
    rewrite E, length_delete in Hl by eauto.
    apply lookup_lt_Some in Ht. lia.
  - assert (Ht' : remaining (visit n v) !! j = Some task).
    { destruct (TaskSortProps.visit_cases n v)
        as [-> | (x & _ & _ & -> & _)]; [exact Ht |].
      rewrite list_lookup_delete_lt by lia. exact Ht. }
    pose proof (IH (visit n v) j task ltac:(lia) Ht'
                  (allDepsProcessed_mono _ _ _ (visit_processed n v) Hd)).
    pose proof (visit_length n v). lia.
Qed.

Lemma placeable_true v :
  placeable v = true ->
  exists j task,
    remaining v !! j = Some task
    /\ allDepsProcessed task (processed v) = true.
Proof.
  unfold placeable. intros H. apply existsb_exists in H as (task & Hin & Hd).
  apply list_elem_of_In, list_elem_of_lookup in Hin as [j Hj]. eauto.
Qed.

Lemma placeable_false v task :
  placeable v = false -> task ∈ remaining v ->
  allDepsProcessed task (processed v) = false.
Proof.
  unfold placeable. intros H Hin.
  destruct (allDepsProcessed task (processed v)) eqn:E; [| reflexivity].
  rewrite <- H. symmetry. apply existsb_exists. exists task.
  split; [now apply list_elem_of_In | exact E].
Qed.

Lemma pass_progress v :
  placeable v = true -> length (remaining (pass v)) < length (remaining v).
Proof.
  intros H. apply placeable_true in H as (j & task & Hj & Hd).
  unfold pass.
  apply (scanDown_progress (length (remaining v))
           {| sorted := sorted v; remaining := remaining v;
              processed := processed v; iterations := S (iterations v) |}
           j task); simpl; auto.
  now apply lookup_lt_Some in Hj.
Qed.

(** *** A turn that cannot place a task changes nothing *)

Lemma scanDown_stuck n : forall v, placeable v = false -> scanDown n v = v.
Proof.
  induction n as [| n IH]; intros v H; simpl; [reflexivity |].
  assert (E : visit n v = v).
  { unfold visit. destruct (remaining v !! n) as [task |] eqn:Ht;
      [| reflexivity].
    rewrite (placeable_false v task H); [reflexivity |].
    apply list_elem_of_lookup. eauto. }
  rewrite E. now apply IH.
Qed.

Lemma pass_stuck v : placeable v = false -> placeable (pass v) = false.
Proof.
  intros H. unfold pass. rewrite scanDown_stuck; exact H.
Qed.

(** *** When the loop is left, nothing is placeable *)

Lemma afterPasses_progress tasks k :
  placeable (afterPasses k tasks) = false
  \/ (length (remaining (afterPasses k tasks)) + k <= length tasks
      /\ iterations (afterPasses k tasks) = k).
Proof.
  unfold afterPasses. induction k as [| k IH].
  - right. simpl. lia.
  - rewrite TaskSortProps.while_S_r. unfold turn.
    set (v := while k (maxIterations tasks) (init tasks)) in *.
    destruct (guard (maxIterations tasks) v) eqn:G.
    + destruct (placeable v) eqn:P.
      * destruct IH as [IH | [Hl Hi]]; [discriminate IH |].
        right. pose proof (pass_progress v P).
        destruct (TaskSortProps.pass_scanned v) as (_ & _ & _ & _ & _ & Pi).
        lia.
      * left. now apply pass_stuck.
    + destruct (placeable v) eqn:P; [| now left].
      destruct IH as [IH | [Hl Hi]]; [discriminate IH |].
      apply placeable_true in P as (j & task & Hj & _).
      apply lookup_lt_Some in Hj.
      apply andb_false_iff in G as [G | G]; apply bool_decide_eq_false in G;
        unfold maxIterations in *; lia.
Qed.

Lemma atExit_stuck tasks : placeable (atExit tasks) = false.
Proof.
  unfold atExit.
  destruct (afterPasses_progress tasks (maxIterations tasks)) as [H | [Hl _]];
    [exact H |].
  destruct (placeable _) eqn:P; [| reflexivity].
  apply placeable_true in P as (j & task & Hj & _).
  apply lookup_lt_Some in Hj. unfold maxIterations in *. lia.
Qed.

Lemma leftover_blocked tasks task :
  task ∈ remaining (atExit tasks) -> blockedBy (sorted (atExit tasks)) task.
Proof.
  intros Hin.
  pose proof (placeable_false _ task (atExit_stuck tasks) Hin) as Hd.
  destruct (orderInv_atExit tasks) as [Hp _].
  apply allDepsProcessed_false in Hd as (dep & Hdep & Hn).
  exists dep. split; [exact Hdep |].
  intros Hplaced. apply Hn, Hp, Hplaced.
Qed.

(** *** The two theorems on what is left over *)

(** X16. The loop places all it can: each task it leaves in the tail of the
    output has a dependency that is the id of no placed task (an id
    that is missing from the list, or that of a task which is itself
    left over, as on a cycle). *)
Theorem leftover_tasks_are_blocked :
  forall (tasks : list ExecutableTask.t) (task : ExecutableTask.t),
    task ∈ remaining (atExit tasks) ->
    sortTasksByDependency tasks
    = sorted (atExit tasks) ++ remaining (atExit tasks)
    /\ blockedBy (sorted (atExit tasks)) task.
Proof.
  intros tasks task Hin. split.
  - apply TaskSortProps.sort_unfold.
  - now apply leftover_blocked.
Qed.

Lemma leftover_tasks_are_blocked_witness :
  sortTasksByDependency
    [Samples.mkTask "A" "backend" ["B"] Pending;
     Samples.mkTask "B" "backend" ["A"] Pending; Samples.taskX]
  = sorted (atExit [Samples.mkTask "A" "backend" ["B"] Pending;
                    Samples.mkTask "B" "backend" ["A"] Pending;
                    Samples.taskX])
    ++ remaining (atExit [Samples.mkTask "A" "backend" ["B"] Pending;
                          Samples.mkTask "B" "backend" ["A"] Pending;
                          Samples.taskX])
  /\ blockedBy
       (sorted (atExit [Samples.mkTask "A" "backend" ["B"] Pending;
                        Samples.mkTask "B" "backend" ["A"] Pending;
                        Samples.taskX]))
       (Samples.mkTask "A" "backend" ["B"] Pending).
Proof.
  apply (leftover_tasks_are_blocked
           [Samples.mkTask "A" "backend" ["B"] Pending;
            Samples.mkTask "B" "backend" ["A"] Pending; Samples.taskX]
           (Samples.mkTask "A" "backend" ["B"] Pending)).
  vm_compute. apply list_elem_of_here.
Defined.

Lemma orderable_sorted (tasks l : list ExecutableTask.t) :
  tasks ≡ₚ l ->
  dependenciesFirst l ->
  remaining (atExit tasks) = []
  /\ sortTasksByDependency tasks = sorted (atExit tasks)
  /\ dependenciesFirst (sortTasksByDependency tasks).
Proof.
  intros Hperm Hl.
  destruct (TaskSortProps.inv_while tasks (maxIterations tasks)
              (maxIterations tasks) _ (TaskSortProps.inv_init tasks _))
    as [Hp Hr _].
  fold (afterPasses (maxIterations tasks) tasks) in Hp, Hr.
  fold (atExit tasks) in Hp, Hr.
  assert (Hout : forall k task,
             l !! k = Some task -> task ∉ remaining (atExit tasks)).
  { intros k. induction k as [k IH] using lt_wf_ind. intros task Hk Hin.
    destruct (leftover_blocked tasks task Hin) as (dep & Hdep & Hn).
    destruct (Hl k task dep Hk Hdep) as (j & u & Hj & Hu & Hid).
    apply Hn. rewrite <- Hid. apply list_elem_of_fmap_2.
    assert (Hu' : u ∈ sorted (atExit tasks) ++ remaining (atExit tasks)).
    { rewrite Hp, Hperm. apply list_elem_of_lookup. eauto. }
    apply elem_of_app in Hu' as [Hu' | Hu']; [exact Hu' |].
    exfalso. exact (IH j Hj u Hu Hu'). }
  assert (Hnil : remaining (atExit tasks) = []).
  { destruct (remaining (atExit tasks)) as [| x r] eqn:E; [reflexivity |].
    exfalso.
    assert (Hx : x ∈ l).
    { rewrite <- Hperm, <- Hp. apply elem_of_app. right.
      apply list_elem_of_here. }
    apply list_elem_of_lookup in Hx as [k Hk].
    apply (Hout k x Hk). apply list_elem_of_here. }
  assert (Hsort : sortTasksByDependency tasks = sorted (atExit tasks)).
  { now rewrite TaskSortProps.sort_unfold, Hnil, app_nil_r. }
  split; [exact Hnil |]. split; [exact Hsort |].
  rewrite Hsort. apply orderInv_atExit.
Qed.

(** X17. Tasks that can be put in dependency order at all are: when some
    arrangement of the input has every task after a task for each of
    its dependencies, the loop leaves nothing over and the output is
    such an arrangement. *)
Theorem orderable_tasks_are_sorted_by_dependency :
  forall tasks l : list ExecutableTask.t,
    tasks ≡ₚ l ->
    dependenciesFirst l ->
    remaining (atExit tasks) = []
    /\ sortTasksByDependency tasks = sorted (atExit tasks)
    /\ dependenciesFirst (sortTasksByDependency tasks).
Proof. intros tasks l. apply orderable_sorted. Qed.

Lemma prerequisite_first :
  dependenciesFirst [Samples.taskA; Samples.taskB; Samples.taskC].
Proof.
  intros k task dep Hk Hdep.
  destruct k as [| [| [| k]]]; simpl in Hk; try discriminate Hk;
    injection Hk as <-; simpl in Hdep.
  - now apply elem_of_nil in Hdep.
  - apply list_elem_of_singleton in Hdep. subst dep.
    exists 0, Samples.taskA. split; [lia |]. split; reflexivity.
  - apply list_elem_of_singleton in Hdep. subst dep.
    exists 0, Samples.taskA. split; [lia |]. split; reflexivity.
Qed.

Lemma orderable_tasks_are_sorted_by_dependency_witness :
  remaining (atExit [Samples.taskB; Samples.taskC; Samples.taskA]) = []
  /\ sortTasksByDependency [Samples.taskB; Samples.taskC; Samples.taskA]
     = sorted (atExit [Samples.taskB; Samples.taskC; Samples.taskA])
  /\ dependenciesFirst
       (sortTasksByDependency [Samples.taskB; Samples.taskC; Samples.taskA]).
Proof.
  apply (orderable_tasks_are_sorted_by_dependency
           [Samples.taskB; Samples.taskC; Samples.taskA]
           [Samples.taskA; Samples.taskB; Samples.taskC]).
  - apply (Permutation_app_comm [Samples.taskB; Samples.taskC] [Samples.taskA]).
  - apply prerequisite_first.
Defined.

End SortOrderProps.

(** ** What a bucket run executes *)
Module GroupRunProps.
Import Types TaskExecutor TaskExecutorSpec GroupRunSpec.

Local Open Scope nat_scope.

(** *** Whatever one turn keeps, a whole batch keeps *)

Lemma stepsGroup_keeps_inv (J : GroupRun -> Prop) :
  (forall g w, J g -> J (fst (stepGroup g w))) ->
  forall n g w, J g -> J (fst (stepsGroup n g w)).
Proof.
  intros Hstep n. induction n as [| n IH]; intros g w Hg; [exact Hg |].
  rewrite TaskExecutorProps.stepsGroup_S. apply IH, Hstep, Hg.
Qed.

Lemma interleave_keeps_inv (Jb Jf : GroupRun -> Prop) :
  (forall g w, Jb g -> Jb (fst (stepGroup g w))) ->
  (forall g w, Jf g -> Jf (fst (stepGroup g w))) ->
  forall schedule b f w, Jb b -> Jf f ->
    Jb (fst (fst (interleave schedule b f w)))
    /\ Jf (snd (fst (interleave schedule b f w))).
Proof.
  intros Hb Hf schedule.
  induction schedule as [| side s IH]; intros b f w Jb0 Jf0; simpl; [auto |].
  destruct side.
  - specialize (Hb b w Jb0). destruct (stepGroup b w) as [b' w']. now apply IH.
  - specialize (Hf f w Jf0). destruct (stepGroup f w) as [f' w']. now apply IH.
Qed.

Lemma execute_keeps_inv (Jb Jf : GroupRun -> Prop) schedule batch w :
  (forall g w, Jb g -> Jb (fst (stepGroup g w))) ->
  (forall g w, Jf g -> Jf (fst (stepGroup g w))) ->
  Jb (promise (TaskGroups.backend (groupTasksByProject batch))) ->
  Jf (promise (TaskGroups.frontend (groupTasksByProject batch))) ->
  Jb (backendRun (fst (execute schedule batch w)))
  /\ Jf (frontendRun (fst (execute schedule batch w))).
Proof.
  intros Hb Hf Jb0 Jf0. unfold execute.
  destruct (interleave_keeps_inv Jb Jf Hb Hf schedule _ _ w Jb0 Jf0)
    as [Jb1 Jf1].
  destruct (interleave schedule _ _ w) as [[b f] w1]. simpl in Jb1, Jf1.
  pose proof (stepsGroup_keeps_inv Jb Hb (S (length (tasks b) - next b)) b w1
                Jb1) as Jb2.
  fold (runToEnd b w1) in Jb2. destruct (runToEnd b w1) as [b' w2].
  pose proof (stepsGroup_keeps_inv Jf Hf (S (length (tasks f) - next f)) f w2
                Jf1) as Jf2.
  fold (runToEnd f w2) in Jf2. destruct (runToEnd f w2) as [f' w3].
  simpl. auto.
Qed.

Lemma promise_is_sorted group :
  tasks (promise group) = sortTasksByDependency group
  /\ returned (promise group) = (if bool_decide (0 < length group)
                                 then None else Some true)
  /\ executed (promise group) = [] /\ next (promise group) = 0.
Proof.
  unfold promise. case_bool_decide as H; simpl; [auto |].
  destruct group; [auto | simpl in H; lia].
Qed.

(** One turn, spelled out. *)
Lemma stepGroup_unfold g w :
  returned g = None ->
  (exists task,
     tasks g !! next g = Some task
     /\ ((stepGroup g w = (skip g, w)
          /\ (ExecutableTask.status task <> Pending
              \/ checkDependencies task (tasks g) = false))
         \/ (ExecutableTask.status task = Pending
             /\ checkDependencies task (tasks g) = true
             /\ exists task',
                  ExecutableTask.id task' = ExecutableTask.id task
                  /\ ExecutableTask.status task' <> Pending
                  /\ (fst (stepGroup g w) = skip (ran task' g)
                      \/ fst (stepGroup g w) = finish false (ran task' g)))))
  \/ (tasks g !! next g = None /\ stepGroup g w = (finish true g, w)).
Proof.
  intros Hr. unfold stepGroup. rewrite Hr.
  destruct (tasks g !! next g) as [task |] eqn:Ht; [left | right; auto].
  exists task. split; [reflexivity |].
  unfold StateMachine.canStart, StateMachine.getStatus. simpl.
  case_bool_decide as Hs; simpl; [| left; auto].
  destruct (checkDependencies task (tasks g)) eqn:Hd; simpl; [| left; auto].
  right. split; [exact Hs |]. split; [reflexivity |].
  pose proof (TaskExecutorProps.executeTask_cases task w) as Hc.
  destruct (executeTask task w) as [[result task'] w'].
  destruct Hc as [Hid Hc]. exists task'. split; [exact Hid |]. split.
  - destruct Hc as [[_ E] | [_ E]]; rewrite E; discriminate.
  - destruct result; simpl; auto.
Qed.

(** *** The order of execution *)

Lemma inArrayOrder_step g w : inArrayOrder g -> inArrayOrder (fst (stepGroup g w)).
Proof.
  unfold inArrayOrder. intros H.
  destruct (returned g) as [b |] eqn:Hr.
  { rewrite TaskExecutorProps.stepGroup_returned by congruence.
    simpl. now rewrite Hr. }
  destruct (stepGroup_unfold g w Hr)
    as [(task & Ht & [[E _] | (_ & _ & task' & Hid & _ & E)]) | [Ht E]].
  - rewrite E. simpl. rewrite Hr.
    rewrite (take_S_r _ _ _ Ht), fmap_app. now apply sublist_inserts_r.
  - assert (Hids : ExecutableTask.id <$> <[next g := task']> (tasks g)
                   = ExecutableTask.id <$> tasks g).
    { rewrite list_fmap_insert, Hid. apply list_insert_id.
      now rewrite list_lookup_fmap, Ht. }
    assert (Hgoal : executed g ++ [ExecutableTask.id task']
                    `sublist_of` ExecutableTask.id <$> take (S (next g)) (tasks g)).
    { rewrite (take_S_r _ _ _ Ht), fmap_app, Hid. simpl.
      now apply sublist_app. }
    destruct E as [E | E]; rewrite E; simpl; rewrite ?Hr.
    + rewrite fmap_take, Hids, <- fmap_take. exact Hgoal.
    + rewrite Hids. etrans; [exact Hgoal |].
      apply fmap_sublist, sublist_take.
  - rewrite E. simpl. etrans; [exact H |]. apply fmap_sublist, sublist_take.
Qed.

Lemma ids_step g w :
  ExecutableTask.id <$> tasks (fst (stepGroup g w))
  = ExecutableTask.id <$> tasks g.
Proof.
  destruct (returned g) as [b |] eqn:Hr.
  - now rewrite TaskExecutorProps.stepGroup_returned by congruence.
  - apply (TaskExecutorProps.stepGroup_cases g w Hr).
Qed.

Lemma inArrayOrder_all g :
  inArrayOrder g -> executed g `sublist_of` ExecutableTask.id <$> tasks g.
Proof.
  unfold inArrayOrder. destruct (returned g); [auto |].
  intros H. etrans; [exact H |]. apply fmap_sublist, sublist_take.
Qed.

(** X18. Whatever the interleaving of the two bucket runs, each run executes
    tasks of its own bucket in the order [sortTasksByDependency] gave
    them, each position of the sorted array at most once: the ids in
    order of execution are a subsequence of the ids of the sorted
    bucket. *)
Theorem tasks_run_in_sorted_order :
  forall (schedule : list Side) (batch : list ExecutableTask.t) (w : World.t),
    let r := fst (execute schedule batch w) in
    executed (backendRun r)
      `sublist_of`
      ExecutableTask.id
        <$> sortTasksByDependency (TaskGroups.backend (groupTasksByProject batch))
    /\ executed (frontendRun r)
         `sublist_of`
         ExecutableTask.id
           <$> sortTasksByDependency
                 (TaskGroups.frontend (groupTasksByProject batch)).
Proof.
  intros schedule batch w r. subst r.
  set (J := fun group g =>
              inArrayOrder g
              /\ ExecutableTask.id <$> tasks g
                 = ExecutableTask.id <$> sortTasksByDependency group).
  assert (Hstep : forall group g w, J group g -> J group (fst (stepGroup g w))).
  { intros group g w0 [H1 H2]. split; [now apply inArrayOrder_step |].
    now rewrite ids_step. }
  assert (Hinit : forall group, J group (promise group)).
  { intros group. destruct (promise_is_sorted group) as (Ht & Hr & He & Hn).
    split; [| now rewrite Ht].
    unfold inArrayOrder. rewrite He. apply sublist_nil_l. }
  destruct (execute_keeps_inv
              (J (TaskGroups.backend (groupTasksByProject batch)))
              (J (TaskGroups.frontend (groupTasksByProject batch)))
              schedule batch w (Hstep _) (Hstep _) (Hinit _) (Hinit _))
    as [[Hb Hbi] [Hf Hfi]].
  split.
  - rewrite <- Hbi. now apply inArrayOrder_all.
  - rewrite <- Hfi. now apply inArrayOrder_all.
Qed.

(** *** Tasks that cannot start *)

Lemma checkDependencies_true task l dep :
  checkDependencies task l = true ->
  dep ∈ ExecutableTask.dependsOn task ->
  exists u, u ∈ l /\ ExecutableTask.id u = dep
            /\ ExecutableTask.status u = Completed.
Proof.
  unfold checkDependencies. rewrite forallb_forall. intros H Hin.
  specialize (H dep (proj1 (list_elem_of_In _ _) Hin)).
  destruct (List.find _ l) as [u |] eqn:Hf; [| discriminate H].
  apply find_some in Hf as [Hu Hid].
  exists u. split; [now apply list_elem_of_In |].
  split; [now apply bool_decide_eq_true in Hid |].
  now apply bool_decide_eq_true in H.
Qed.

Lemma stepGroup_passes_over g w task :
  returned g = None ->
  tasks g !! next g = Some task ->
  passedOver (tasks g) task ->
  stepGroup g w = (skip g, w).
Proof.
  intros Hr Ht Hp.
  destruct (stepGroup_unfold g w Hr)
    as [(task0 & Ht0 & [[E _] | (Hs & Hd & _)]) | [Ht0 _]];
    [exact E | | congruence].
  assert (task0 = task) by congruence. subst task0.
  destruct Hp as [Hp | (dep & Hdep & Hp)]; [contradiction |].
  destruct (checkDependencies_true _ _ dep Hd Hdep) as (u & Hu & Hid & Hc).
  exfalso. exact (Hp u Hu Hid Hc).
Qed.

Lemma all_passed_over l w :
  (forall task, task ∈ l -> passedOver l task) ->
  forall d k,
    length l - k = d -> k <= length l ->
    stepsGroup (S d)
      {| tasks := l; next := k; returned := None; executed := [] |} w
    = ({| tasks := l; next := length l; returned := Some true;
          executed := [] |}, w).
Proof.
  intros Hall d. induction d as [| d IH]; intros k Hd Hk.
  - assert (k = length l) by lia. subst k. simpl. unfold stepGroup. simpl.
    rewrite (proj2 (lookup_ge_None l (length l))) by lia. reflexivity.
  - destruct (lookup_lt_is_Some_2 l k) as [task Ht]; [lia |].
    rewrite TaskExecutorProps.stepsGroup_S.
    rewrite (stepGroup_passes_over _ w task);
      [| reflexivity | exact Ht | apply Hall, list_elem_of_lookup; eauto].
    cbn [fst snd]. unfold skip. cbn [tasks next returned executed].
    apply IH; lia.
Qed.

(** X19. A bucket in which nothing can start reports success: when every
    task is passed over (it is not pending, or one of its dependencies
    is not the id of a completed task of the bucket, as for a task that
    waits on a missing id or on a cycle), [executeTaskGroup] goes
    through the whole array, executes nothing, leaves the world as it
    was and returns [true]. *)
Theorem bucket_with_nothing_to_start_succeeds :
  forall (group : list ExecutableTask.t) (w : World.t),
    (forall task, task ∈ group -> passedOver group task) ->
    executeTaskGroup group w
    = ({| tasks := sortTasksByDependency group; next := length group;
          returned := Some true; executed := [] |}, w).
Proof.
  intros group w Hall. unfold executeTaskGroup, runToEnd, enter.
  pose proof (TaskSortProps.sortTasks_Permutation group) as Hperm.
  cbn [tasks next]. rewrite Nat.sub_0_r.
  rewrite (all_passed_over (sortTasksByDependency group) w).
  - unfold sortTasksByDependency. now rewrite (Permutation_length Hperm).
  - intros task Hin. unfold sortTasksByDependency in *.
    rewrite Hperm in Hin.
    destruct (Hall task Hin) as [Hs | (dep & Hdep & Hd)]; [now left |].
    right. exists dep. split; [exact Hdep |].
    intros u Hu. apply Hd. now rewrite <- Hperm.
  - lia.
  - lia.
Qed.

Lemma bucket_with_nothing_to_start_succeeds_witness :
  executeTaskGroup
    [Samples.mkTask "A" "backend" ["B"] Pending;
     Samples.mkTask "B" "backend" ["A"] Pending]
    SampleWorlds.oneBackend
  = ({| tasks := sortTasksByDependency
                   [Samples.mkTask "A" "backend" ["B"] Pending;
                    Samples.mkTask "B" "backend" ["A"] Pending];
        next := 2; returned := Some true; executed := [] |},
     SampleWorlds.oneBackend).
Proof.
  apply (bucket_with_nothing_to_start_succeeds
           [Samples.mkTask "A" "backend" ["B"] Pending;
            Samples.mkTask "B" "backend" ["A"] Pending]
           SampleWorlds.oneBackend).
  intros task Hin. right.
  apply elem_of_cons in Hin as [-> | Hin];
    [| apply list_elem_of_singleton in Hin; subst task].
  - exists "B"%string. split; [apply list_elem_of_here |].
    intros u Hu Hid.
    apply elem_of_cons in Hu as [-> | Hu];
      [| apply list_elem_of_singleton in Hu; subst u]; discriminate.
  - exists "A"%string. split; [apply list_elem_of_here |].
    intros u Hu Hid.
    apply elem_of_cons in Hu as [-> | Hu];
      [| apply list_elem_of_singleton in Hu; subst u]; discriminate.
Defined.

Lemma neverStarts_step x g w :
  neverStarts (tasks g) x /\ x ∉ executed g ->
  neverStarts (tasks (fst (stepGroup g w))) x
  /\ x ∉ executed (fst (stepGroup g w)).
Proof.
  intros [Hn He].
  destruct (returned g) as [b |] eqn:Hr.
  { now rewrite TaskExecutorProps.stepGroup_returned by congruence. }
  destruct (stepGroup_unfold g w Hr)
    as [(task & Ht & [[E _] | (Hs & Hd & task' & Hid & _ & E)]) | [Ht E]].
  - rewrite E. auto.
  - assert (Hx : ExecutableTask.id task <> x).
    { intros Hx.
      destruct (Hn task) as [Hp | (dep & Hdep & Hmiss)];
        [apply list_elem_of_lookup; eauto | exact Hx | contradiction |].
      destruct (checkDependencies_true _ _ dep Hd Hdep) as (u & Hu & Hu' & _).
      apply Hmiss. rewrite <- Hu'. now apply list_elem_of_fmap_2. }
    assert (Hids : ExecutableTask.id <$> <[next g := task']> (tasks g)
                   = ExecutableTask.id <$> tasks g).
    { rewrite list_fmap_insert, Hid. apply list_insert_id.
      now rewrite list_lookup_fmap, Ht. }
    assert (Hgoal : neverStarts (<[next g := task']> (tasks g)) x
                    /\ x ∉ executed g ++ [ExecutableTask.id task']).
    { split.
      - intros t Hin Hidt. rewrite Hids.
        apply list_elem_of_lookup in Hin as [i Hi].
        apply list_lookup_insert_Some in Hi
          as [(_ & <- & _) | (_ & Hi)]; [congruence |].
        apply Hn; [apply list_elem_of_lookup; eauto | exact Hidt].
      - rewrite elem_of_app, list_elem_of_singleton. intros [? | ?];
          [contradiction | congruence]. }
    destruct E as [E | E]; rewrite E; exact Hgoal.
  - rewrite E. auto.
Qed.

(** X20. A task that cannot start never runs, whatever the interleaving of
    the two bucket runs: when every task of a bucket under some id is
    not pending, or depends on an id that no task of that bucket
    carries (a misspelt id, or the id of a task of the other bucket),
    then [executeTask] is never called on that id in the run of that
    bucket. *)
Theorem task_that_cannot_start_never_runs :
  forall (schedule : list Side) (batch : list ExecutableTask.t) (w : World.t)
         (x : string),
    let groups := groupTasksByProject batch in
    let r := fst (execute schedule batch w) in
    (neverStarts (TaskGroups.backend groups) x -> x ∉ executed (backendRun r))
    /\ (neverStarts (TaskGroups.frontend groups) x ->
        x ∉ executed (frontendRun r)).
Proof.
  intros schedule batch w x groups r. subst groups r.
  set (J := fun (P : Prop) g => P -> neverStarts (tasks g) x /\ x ∉ executed g).
  assert (Hstep : forall P g w, J P g -> J P (fst (stepGroup g w))).
  { intros P g w0 H HP. apply neverStarts_step, H, HP. }
  assert (Hinit : forall group, J (neverStarts group x) (promise group)).
  { intros group Hn.
    destruct (promise_is_sorted group) as (Ht & _ & He & _).
    rewrite Ht, He.
    pose proof (TaskSortProps.sortTasks_Permutation group) as Hperm.
    unfold sortTasksByDependency in *.
    split; [| apply not_elem_of_nil].
    intros t Hin Hid. rewrite Hperm in Hin.
    destruct (Hn t Hin Hid) as [Hs | (dep & Hdep & Hmiss)]; [now left |].
    right. exists dep. split; [exact Hdep |]. now rewrite Hperm. }
  destruct (execute_keeps_inv
              (J (neverStarts (TaskGroups.backend (groupTasksByProject batch)) x))
              (J (neverStarts (TaskGroups.frontend (groupTasksByProject batch)) x))
              schedule batch w (Hstep _) (Hstep _) (Hinit _) (Hinit _))
    as [Hb Hf].
  split; intros H; [apply Hb, H | apply Hf, H].
Qed.

Lemma task_that_cannot_start_never_runs_witness :
  "F3"%string
  ∉ executed
      (frontendRun
         (fst (execute [Front; Back]
                 [Samples.taskB1;
                  Samples.mkTask "F3" "frontend" ["B1"] Pending]
                 SampleWorlds.oneBackend))).
Proof.
  apply (proj2 (task_that_cannot_start_never_runs [Front; Back]
                  [Samples.taskB1;
                   Samples.mkTask "F3" "frontend" ["B1"] Pending]
                  SampleWorlds.oneBackend "F3")).
  intros task Hin Hid. right.
  apply list_elem_of_singleton in Hin. subst task.
  exists "B1"%string. split; [apply list_elem_of_here |].
  intros H. apply list_elem_of_singleton in H. discriminate H.
Defined.

(** *** One task, and the two buckets *)

(** X21. What [executeTask] leaves: it answers [true] exactly when it leaves
    the task completed and [false] exactly when it leaves it failed,
    never pending or in progress; the task keeps its id, project and
    dependencies, is stamped with the clock readings at the start and
    at the end, and carries a result with exit code 0 or 1 to match and
    an empty output. *)
Theorem executeTask_answer_is_the_status_left :
  forall (task : ExecutableTask.t) (w : World.t),
    let answer := fst (fst (executeTask task w)) in
    let task' := snd (fst (executeTask task w)) in
    let w' := snd (executeTask task w) in
    (answer = true <-> ExecutableTask.status task' = Completed)
    /\ (answer = false <-> ExecutableTask.status task' = Failed)
    /\ ExecutableTask.id task' = ExecutableTask.id task
    /\ ExecutableTask.project task' = ExecutableTask.project task
    /\ ExecutableTask.dependsOn task' = ExecutableTask.dependsOn task
    /\ ExecutableTask.startedAt task' = Some (World.clock w)
    /\ ExecutableTask.completedAt task' = Some (World.clock w')
    /\ exists res,
         ExecutableTask.result task' = Some res
         /\ TaskResult.exitCode res = (if answer then 0%Z else 1%Z)
         /\ TaskResult.output res = ""%string.
Proof.
  intros task w. unfold executeTask.
  destruct (AICliAdapter.execute _ _ _) as [[r | message] w1] eqn:E; simpl.
  - apply TaskExecutorProps.execute_returned in E. rewrite E. simpl.
    repeat split; try discriminate; eauto.
  - repeat split; try discriminate; eauto.
Qed.

Lemma filter_sublist {A} (f : A -> bool) l : List.filter f l `sublist_of` l.
Proof.
  induction l as [| x l IH]; simpl; [constructor |].
  destruct (f x); [now apply sublist_skip | now apply sublist_cons].
Qed.

Lemma filter_split {A} (f : A -> bool) l :
  List.filter (fun x => negb (f x)) l ++ List.filter f l ≡ₚ l.
Proof.
  induction l as [| x l IH]; simpl; [reflexivity |].
  destruct (f x); simpl.
  - rewrite <- Permutation_middle. now constructor.
  - now constructor.
Qed.

(** X22. [groupTasksByProject] splits a batch in two without losing,
    repeating or reordering anything: the two groups together are a
    permutation of the batch, each keeps the order of the batch, the
    frontend group holds the tasks whose project is ['frontend'] and the
    backend group every other task, whatever its project says. *)
Theorem groupTasksByProject_partitions :
  forall batch : list ExecutableTask.t,
    let groups := groupTasksByProject batch in
    TaskGroups.backend groups ++ TaskGroups.frontend groups ≡ₚ batch
    /\ TaskGroups.backend groups `sublist_of` batch
    /\ TaskGroups.frontend groups `sublist_of` batch
    /\ (forall task,
          task ∈ TaskGroups.frontend groups
          <-> task ∈ batch /\ ExecutableTask.project task = "frontend"%string)
    /\ (forall task,
          task ∈ TaskGroups.backend groups
          <-> task ∈ batch /\ ExecutableTask.project task <> "frontend"%string).
Proof.
  intros batch groups. subst groups.
  destruct (TaskExecutorProps.groupTasksByProject_filter batch) as [-> ->].
  split; [apply filter_split |].
  split; [apply filter_sublist |]. split; [apply filter_sublist |].
  split; intros task; rewrite list_elem_of_In, filter_In, <- list_elem_of_In.
  - now rewrite bool_decide_eq_true.
  - now rewrite negb_true_iff, bool_decide_eq_false.
Qed.

End GroupRunProps.

(** ** What the calls of [poll()] handle *)
Module PollProps.
Import Types Scheduler SchedulerSpec PollSpec.

Local Open Scope nat_scope.

(** *** Only listed items *)

Lemma listPendingFeedbacks_listed store :
  Forall pendingClarification (fst (listPendingFeedbacks store))
  /\ Forall listedFeedback (snd (listPendingFeedbacks store)).
Proof.
  unfold listPendingFeedbacks. simpl. split; apply Forall_forall; intros fb Hin;
    apply list_elem_of_In, filter_In in Hin as [_ H];
    apply andb_true_iff in H as [H1 H2].
  - split; now apply bool_decide_eq_true in H1, H2.
  - apply negb_true_iff, bool_decide_eq_false in H1.
    split; [destruct (type fb); [contradiction | reflexivity] |].
    apply orb_true_iff in H2 as [H2 | H2]; apply bool_decide_eq_true in H2;
      auto.
Qed.

Lemma over_wellListed : wellListed over.
Proof. repeat split; constructor. Qed.

Lemma feedbackLoop_wellListed poll todo :
  forall sh, Forall listedFeedback todo ->
             wellListed (fst (feedbackLoop poll todo sh)).
Proof.
  induction todo as [| f rest IH]; intros sh H; simpl;
    [apply over_wellListed |].
  inversion H as [| ? ? Hf Hrest]; subst.
  destruct (negb (canStartTask sh)); [apply over_wellListed |].
  case_bool_decide as Hp; simpl.
  { split; [constructor |]. split; [exact Hrest |]. simpl.
    split; [apply Hf | exact Hp]. }
  destruct (_ || _); simpl; [| now apply IH].
  split; [constructor |]. split; [exact Hrest | exact Hf].
Qed.

Lemma clarificationLoop_wellListed poll todo fbs sh :
  Forall pendingClarification todo -> Forall listedFeedback fbs ->
  wellListed (fst (clarificationLoop poll todo fbs sh)).
Proof.
  intros Hc Hf. destruct todo as [| c rest]; simpl;
    [now apply feedbackLoop_wellListed |].
  inversion Hc as [| ? ? Hc1 Hrest]; subst.
  destruct (negb (canStartTask sh)); simpl;
    [now apply feedbackLoop_wellListed |].
  split; [exact Hrest |]. split; [exact Hf | exact Hc1].
Qed.

Lemma resume_wellListed poll o p sh :
  wellListed p -> wellListed (fst (resume poll o p sh)).
Proof.
  intros (Hc & Hf & Hh). unfold resume. unfold handlesListed in Hh.
  destruct (stage p) as [| c | c | c st | f | f | f |] eqn:Hs; simpl.
  - destruct (listPendingFeedbacks_listed (store sh)) as [H1 H2].
    unfold listPendingFeedbacks in H1, H2. simpl in H1, H2.
    destruct o; simpl;
      first [apply over_wellListed
            | apply clarificationLoop_wellListed; assumption].
  - split; [exact Hc |]. split; [exact Hf | exact Hh].
  - split; [exact Hc |]. split; [exact Hf | exact Hh].
  - now apply clarificationLoop_wellListed.
  - split; [exact Hc |]. split; [exact Hf |]. simpl.
    destruct Hh as [H1 H2]. split; auto.
  - destruct o; simpl; try now apply feedbackLoop_wellListed.
    split; [exact Hc |]. split; [exact Hf | exact Hh].
  - now apply feedbackLoop_wellListed.
  - split; [exact Hc |]. split; [exact Hf |]. unfold handlesListed.
    now rewrite Hs.
Qed.

Lemma step_wellListed ev s :
  Forall wellListed (polls s) -> Forall wellListed (polls (step ev s)).
Proof.
  intros H.
  assert (Hl : wellListed listing) by (repeat split; constructor).
  destruct ev as [| | | i o]; simpl.
  - destruct (running (shared s)); simpl; [exact H |].
    apply Forall_app. split; [exact H | now constructor].
  - exact H.
  - destruct (negb (running (shared s))); simpl; [exact H |].
    apply Forall_app. split; [exact H | now constructor].
  - destruct (polls s !! i) as [p |] eqn:Hp; [| exact H].
    pose proof (resume_wellListed i o p (shared s)
                  (proj1 (Forall_lookup _ _) H i p Hp)) as Hr.
    destruct (resume i o p (shared s)) as [p' sh']. simpl in *.
    now apply Forall_insert.
Qed.

Lemma run_wellListed events : forall s,
  Forall wellListed (polls s) -> Forall wellListed (polls (run events s)).
Proof.
  unfold run. induction events as [| ev events IH]; intros s Hs; simpl;
    [exact Hs |]. apply IH. now apply step_wellListed.
Qed.

(** X23. A call of [poll()] only ever handles what [listPendingFeedbacks]
    gave it: a clarification it listed as pending, a feedback it listed
    as pending or analyzing.  So the branch of [handleFeedback] for a
    feedback in status [executing] is never taken from [poll()], and a
    feedback left in that status is not picked up again. *)
Theorem only_listed_items_are_handled :
  forall (budget : nat) (items : list AnyFeedback) (events : list Event)
         (i : nat) (p : Poll),
    polls (run events (init budget items)) !! i = Some p ->
    match stage p with
    | MarkProcessing c | Analyze c | SettleStatus c _ =>
        type c = Clarification /\ status c = Pending
    | MarkAnalyzing f => type f = Feedback /\ status f = Pending
    | RunHandler f | MarkFailed f =>
        type f = Feedback /\ (status f = Pending \/ status f = Analyzing)
    | Listing | Over => True
    end.
Proof.
  intros budget items events i p Hp.
  pose proof (run_wellListed events (init budget items)
                (Forall_nil_2 wellListed)) as H.
  apply (proj1 (Forall_lookup _ _) H i p) in Hp as (_ & _ & Hh).
  exact Hh.
Qed.

Lemma only_listed_items_are_handled_witness :
  type SampleTicks.itemX = Clarification
  /\ status SampleTicks.itemX = Pending.
Proof.
  apply (only_listed_items_are_handled 3
           [SampleTicks.itemW; SampleTicks.itemX] SampleTicks.overlap 1
           {| stage := Analyze SampleTicks.itemX; clarifications := [];
              feedbacks := [] |}).
  vm_compute. reflexivity.
Defined.

(** *** [activeTasks] holds no stale id *)

Lemma feedbackLoop_active poll todo :
  forall sh x,
    x ∈ activeTasks (snd (feedbackLoop poll todo sh)) ->
    handling (fst (feedbackLoop poll todo sh)) = Some x
    \/ x ∈ activeTasks sh.
Proof.
  induction todo as [| f rest IH]; intros sh x Hx; simpl in *; [now right |].
  destruct (negb (canStartTask sh)); simpl in *; [now right |].
  assert (Hadd : x ∈ activeTasks sh ∪ {[id f]} -> Some (id f) = Some x
                                               \/ x ∈ activeTasks sh).
  { intros H. apply elem_of_union in H as [H | H]; [now right |].
    apply elem_of_singleton in H. left. congruence. }
  destruct (bool_decide (status f = Pending)); simpl in *; [now apply Hadd |].
  destruct (_ || _); simpl in *; [now apply Hadd |].
  apply IH in Hx as [Hx | Hx]; [now left |]. right.
  simpl in Hx. apply elem_of_difference in Hx as [Hx Hne].
  apply elem_of_union in Hx as [Hx | Hx]; [exact Hx | contradiction].
Qed.

Lemma clarificationLoop_active poll todo fbs sh x :
  x ∈ activeTasks (snd (clarificationLoop poll todo fbs sh)) ->
  handling (fst (clarificationLoop poll todo fbs sh)) = Some x
  \/ x ∈ activeTasks sh.
Proof.
  destruct todo as [| c rest]; simpl; [apply feedbackLoop_active |].
  destruct (negb (canStartTask sh)); simpl; [apply feedbackLoop_active |].
  intros H. apply elem_of_union in H as [H | H]; [now right |].
  apply elem_of_singleton in H. left. unfold handling. simpl. congruence.
Qed.

Lemma released fb sh x :
  x ∈ activeTasks (deleteActive fb sh) ->
  x ∈ activeTasks sh /\ Some (id fb) <> Some x.
Proof.
  simpl. intros H. apply elem_of_difference in H as [H Hne].
  split; [exact H |]. intros E. apply Hne, elem_of_singleton. congruence.
Qed.

Lemma kept (y x : string) (sh : Shared) :
  x ∈ activeTasks sh ->
  Some y = Some x \/ (x ∈ activeTasks sh /\ Some y <> Some x).
Proof.
  intros H. destruct (decide (y = x)) as [-> | Hne]; [now left |].
  right. split; [exact H | congruence].
Qed.

Lemma resume_active poll o p sh x :
  x ∈ activeTasks (snd (resume poll o p sh)) ->
  handling (fst (resume poll o p sh)) = Some x
  \/ (x ∈ activeTasks sh /\ handling p <> Some x).
Proof.
  unfold resume, handling at 2.
  destruct (stage p) as [| c | c | c st | f | f | f |] eqn:Hs.
  - destruct (listPendingFeedbacks (store sh)) as [cs fs].
    assert (Hloop : x ∈ activeTasks (snd (clarificationLoop poll cs fs sh)) ->
                    handling (fst (clarificationLoop poll cs fs sh)) = Some x
                    \/ (x ∈ activeTasks sh /\ None <> Some x)).
    { intros H. apply clarificationLoop_active in H as [H | H];
        [now left | right; split; [exact H | discriminate]]. }
    destruct o; simpl; try exact Hloop.
    intros H. right. split; [exact H | discriminate].
  - simpl. unfold handling. simpl. apply (kept (id c) x sh).
  - simpl. unfold handling. simpl. apply (kept (id c) x sh).
  - intros H. apply clarificationLoop_active in H as [H | H]; [now left |].
    right. now apply released in H.
  - simpl. unfold handling. simpl. apply (kept (id f) x sh).
  - destruct o; simpl.
    + intros H. apply feedbackLoop_active in H as [H | H]; [now left |].
      right. now apply released in H.
    + intros H. apply feedbackLoop_active in H as [H | H]; [now left |].
      right. now apply released in H.
    + intros H. apply feedbackLoop_active in H as [H | H]; [now left |].
      right. now apply released in H.
    + unfold handling. simpl. apply (kept (id f) x sh).
  - intros H. apply feedbackLoop_active in H as [H | H]; [now left |].
    right. now apply released in H.
  - simpl. intros H. right. split; [exact H | discriminate].
Qed.

Lemma step_accounted ev s : accounted s -> accounted (step ev s).
Proof.
  intros H.
  assert (Hext : forall b, accounted {| shared := setRunning b (shared s);
                                        polls := polls s ++ [listing] |}).
  { intros b x Hx. destruct (H x Hx) as (i & p & Hp & Hh).
    exists i, p. split; [| exact Hh]. simpl.
    rewrite lookup_app_l by now apply lookup_lt_Some in Hp. exact Hp. }
  destruct ev as [| | | i o]; simpl.
  - destruct (running (shared s)); [exact H | apply Hext].
  - exact H.
  - destruct (negb (running (shared s))); [exact H |].
    intros x Hx. destruct (H x Hx) as (i & p & Hp & Hh).
    exists i, p. split; [| exact Hh]. simpl.
    rewrite lookup_app_l by now apply lookup_lt_Some in Hp. exact Hp.
  - destruct (polls s !! i) as [p |] eqn:Hp; [| exact H].
    pose proof (fun x => resume_active i o p (shared s) x) as Hr.
    destruct (resume i o p (shared s)) as [p' sh']. simpl in Hr.
    intros x Hx. simpl in Hx. destruct (Hr x Hx) as [Hh | [Ha Hn]].
    + exists i, p'. split; [| exact Hh]. simpl.
      apply list_lookup_insert_eq. now apply lookup_lt_Some in Hp.
    + destruct (H x Ha) as (j & q & Hq & Hh).
      exists j, q. split; [| exact Hh]. simpl.
      rewrite list_lookup_insert_ne; [exact Hq |].
      intros ->. congruence.
Qed.

Lemma run_accounted events : forall s, accounted s -> accounted (run events s).
Proof.
  unfold run. induction events as [| ev events IH]; intros s Hs; simpl;
    [exact Hs |]. apply IH. now apply step_accounted.
Qed.

(** X24. [activeTasks] holds no stale id: every id in it is the item some
    call of [poll()] is handling right now (the [finally] of the two
    handlers takes it out however the handling ends), so once every
    call of [poll()] has returned the set is empty, which is what the
    wait loop of [stop()] needs to end. *)
Theorem active_ids_are_being_handled :
  forall (budget : nat) (items : list AnyFeedback) (events : list Event),
    let s := run events (init budget items) in
    (forall x, x ∈ activeTasks (shared s) ->
               exists i p, polls s !! i = Some p /\ handling p = Some x)
    /\ (Forall (fun p => stage p = Over) (polls s) ->
        activeTasks (shared s) = ∅).
Proof.
  intros budget items events s.
  assert (H : accounted s).
  { apply run_accounted. intros x Hx. simpl in Hx.
    now apply elem_of_empty in Hx. }
  split; [exact H |].
  intros Hover. apply leibniz_equiv, elem_of_equiv_empty. intros x Hx.
  destruct (H x Hx) as (i & p & Hp & Hh).
  apply (proj1 (Forall_lookup _ _) Hover i p) in Hp.
  unfold handling in Hh. rewrite Hp in Hh. discriminate Hh.
Qed.

End PollProps.

(** ** The order of the pool *)
Module PoolOrderProps.
Import Types AICliAdapter AdapterSpec PoolOrderSpec.

Lemma mayPrecede_after config a b :
  before config a b -> mayPrecede config a b.
Proof.
  intros H. apply AdapterProps.before_keys in H. revert H.
  unfold mayPrecede, lexBefore, fasterThan.
  destruct (keys config a) as [[x1 y1] [r1 |]],
           (keys config b) as [[x2 y2] [r2 |]]; intros; lia.
Qed.

Lemma mayPrecede_trans config a b c :
  mayPrecede config a b -> mayPrecede config b c -> mayPrecede config a c.
Proof.
  unfold mayPrecede, lexBefore, fasterThan.
  destruct (keys config a) as [[x1 y1] [r1 |]],
           (keys config b) as [[x2 y2] [r2 |]],
           (keys config c) as [[x3 y3] [r3 |]]; intros; lia.
Qed.

Lemma mayPrecede_stop config x y :
  Js.negative (compareTools config y x) = false -> mayPrecede config x y.
Proof.
  intros H. unfold mayPrecede. rewrite <- AdapterProps.before_keys.
  unfold before. now rewrite H.
Qed.

Lemma insert_ordered config x pool :
  ordered config pool -> ordered config (Js.insert (compareTools config) x pool).
Proof.
  induction pool as [| y pool IH]; intros H; simpl; [auto |].
  destruct H as [Hy Hrest].
  destruct (Js.negative (compareTools config y x)) eqn:E; simpl.
  - split; [| now apply IH].
    rewrite AdapterProps.insert_Permutation. constructor; [| exact Hy].
    now apply mayPrecede_after.
  - apply mayPrecede_stop in E. split; [| split; assumption].
    constructor; [exact E |].
    eapply Forall_impl; [exact Hy |].
    intros z Hz. now apply (mayPrecede_trans config x y z).
Qed.

Lemma sort_ordered config l : ordered config (Js.sort (compareTools config) l).
Proof.
  induction l as [| x l IH]; simpl; [exact I | now apply insert_ordered].
Qed.

(** X25. The pool comes out ordered on the three keys of the comparator: no
    entry stands before an entry that beats it, where an entry beats
    another when it is available and the other is not, or, availability
    being equal, when its configured priority number is lower, or,
    priorities being equal too, when its response time is known (and
    not 0) and lower than the other's or the other's is unknown. *)
Theorem pool_is_ordered_by_its_keys :
  forall (w : World.t) (config : ToolsConfig.t),
    Storage.loadToolsConfig w = Some config ->
    ordered config (fst (getOrderedToolPool w)).
Proof.
  intros w config Hc. unfold getOrderedToolPool. rewrite Hc. simpl.
  apply sort_ordered.
Qed.

Lemma pool_is_ordered_by_its_keys_witness :
  ordered
    (SampleWorlds.config [SampleWorlds.tool "claude" "claude" 1;
                          SampleWorlds.tool "gemini" "gemini-cli" 2])
    (fst (getOrderedToolPool SampleWorlds.twoBackends)).
Proof.
  apply (pool_is_ordered_by_its_keys SampleWorlds.twoBackends).
  reflexivity.
Defined.

End PoolOrderProps.

(** ** Feedback ids *)
Module FeedbackIdProps.
Import FeedbackIds.

Ltac no_hyphen H :=
  simpl in H;
  repeat match type of H with
         | _ || _ = false =>
             let H1 := fresh "N" in
             apply orb_false_iff in H as [H1 H]
         end.

(** X26. An id is filed under the day it was generated on: when the ISO
    rendering of the instant begins with a four-digit year, a month and
    a day ([YYYY-MM-DD], as it does for the years 0 to 9999), the id
    [generateFeedbackId] makes at that instant parses back, with
    [parseFeedbackDate], to the very date [getTodayDate] gives at that
    instant, whatever the time and the random part. *)
Theorem generated_id_is_filed_under_its_day :
  forall iso timeString randomText y m d : string,
    getTodayDate iso = y +:+ "-" +:+ m +:+ "-" +:+ d ->
    String.length y = 4%nat -> String.length m = 2%nat ->
    String.length d = 2%nat ->
    has "-" y = false -> has "-" m = false -> has "-" d = false ->
    parseFeedbackDate (generateFeedbackId iso timeString randomText)
    = getTodayDate iso.
Proof.
  intros iso timeString randomText y m d Hiso Hy Hm Hd Ny Nm Nd.
  unfold parseFeedbackDate, generateFeedbackId.
  unfold getTodayDate in Hiso. unfold getTodayDate. rewrite Hiso.
  destruct y as [| a1 [| a2 [| a3 [| a4 [| ? ?]]]]]; try discriminate Hy.
  destruct m as [| a5 [| a6 [| ? ?]]]; try discriminate Hm.
  destruct d as [| a7 [| a8 [| ? ?]]]; try discriminate Hd.
  no_hyphen Ny. no_hyphen Nm. no_hyphen Nd.
  repeat (simpl;
          match goal with
          | H : bool_decide _ = false |- _ => rewrite !H
          end).
  reflexivity.
Qed.

Lemma generated_id_is_filed_under_its_day_witness :
  parseFeedbackDate
    (generateFeedbackId "2026-11-02T09:15:30.123Z"
       "17:15:30 GMT+0800 (China Standard Time)" "0.k3j9x2mq")
  = getTodayDate "2026-11-02T09:15:30.123Z".
Proof.
  apply (generated_id_is_filed_under_its_day "2026-11-02T09:15:30.123Z"
           "17:15:30 GMT+0800 (China Standard Time)" "0.k3j9x2mq"
           "2026" "11" "02"); reflexivity.
Defined.

End FeedbackIdProps.

(** ** [FeedbackHandler.execute]: the status it leaves on file *)
Module FeedbackHandlerProps.
Import Types FeedbackHandler.

Lemma updateStatus_found now feedbackId newStatus store feedback :
  loadFeedback feedbackId store = Some feedback ->
  id feedback = feedbackId ->
  loadFeedback feedbackId (updateStatus now feedbackId newStatus store)
  = Some {| id := feedbackId; status := newStatus; updatedAt := now;
            sdd := sdd feedback |}.
Proof.
  intros Hl Hid. unfold updateStatus. rewrite Hl.
  unfold saveFeedback, loadFeedback. simpl. rewrite Hid.
  apply lookup_insert_eq.
Qed.

(** X27. While the tasks run the file does not say [executing]: [execute]
    writes the status the state machine has reached and then saves the
    feedback object it loaded at the start, which still carries the
    status it was loaded with.  So when the call gets as far as running
    the tasks of a feedback filed under its own id, the file holds the
    status and the [updatedAt] it had on entry, with the SDD attached,
    while the state machine of a feedback loaded as [analyzing] is in
    [executing]. *)
Theorem executing_status_is_overwritten :
  forall (clock : Clock) (feedbackId : string) (steps : Steps)
         (store store' : Store) (feedback : Feedback)
         (stateMachine : StateMachine.t),
    loadFeedback feedbackId store = Some feedback ->
    id feedback = feedbackId ->
    prepare clock feedbackId steps store = inr (stateMachine, store') ->
    (exists document,
       loadFeedback feedbackId store'
       = Some {| id := feedbackId; status := status feedback;
                 updatedAt := updatedAt feedback; sdd := Some document |}
       /\ tasks document = generateTasks steps)
    /\ (status feedback = Analyzing ->
        StateMachine.getStatus stateMachine = Executing).
Proof.
  intros clock feedbackId steps store store' feedback stateMachine Hl Hid Hp.
  unfold prepare in Hp. rewrite Hl in Hp.
  destruct (falsy (generateSpec steps)); [discriminate Hp |].
  destruct (falsy (generatePlan steps)); [discriminate Hp |].
  case_bool_decide; [discriminate Hp |].
  injection Hp as <- <-. split.
  - eexists. split.
    + unfold saveFeedback, loadFeedback. simpl. rewrite Hid.
      apply lookup_insert_eq.
    + reflexivity.
  - intros Hs. rewrite Hs. reflexivity.
Qed.

Lemma executing_status_is_overwritten_witness :
  let fb := {| id := "20261102-091530-k3j9x"; status := Analyzing;
               updatedAt := 1000; sdd := None |} in
  let clock := {| atEntry := 2000; atFirstUpdate := 3000;
                  atLastUpdate := 4000 |} in
  let steps := {| generateSpec := Some "spec"%string;
                  generatePlan := Some "plan"%string;
                  generateTasks := [Samples.taskA]; runTasks := true |} in
  let prepared := prepare clock "20261102-091530-k3j9x" steps
                    {[ "20261102-091530-k3j9x"%string := fb ]} in
  (exists document,
     loadFeedback "20261102-091530-k3j9x"
       (match prepared with inr ms => snd ms | inl e => snd e end)
     = Some {| id := "20261102-091530-k3j9x"; status := Analyzing;
               updatedAt := 1000; sdd := Some document |}
     /\ tasks document = [Samples.taskA])
  /\ (Analyzing = Analyzing ->
      StateMachine.getStatus
        (match prepared with
         | inr ms => fst ms
         | inl _ => FeedbackStateMachine.new 0 Pending
         end) = Executing).
Proof.
  intros fb clock steps prepared.
  apply (executing_status_is_overwritten clock "20261102-091530-k3j9x" steps
           {[ "20261102-091530-k3j9x"%string := fb ]} _ fb _).
  - apply lookup_singleton_eq.
  - reflexivity.
  - reflexivity.
Defined.



(** X29. The project the model gives a task is looked at only for being
    there: [convertTask] files a task under ['frontend'] exactly when
    the feedback's scope is ['frontend'] and the raw task names no
    project, and under ['backend'] in every other case, a raw task that
    says ['frontend'] included.  So for a feedback of any other scope
    every generated task lands in the backend bucket and the frontend
    bucket is empty. *)
Theorem generated_tasks_ignore_the_project_given :
  forall (projectScope : string),
    (forall randomText t,
       ExecutableTask.project (convertTask projectScope randomText t)
       = "frontend"%string
       <-> projectScope = "frontend"%string /\ falsy (rawProject t) = true)
    /\ (forall raws,
          projectScope <> "frontend"%string ->
          TaskExecutor.groupTasksByProject (convertTasks projectScope raws)
          = {| TaskGroups.backend := convertTasks projectScope raws;
               TaskGroups.frontend := [] |}).
Proof.
  intros projectScope.
  assert (H : forall randomText t,
             ExecutableTask.project (convertTask projectScope randomText t)
             = "frontend"%string
             <-> projectScope = "frontend"%string
                 /\ falsy (rawProject t) = true).
  { intros randomText t. simpl.
    destruct (falsy (rawProject t)); simpl.
    - case_bool_decide as E; [subst projectScope |]; split;
        try discriminate; intros; intuition; discriminate.
    - split; [discriminate | intros [_ ?]; discriminate]. }
  split; [exact H |].
  intros raws Hne.
  pose proof (TaskExecutorProps.groupTasksByProject_filter
                (convertTasks projectScope raws)) as [Hb Hf].
  destruct (TaskExecutor.groupTasksByProject _) as [b f]. simpl in Hb, Hf.
  subst b f. f_equal.
  - unfold convertTasks. induction raws as [| r raws IH]; [reflexivity |].
    cbn [fmap list_fmap List.filter].
    rewrite bool_decide_eq_false_2; [simpl; f_equal; exact IH |].
    intros E. apply H in E as [E _]. contradiction.
  - unfold convertTasks. induction raws as [| r raws IH]; [reflexivity |].
    cbn [fmap list_fmap List.filter].
    rewrite bool_decide_eq_false_2; [exact IH |].
    intros E. apply H in E as [E _]. contradiction.
Qed.

End FeedbackHandlerProps.

(** ** A bucket that runs in full *)
Module FullRunProps.
Import Types TaskExecutor SortOrderSpec FullRunSpec.

Local Open Scope nat_scope.

Lemma updateToolStatus_frame toolName u w :
  World.toolsConfig (Storage.updateToolStatus toolName u w)
  = World.toolsConfig w
  /\ World.processes (Storage.updateToolStatus toolName u w)
     = World.processes w.
Proof.
  unfold Storage.updateToolStatus.
  destruct (Storage.findIndex _ _); [destruct (_ !! _) |]; auto.
Qed.

Lemma reliable_frame w w' :
  World.toolsConfig w' = World.toolsConfig w ->
  World.processes w' = World.processes w ->
  reliable w -> reliable w'.
Proof.
  intros Hc Hp [Ht Hch]. split.
  - unfold Storage.loadToolsConfig in *. now rewrite Hc.
  - now rewrite Hp.
Qed.

(** In a reliable world the adapter returns, and leaves a reliable
    world. *)
Lemma reliable_execute prompt w :
  reliable w ->
  exists r w',
    AICliAdapter.execute prompt AICliAdapter.noOptions w
    = (AICliAdapter.Returned r, w')
    /\ reliable w'.
Proof.
  intros Hrel. pose proof Hrel as [(config & tc & Hc & Hf & Hn) Hch].
  set (w0 := World.setFailureCooldownMs (ToolsConfig.failureCooldownMs config) w).
  set (entry := AICliAdapter.poolEntry (Storage.loadToolStatus w0)
                  (World.clock w0) (World.failureCooldownMs w0) tc).
  assert (Hname : ToolStatus.name entry = "claude"%string).
  { unfold entry. now rewrite AdapterProps.poolEntry_name. }
  assert (Hpool : fst (AICliAdapter.getOrderedToolPool w0) = [entry]).
  { unfold AICliAdapter.getOrderedToolPool.
    change (Storage.loadToolsConfig w0) with (Storage.loadToolsConfig w).
    rewrite Hc. simpl. rewrite Hf. reflexivity. }
  rewrite (AdapterProps.execute_unfold prompt AICliAdapter.noOptions w config Hc)
    by (fold w0; rewrite Hpool; discriminate).
  fold w0. rewrite Hpool. simpl. rewrite Hname.
  change (AICliAdapter.adapters !! "claude"%string)
    with (Some AICliAdapter.claude).
  unfold ClaudeCodeAdapter.execute, ClaudeCodeAdapter.execCommand. simpl.
  match goal with
  | |- context [World.processes w ?c ?a ?n] =>
      destruct (Hch c a n) as (out & err & He & Hms)
  end.
  rewrite (proj2 (Z.leb_gt _ _) Hms), He. simpl.
  eexists _, _. split; [reflexivity |].
  unfold AICliAdapter.markSuccess.
  match goal with
  | |- reliable (Storage.updateToolStatus ?n ?u ?w1) =>
      destruct (updateToolStatus_frame n u w1) as [H1 H2];
      apply (reliable_frame w); [now rewrite H1 | now rewrite H2 | exact Hrel]
  end.
Qed.

Lemma reliable_executeTask task w :
  reliable w ->
  fst (fst (executeTask task w)) = true
  /\ ExecutableTask.id (snd (fst (executeTask task w))) = ExecutableTask.id task
  /\ ExecutableTask.status (snd (fst (executeTask task w))) = Completed
  /\ reliable (snd (executeTask task w)).
Proof.
  intros Hrel. unfold executeTask.
  destruct (reliable_execute (buildTaskPrompt (started (World.clock w) task))
              w Hrel) as (r & w' & He & Hrel').
  rewrite He. simpl.
  apply TaskExecutorProps.execute_returned in He. rewrite He. auto.
Qed.

(** [find] answers with an element no later than any match. *)
Lemma find_first {A} (f : A -> bool) (l : list A) :
  forall j y, l !! j = Some y -> f y = true ->
              exists i x, i <= j /\ l !! i = Some x /\ List.find f l = Some x.
Proof.
  induction l as [| a l IH]; intros j y Hj Hy; [discriminate Hj |].
  simpl. destruct (f a) eqn:Ha.
  - exists 0, a. split; [lia |]. auto.
  - destruct j as [| j]; [simpl in Hj; congruence |].
    destruct (IH j y Hj Hy) as (i & x & Hi & Hx & Hf).
    exists (S i), x. split; [lia |]. auto.
Qed.

Lemma onCourse_dependencies sorted k g task :
  dependenciesFirst sorted ->
  onCourse sorted k g ->
  sorted !! k = Some task ->
  checkDependencies task (tasks g) = true.
Proof.
  intros Hdep [Hr Hn Hids Hdone Htodo He] Ht.
  unfold checkDependencies. apply forallb_forall. intros dep Hin.
  apply list_elem_of_In in Hin.
  destruct (Hdep k task dep Ht Hin) as (j & u & Hj & Hu & Hid).
  assert (Hj' : exists u', tasks g !! j = Some u' /\ ExecutableTask.id u' = dep).
  { assert (E : (ExecutableTask.id <$> tasks g) !! j = Some dep).
    { rewrite Hids, list_lookup_fmap, Hu. simpl. now rewrite Hid. }
    rewrite list_lookup_fmap in E.
    destruct (tasks g !! j) as [u' |]; [| discriminate E].
    exists u'. split; [reflexivity |]. simpl in E. congruence. }
  destruct Hj' as (u' & Hu' & Hid').
  destruct (find_first
              (fun t => bool_decide (ExecutableTask.id t = dep)) (tasks g)
              j u' Hu' (bool_decide_eq_true_2 _ Hid'))
    as (i & x & Hi & Hx & Hf).
  rewrite Hf. apply bool_decide_eq_true_2. apply (Hdone i x); [lia | exact Hx].
Qed.

Lemma onCourse_step sorted k g w task :
  dependenciesFirst sorted ->
  Forall (fun t => ExecutableTask.status t = Pending) sorted ->
  onCourse sorted k g -> reliable w ->
  sorted !! k = Some task ->
  onCourse sorted (S k) (fst (stepGroup g w))
  /\ reliable (snd (stepGroup g w)).
Proof.
  intros Hdep Hpend Hg Hrel Ht.
  pose proof (onCourse_dependencies sorted k g task Hdep Hg Ht) as Hd.
  destruct Hg as [Hr Hn Hids Hdone Htodo He].
  assert (Htg : tasks g !! next g = Some task).
  { rewrite Hn, Htodo by lia. exact Ht. }
  assert (Hs : ExecutableTask.status task = Pending).
  { apply (proj1 (Forall_lookup _ _) Hpend k task Ht). }
  rewrite (TaskExecutorProps.stepGroup_executes g w task Hr Htg Hs Hd).
  destruct (reliable_executeTask task w Hrel) as (Ha & Hid & Hc & Hrel').
  rewrite Ha. simpl. split; [| exact Hrel'].
  set (task' := snd (fst (executeTask task w))) in *.
  split; simpl.
  - exact Hr.
  - now rewrite Hn.
  - rewrite list_fmap_insert, Hid, <- Hids. apply list_insert_id.
    now rewrite list_lookup_fmap, Htg.
  - intros i t Hi Hl. rewrite Hn in Hl.
    destruct (decide (i = k)) as [-> | Hne].
    + rewrite list_lookup_insert_eq in Hl
        by (rewrite <- Hn; now apply lookup_lt_Some in Htg).
      congruence.
    + rewrite list_lookup_insert_ne in Hl by congruence.
      apply (Hdone i t); [lia | exact Hl].
  - intros i Hi. rewrite Hn, list_lookup_insert_ne by lia.
    apply Htodo. lia.
  - rewrite He, (take_S_r _ _ _ Ht), fmap_app, Hid. reflexivity.
Qed.

Lemma onCourse_run sorted :
  dependenciesFirst sorted ->
  Forall (fun t => ExecutableTask.status t = Pending) sorted ->
  forall d k g w,
    k + d = length sorted ->
    onCourse sorted k g -> reliable w ->
    let g' := fst (stepsGroup (S d) g w) in
    returned g' = Some true
    /\ executed g' = ExecutableTask.id <$> sorted
    /\ ExecutableTask.id <$> tasks g' = ExecutableTask.id <$> sorted
    /\ Forall (fun t => ExecutableTask.status t = Completed) (tasks g')
    /\ reliable (snd (stepsGroup (S d) g w)).
Proof.
  intros Hdep Hpend d. induction d as [| d IH]; intros k g w Hk Hg Hrel.
  - destruct Hg as [Hr Hn Hids Hdone Htodo He].
    assert (Hlen : length (tasks g) = length sorted).
    { rewrite <- (length_fmap ExecutableTask.id), Hids. apply length_fmap. }
    simpl. unfold stepGroup. rewrite Hr.
    rewrite (proj2 (lookup_ge_None (tasks g) (next g))) by lia.
    simpl. split; [reflexivity |]. split; [| split; [exact Hids |]].
    + rewrite He, firstn_all2 by lia. reflexivity.
    + split; [| exact Hrel].
      apply Forall_lookup. intros i t Hi.
      apply (Hdone i t); [| exact Hi].
      apply lookup_lt_Some in Hi. lia.
  - destruct (lookup_lt_is_Some_2 sorted k) as [task Ht]; [lia |].
    destruct (onCourse_step sorted k g w task Hdep Hpend Hg Hrel Ht)
      as [Hg' Hrel'].
    rewrite TaskExecutorProps.stepsGroup_S.
    apply (IH (S k)); [lia | exact Hg' | exact Hrel'].
Qed.

(** X30. The happy path, in full: in a reliable world, a bucket of pending
    tasks that can be put in dependency order is run to the end.
    [executeTaskGroup] calls [executeTask] on every task, in the order
    [sortTasksByDependency] gave, returns [true], and leaves every task
    completed. *)
Theorem orderable_bucket_runs_in_full :
  forall (group l : list ExecutableTask.t) (w : World.t),
    group ≡ₚ l ->
    dependenciesFirst l ->
    Forall (fun t => ExecutableTask.status t = Pending) group ->
    reliable w ->
    let g := fst (executeTaskGroup group w) in
    returned g = Some true
    /\ executed g = ExecutableTask.id <$> sortTasksByDependency group
    /\ ExecutableTask.id <$> tasks g
       = ExecutableTask.id <$> sortTasksByDependency group
    /\ Forall (fun t => ExecutableTask.status t = Completed) (tasks g).
Proof.
  intros group l w Hperm Hl Hpend Hrel g. subst g.
  destruct (SortOrderProps.orderable_sorted group l Hperm Hl) as (_ & _ & Hdep).
  pose proof (TaskSortProps.sortTasks_Permutation group) as Hsp.
  assert (Hpend' : Forall (fun t => ExecutableTask.status t = Pending)
                     (sortTasksByDependency group)).
  { unfold sortTasksByDependency. now rewrite Hsp. }
  unfold executeTaskGroup, runToEnd.
  destruct (onCourse_run (sortTasksByDependency group) Hdep Hpend'
              (length (tasks (enter group)) - next (enter group)) 0
              (enter group) w) as (H1 & H2 & H3 & H4 & _).
  - simpl. lia.
  - split; simpl; auto. intros i task Hi. lia.
  - exact Hrel.
  - auto.
Qed.

Lemma orderable_bucket_runs_in_full_witness :
  returned
    (fst (executeTaskGroup [Samples.taskB; Samples.taskC; Samples.taskA]
            (SampleWorlds.world [SampleWorlds.tool "claude" "claude" 1] []
               (fun _ _ _ => SampleWorlds.exits 0 "done" ""))))
  = Some true
  /\ executed
       (fst (executeTaskGroup [Samples.taskB; Samples.taskC; Samples.taskA]
               (SampleWorlds.world [SampleWorlds.tool "claude" "claude" 1] []
                  (fun _ _ _ => SampleWorlds.exits 0 "done" ""))))
     = ExecutableTask.id
         <$> sortTasksByDependency [Samples.taskB; Samples.taskC; Samples.taskA]
  /\ ExecutableTask.id
       <$> tasks
             (fst (executeTaskGroup
                     [Samples.taskB; Samples.taskC; Samples.taskA]
                     (SampleWorlds.world
                        [SampleWorlds.tool "claude" "claude" 1] []
                        (fun _ _ _ => SampleWorlds.exits 0 "done" ""))))
     = ExecutableTask.id
         <$> sortTasksByDependency [Samples.taskB; Samples.taskC; Samples.taskA]
  /\ Forall (fun t => ExecutableTask.status t = Completed)
       (tasks
          (fst (executeTaskGroup
                  [Samples.taskB; Samples.taskC; Samples.taskA]
                  (SampleWorlds.world
                     [SampleWorlds.tool "claude" "claude" 1] []
                     (fun _ _ _ => SampleWorlds.exits 0 "done" ""))))).
Proof.
  apply (orderable_bucket_runs_in_full
           [Samples.taskB; Samples.taskC; Samples.taskA]
           [Samples.taskA; Samples.taskB; Samples.taskC]
           (SampleWorlds.world [SampleWorlds.tool "claude" "claude" 1] []
              (fun _ _ _ => SampleWorlds.exits 0 "done" ""))).
  - apply (Permutation_app_comm [Samples.taskB; Samples.taskC] [Samples.taskA]).
  - apply SortOrderProps.prerequisite_first.
  - repeat constructor.
  - split.
    + exists (SampleWorlds.config [SampleWorlds.tool "claude" "claude" 1]),
        (SampleWorlds.tool "claude" "claude" 1).
      repeat split.
    + intros cmd args n. exists "done"%string, ""%string.
      split; reflexivity.
Defined.

End FullRunProps.

(** ** The two bucket runs side by side *)
Module BucketRunProps.
Import Types Promises Filesystem StorageCalls TaskExecutor TaskExecutorCalls.
Import SortOrderSpec FullRunSpec RelySpec BucketRunSpec.

Local Open Scope nat_scope.

Ltac unmonad := unfold mbind, Promise_bind, mret, Promise_ret in *.

(** *** Operations and what they keep *)

Lemma sync_never_fails op (r : Reply op) : awaited op = false -> failed op r = false.
Proof. destruct op; simpl; intros H; try reflexivity; discriminate H. Qed.

Section Rely.
Context (config : ToolsConfig.t).
Context (procs : string -> list string -> nat -> World.ProcRun).

Lemma perform_steady op m :
  sparing op = true -> steady config procs m ->
  steady config procs (snd (perform op m)).
Proof.
  intros Hs [Hf Hp].
  assert (Hput : forall p data,
             p <> toolsJson ->
             put p data (files m) toolsJson = Some (ConfigData config)).
  { intros p data Hne. unfold put.
    rewrite bool_decide_eq_false_2 by congruence. exact Hf. }
  destruct op; cbn [sparing] in Hs; unfold perform;
    try (split; assumption).
  - apply negb_true_iff, bool_decide_eq_false in Hs.
    destruct (dirs m (dirname p)); (split; [| assumption]); [| assumption].
    cbn [snd files withFiles]. now apply Hput.
  - apply andb_true_iff in Hs as [H1 H2].
    apply negb_true_iff, bool_decide_eq_false in H1.
    apply negb_true_iff, bool_decide_eq_false in H2.
    destruct (files m oldPath); (split; [| assumption]); [| assumption].
    cbn [snd files withFiles]. unfold put at 1.
    rewrite bool_decide_eq_false_2 by congruence. now apply Hput.
  - apply negb_true_iff, bool_decide_eq_false in Hs.
    destruct (dirs m (dirname p)); (split; [| assumption]); [| assumption].
    cbn [snd files withFiles]. now apply Hput.
  - destruct (_ && _); split; assumption.
Qed.

Lemma allSparing_bind {A B} (p : Promise A) (f : A -> Promise B) :
  allSparing p -> (forall a, allSparing (f a)) -> allSparing (bind p f).
Proof.
  intros Hp Hf. induction p as [a | e | op k IH]; simpl; auto.
  destruct Hp as [H1 H2]. split; [exact H1 |]. intros r. apply IH, H2.
Qed.

Lemma allSparing_tryCatch {A} (p : Promise A) (h : string -> Promise A) :
  allSparing p -> (forall e, allSparing (h e)) -> allSparing (tryCatch p h).
Proof.
  intros Hp Hh. induction p as [a | e | op k IH]; simpl; auto.
  destruct Hp as [H1 H2]. split; [exact H1 |]. intros r. apply IH, H2.
Qed.

Lemma returns_mono {A} (p : Promise A) (Q Q' : A -> Prop) :
  (forall a, Q a -> Q' a) ->
  returns config procs p Q -> returns config procs p Q'.
Proof.
  intros HQ. induction p as [a | e | op k IH]; simpl; eauto.
Qed.

Lemma returns_bind {A B} (p : Promise A) (f : A -> Promise B) Q :
  returns config procs p (fun a => returns config procs (f a) Q) ->
  returns config procs (bind p f) Q.
Proof.
  induction p as [a | e | op k IH]; simpl; eauto.
Qed.

(** A [try] block that returns is not affected by its [catch] block. *)
Lemma returns_tryCatch {A} (p : Promise A) (h : string -> Promise A) Q :
  returns config procs p Q -> returns config procs (tryCatch p h) Q.
Proof.
  induction p as [a | e | op k IH]; simpl; eauto. contradiction.
Qed.

(** *** Running a call *)

Lemma syncPart_keeps {A} (p : Promise A) Q : forall m,
  allSparing p -> steady config procs m ->
  allSparing (fst (syncPart p m))
  /\ steady config procs (snd (syncPart p m))
  /\ (returns config procs p Q ->
      returns config procs (fst (syncPart p m)) Q).
Proof.
  induction p as [a | e | op k IH]; intros m Hp Hm; simpl; auto.
  destruct (awaited op) eqn:Ha; simpl; auto.
  destruct Hp as [H1 H2].
  destruct (IH (fst (perform op m)) (snd (perform op m)) (H2 _)
              (perform_steady op m H1 Hm)) as (I1 & I2 & I3).
  split; [exact I1 |]. split; [exact I2 |].
  intros H. apply I3, H; [exact Hm |]. now apply sync_never_fails.
Qed.

Lemma resume_keeps {A} (p : Promise A) Q m :
  allSparing p -> steady config procs m ->
  allSparing (fst (fst (resume p m)))
  /\ steady config procs (snd (fst (resume p m)))
  /\ (returns config procs p Q -> snd (resume p m) = [] ->
      returns config procs (fst (fst (resume p m))) Q).
Proof.
  intros Hp Hm. destruct p as [a | e | op k]; simpl; auto.
  destruct Hp as [H1 H2].
  destruct (syncPart_keeps (k (fst (perform op m))) Q (snd (perform op m))
              (H2 _) (perform_steady op m H1 Hm)) as (I1 & I2 & I3).
  split; [exact I1 |]. split; [exact I2 |].
  intros H Hn. apply I3, H; [exact Hm |].
  destruct (failed op (fst (perform op m))); [discriminate Hn | reflexivity].
Qed.

Lemma complete_keeps {A} (p : Promise A) Q : forall m,
  allSparing p -> steady config procs m ->
  steady config procs (snd (fst (complete p m)))
  /\ (returns config procs p Q -> snd (complete p m) = [] ->
      exists a, fst (fst (complete p m)) = Fulfilled a /\ Q a).
Proof.
  induction p as [a | e | op k IH]; intros m Hp Hm; simpl.
  - split; [exact Hm |]. intros H _. eauto.
  - split; [exact Hm |]. intros H. contradiction.
  - destruct Hp as [H1 H2].
    destruct (IH (fst (perform op m)) (snd (perform op m)) (H2 _)
                (perform_steady op m H1 Hm)) as (I1 & I2).
    destruct (complete (k (fst (perform op m))) (snd (perform op m)))
      as [[s m'] errs] eqn:E. simpl in *.
    split; [exact I1 |]. intros H Hn.
    apply app_eq_nil in Hn as [Hn1 Hn2].
    apply I2; [| exact Hn2]. apply H; [exact Hm |].
    destruct (failed op (fst (perform op m))); [discriminate Hn1 | reflexivity].
Qed.

Lemma returns_seq {A B} (p : Promise A) (f : A -> Promise B) P Q :
  returns config procs p P ->
  (forall a, P a -> returns config procs (f a) Q) ->
  returns config procs (bind p f) Q.
Proof.
  intros Hp Hf. apply returns_bind.
  revert Hp. apply returns_mono. exact Hf.
Qed.

Lemma allSparing_call {B} op (f : Reply op -> Promise B) :
  sparing op = true -> (forall r, allSparing (f r)) ->
  allSparing (bind (call op) f).
Proof. simpl. auto. Qed.

Lemma returns_call {B} op (f : Reply op -> Promise B) Q :
  (forall m, steady config procs m ->
             failed op (fst (perform op m)) = false ->
             returns config procs (f (fst (perform op m))) Q) ->
  returns config procs (bind (call op) f) Q.
Proof. simpl. auto. Qed.

(** *** The file system and the storage functions *)

Lemma ensureDir_sparing d : allSparing (ensureDir d).
Proof.
  unfold ensureDir. unmonad. simpl. split; [reflexivity |].
  intros []; simpl; auto.
Qed.

Lemma ensureDir_returns d : returns config procs (ensureDir d) (fun _ => True).
Proof.
  unfold ensureDir. unmonad. simpl. intros m _ _.
  destruct (dirs m d); simpl; auto.
Qed.

Lemma readJSON_sparing p : allSparing (readJSON p).
Proof.
  unfold readJSON. unmonad. simpl. split; [reflexivity |].
  intros [c | e]; simpl; auto.
Qed.

Lemma readJSON_returns p (Q : option Content -> Prop) :
  (forall c, Q c) -> returns config procs (readJSON p) Q.
Proof.
  intros HQ. unfold readJSON. unmonad. simpl. intros m _ _.
  destruct (files m p); simpl; auto.
Qed.

Lemma readJSON_config :
  returns config procs (readJSON toolsJson)
    (fun c => c = Some (ConfigData config)).
Proof.
  unfold readJSON. unmonad. simpl. intros m [Hf _] _.
  rewrite Hf. reflexivity.
Qed.

Lemma writeJSON_sparing p data :
  p <> toolsJson -> allSparing (writeJSON p data).
Proof.
  intros Hp. unfold writeJSON. unmonad.
  apply allSparing_bind; [apply ensureDir_sparing |]. intros _.
  simpl. split; [reflexivity |]. intros [[] | e]; simpl; [| exact I].
  split; [| intros [[] | e']; exact I].
  now rewrite bool_decide_eq_false_2.
Qed.

Lemma writeJSON_returns p data :
  returns config procs (writeJSON p data) (fun _ => True).
Proof.
  unfold writeJSON. unmonad.
  apply (returns_seq _ _ _ _ (ensureDir_returns _)). intros _ _.
  simpl. intros m _ Hok.
  destruct (dirs m (dirname p)); [| discriminate Hok]. simpl.
  intros m' _ Hok'.
  destruct (files m' (tmp p)); [| discriminate Hok']. exact I.
Qed.

Lemma appendText_sparing p line :
  p <> toolsJson -> allSparing (appendText p line).
Proof.
  intros Hp. unfold appendText. unmonad.
  apply allSparing_bind; [apply ensureDir_sparing |]. intros _.
  simpl. split; [| intros [[] | e]; exact I].
  now rewrite bool_decide_eq_false_2.
Qed.

Lemma appendText_returns p line :
  returns config procs (appendText p line) (fun _ => True).
Proof.
  unfold appendText. unmonad.
  apply (returns_seq _ _ _ _ (ensureDir_returns _)). intros _ _.
  simpl. intros m _ Hok.
  destruct (dirs m (dirname p)); [| discriminate Hok]. exact I.
Qed.

Lemma appendLog_sparing feedbackId message level :
  allSparing (appendLog feedbackId message level).
Proof.
  unfold appendLog. unmonad.
  apply allSparing_bind; [apply ensureDir_sparing |]. intros _.
  apply allSparing_call; [reflexivity |]. intros now.
  now apply appendText_sparing.
Qed.

Lemma appendLog_returns feedbackId message level :
  returns config procs (appendLog feedbackId message level) (fun _ => True).
Proof.
  unfold appendLog. unmonad.
  apply (returns_seq _ _ _ _ (ensureDir_returns _)). intros _ _.
  apply returns_call. intros m _ _. apply appendText_returns.
Qed.

Lemma loadToolsConfig_sparing : allSparing loadToolsConfig.
Proof.
  unfold loadToolsConfig. unmonad.
  apply allSparing_bind; [apply readJSON_sparing |]. intros c. exact I.
Qed.

Lemma loadToolsConfig_returns :
  returns config procs loadToolsConfig (fun c => c = Some config).
Proof.
  unfold loadToolsConfig. unmonad.
  apply (returns_seq _ _ _ _ readJSON_config). intros c ->. reflexivity.
Qed.

Lemma loadToolStatus_sparing : allSparing loadToolStatus.
Proof.
  unfold loadToolStatus. unmonad.
  apply allSparing_bind; [apply readJSON_sparing |]. intros c. exact I.
Qed.

Lemma loadToolStatus_returns :
  returns config procs loadToolStatus (fun _ => True).
Proof.
  unfold loadToolStatus. unmonad.
  apply (returns_seq _ _ (fun _ => True)); [now apply readJSON_returns |].
  intros c _. exact I.
Qed.

Lemma updateToolStatus_sparing toolName updates :
  allSparing (updateToolStatus toolName updates).
Proof.
  unfold updateToolStatus, saveToolStatus. unmonad.
  apply allSparing_bind; [apply loadToolStatus_sparing |]. intros statuses.
  now apply writeJSON_sparing.
Qed.

Lemma updateToolStatus_returns toolName updates :
  returns config procs (updateToolStatus toolName updates) (fun _ => True).
Proof.
  unfold updateToolStatus, saveToolStatus. unmonad.
  apply (returns_seq _ _ _ _ loadToolStatus_returns). intros statuses _.
  apply writeJSON_returns.
Qed.

Lemma saveTaskResult_sparing feedbackId task :
  allSparing (saveTaskResult feedbackId task).
Proof.
  unfold saveTaskResult. unmonad.
  apply allSparing_bind; [apply readJSON_sparing |]. intros c.
  destruct (option_bind _ _ asTasks c) as [existingTasks |]; [| exact I].
  destruct (findIndex _ _); [| exact I].
  now apply writeJSON_sparing.
Qed.

Lemma saveTaskResult_returns feedbackId task :
  returns config procs (saveTaskResult feedbackId task) (fun _ => True).
Proof.
  unfold saveTaskResult. unmonad.
  apply (returns_seq _ _ (fun _ => True)); [now apply readJSON_returns |].
  intros c _.
  destruct (option_bind _ _ asTasks c) as [existingTasks |]; [| exact I].
  destruct (findIndex _ _); [| exact I].
  apply writeJSON_returns.
Qed.

(** *** The adapter *)

Lemma execCommand_sparing a prompt timeout :
  allSparing (ClaudeCodeAdapterCalls.execCommand a prompt timeout).
Proof.
  unfold ClaudeCodeAdapterCalls.execCommand. unmonad.
  apply allSparing_call; [reflexivity |]. intros proc.
  apply allSparing_call; [reflexivity |]. intros [| [code out err | e]];
    [exact I | | exact I].
  case_bool_decide; exact I.
Qed.

Lemma adapter_execute_sparing a prompt timeout :
  allSparing (ClaudeCodeAdapterCalls.execute a prompt timeout).
Proof.
  unfold ClaudeCodeAdapterCalls.execute. unmonad.
  apply allSparing_call; [reflexivity |]. intros startTime.
  apply allSparing_tryCatch.
  - apply allSparing_bind; [apply execCommand_sparing |]. intros output.
    apply allSparing_call; [reflexivity |]. intros now. exact I.
  - intros e. apply allSparing_call; [reflexivity |]. intros now. exact I.
Qed.

(** A child that succeeds gives a result with exit code 0. *)
Lemma adapter_execute_returns prompt :
  childSucceeds procs prompt ->
  returns config procs
    (ClaudeCodeAdapterCalls.execute AICliAdapter.claude prompt None)
    (fun result => ExecuteResult.exitCode result = 0%Z).
Proof.
  intros Hchild.
  unfold ClaudeCodeAdapterCalls.execute, ClaudeCodeAdapterCalls.execCommand. unmonad.
  apply returns_call. intros m0 _ _.
  apply returns_tryCatch.
  apply returns_bind. apply returns_call. intros m1 [_ Hp] _.
  apply returns_call. intros m2 _ _.
  cbn [perform fst run spawnedAt AICliAdapter.claude
       ClaudeCodeAdapter.command ClaudeCodeAdapter.baseArgs default app].
  rewrite Hp.
  destruct (Hchild (length (spawned m1))) as (out & err & He & Hms).
  unfold argsFor in He, Hms.
  change (timerDelay 300000) with 300000%Z.
  rewrite (proj2 (Z.leb_gt _ _) Hms), andb_false_r.
  cbn [fst]. rewrite He. rewrite bool_decide_eq_true_2 by reflexivity.
  apply returns_call. intros m3 _ _. reflexivity.
Qed.

Lemma markSuccess_sparing toolName responseTimeMs :
  allSparing (AICliAdapterCalls.markSuccess toolName responseTimeMs).
Proof.
  unfold AICliAdapterCalls.markSuccess. unmonad.
  apply allSparing_call; [reflexivity |]. intros now.
  apply updateToolStatus_sparing.
Qed.

Lemma markSuccess_returns toolName responseTimeMs :
  returns config procs (AICliAdapterCalls.markSuccess toolName responseTimeMs)
    (fun _ => True).
Proof.
  unfold AICliAdapterCalls.markSuccess. unmonad.
  apply returns_call. intros m _ _. apply updateToolStatus_returns.
Qed.

Lemma markFailed_sparing toolName reason :
  allSparing (AICliAdapterCalls.markFailed toolName reason).
Proof.
  unfold AICliAdapterCalls.markFailed. unmonad.
  apply allSparing_bind; [apply loadToolStatus_sparing |]. intros statuses.
  apply allSparing_call; [reflexivity |]. intros now.
  apply updateToolStatus_sparing.
Qed.

Lemma tryTool_sparing adapter prompt options tool :
  allSparing (AICliAdapterCalls.tryTool adapter prompt options tool).
Proof.
  unfold AICliAdapterCalls.tryTool. unmonad.
  apply allSparing_tryCatch.
  - apply allSparing_bind; [apply adapter_execute_sparing |]. intros result.
    destruct (_ =? _)%Z.
    + apply allSparing_bind; [apply markSuccess_sparing |]. intros _. exact I.
    + apply allSparing_bind; [apply markFailed_sparing |]. intros _. exact I.
  - intros e.
    apply allSparing_bind; [apply markFailed_sparing |]. intros _. exact I.
Qed.

Lemma tryTool_returns prompt tool :
  childSucceeds procs prompt ->
  returns config procs
    (AICliAdapterCalls.tryTool AICliAdapter.claude prompt AICliAdapter.noOptions
       tool)
    (fun turn =>
       exists result,
         turn = AICliAdapterCalls.Returns result
         /\ ExecuteResult.exitCode result = 0%Z).
Proof.
  intros Hchild. unfold AICliAdapterCalls.tryTool. unmonad.
  apply returns_tryCatch.
  apply (returns_seq _ _ _ _ (adapter_execute_returns prompt Hchild)).
  intros result Hr. cbn [AICliAdapter.timeout AICliAdapter.noOptions] in *.
  rewrite Hr. cbn [Z.eqb].
  apply (returns_seq _ _ _ _ (markSuccess_returns _ _)). intros _ _.
  exists result. auto.
Qed.

Lemma tryTools_sparing prompt options toolPool :
  forall lastError,
    allSparing (AICliAdapterCalls.tryTools prompt options toolPool lastError).
Proof.
  induction toolPool as [| tool rest IH]; intros lastError;
    cbn [AICliAdapterCalls.tryTools]; [exact I |].
  destruct (AICliAdapter.notPreferred options tool); [apply IH |].
  destruct (AICliAdapter.adapters !! ToolStatus.name tool); [| apply IH].
  unmonad.
  apply allSparing_bind; [apply tryTool_sparing |].
  intros [result | message | message]; [exact I | apply IH | exact I].
Qed.

(** The loop reaches the first candidate named [claude], whose child
    succeeds. *)
Lemma tryTools_returns prompt toolPool :
  childSucceeds procs prompt ->
  (exists tool, tool ∈ toolPool /\ ToolStatus.name tool = "claude"%string) ->
  forall lastError,
    returns config procs
      (AICliAdapterCalls.tryTools prompt AICliAdapter.noOptions toolPool lastError)
      (fun result => ExecuteResult.exitCode result = 0%Z).
Proof.
  intros Hchild.
  induction toolPool as [| tool rest IH]; intros (t & Hin & Hname) lastError.
  - now apply elem_of_nil in Hin.
  - cbn [AICliAdapterCalls.tryTools AICliAdapter.notPreferred
         AICliAdapter.preferredTool AICliAdapter.noOptions].
    destruct (AICliAdapter.adapters !! ToolStatus.name tool)
      as [adapter |] eqn:Ea.
    + apply AdapterProps.adapters_claude in Ea as [_ ->]. unmonad.
      apply (returns_seq _ _ _ _ (tryTool_returns prompt tool Hchild)).
      intros turn (result & -> & Hr). exact Hr.
    + apply IH. apply elem_of_cons in Hin as [-> | Hin]; [| eauto].
      rewrite Hname in Ea. discriminate Ea.
Qed.

Lemma getOrderedToolPool_sparing : allSparing AICliAdapterCalls.getOrderedToolPool.
Proof.
  unfold AICliAdapterCalls.getOrderedToolPool. unmonad.
  apply allSparing_bind; [apply loadToolsConfig_sparing |].
  intros [c |]; [| exact I].
  apply allSparing_bind; [apply loadToolStatus_sparing |]. intros statuses.
  apply allSparing_call; [reflexivity |]. intros now.
  apply allSparing_call; [reflexivity |]. intros cooldownMs. exact I.
Qed.

(** The pool holds an entry for every enabled tool. *)
Lemma getOrderedToolPool_returns :
  enablesClaude config ->
  returns config procs AICliAdapterCalls.getOrderedToolPool
    (fun toolPool =>
       exists tool,
         tool ∈ toolPool /\ ToolStatus.name tool = "claude"%string).
Proof.
  intros (tc & Hin & Hen & Hname).
  unfold AICliAdapterCalls.getOrderedToolPool. unmonad.
  apply (returns_seq _ _ _ _ loadToolsConfig_returns). intros c ->.
  apply (returns_seq _ _ _ _ loadToolStatus_returns). intros statuses _.
  apply returns_call. intros m1 _ _. apply returns_call. intros m2 _ _.
  cbn [returns].
  exists (AICliAdapter.poolEntry statuses (fst (perform DateNow m1))
            (fst (perform GetCooldown m2)) tc).
  split; [| now rewrite AdapterProps.poolEntry_name].
  rewrite AdapterProps.sort_Permutation.
  apply list_elem_of_fmap_2. apply list_elem_of_In, filter_In.
  split; [now apply list_elem_of_In | exact Hen].
Qed.

Lemma execute_sparing prompt options :
  allSparing (AICliAdapterCalls.execute prompt options).
Proof.
  unfold AICliAdapterCalls.execute. unmonad.
  apply allSparing_bind; [apply loadToolsConfig_sparing |].
  intros [c |]; [| exact I].
  apply allSparing_call; [reflexivity |]. intros _.
  apply allSparing_bind; [apply getOrderedToolPool_sparing |]. intros toolPool.
  case_bool_decide; [exact I | apply tryTools_sparing].
Qed.

Lemma execute_returns prompt :
  enablesClaude config -> childSucceeds procs prompt ->
  returns config procs (AICliAdapterCalls.execute prompt AICliAdapter.noOptions)
    (fun result => ExecuteResult.exitCode result = 0%Z).
Proof.
  intros Htool Hchild. unfold AICliAdapterCalls.execute. unmonad.
  apply (returns_seq _ _ _ _ loadToolsConfig_returns). intros c ->.
  apply returns_call. intros m _ _.
  apply (returns_seq _ _ _ _ (getOrderedToolPool_returns Htool)).
  intros toolPool Hpool.
  rewrite bool_decide_eq_false_2.
  - now apply tryTools_returns.
  - destruct Hpool as (tool & Hin & _). intros Hlen.
    apply nil_length_inv in Hlen. subst toolPool.
    now apply elem_of_nil in Hin.
Qed.

(** *** The executor *)

Lemma executeTask_sparing feedbackId task :
  allSparing (executeTask feedbackId task).
Proof.
  unfold executeTask. unmonad.
  apply allSparing_call; [reflexivity |]. intros startTime.
  apply allSparing_tryCatch.
  - apply allSparing_bind; [apply saveTaskResult_sparing |]. intros _.
    apply allSparing_bind; [apply execute_sparing |]. intros result.
    apply allSparing_call; [reflexivity |]. intros now.
    apply allSparing_bind; [apply saveTaskResult_sparing |]. intros _.
    apply allSparing_bind; [apply appendLog_sparing |]. intros _. exact I.
  - intros e. apply allSparing_call; [reflexivity |]. intros now.
    apply allSparing_bind; [apply saveTaskResult_sparing |]. intros _.
    apply allSparing_bind; [apply appendLog_sparing |]. intros _. exact I.
Qed.

Lemma executeTask_returns feedbackId task :
  enablesClaude config -> childSucceeds procs (buildTaskPrompt task) ->
  returns config procs (executeTask feedbackId task)
    (fun answer =>
       fst answer = true
       /\ ExecutableTask.id (snd answer) = ExecutableTask.id task
       /\ ExecutableTask.status (snd answer) = Completed).
Proof.
  intros Htool Hchild. unfold executeTask. unmonad.
  apply returns_call. intros m0 _ _.
  apply returns_tryCatch.
  apply (returns_seq _ _ _ _ (saveTaskResult_returns _ _)). intros _ _.
  apply (returns_seq _ _ _ _ (execute_returns _ Htool Hchild)).
  intros result Hr.
  apply returns_call. intros m1 _ _.
  apply (returns_seq _ _ _ _ (saveTaskResult_returns _ _)). intros _ _.
  apply (returns_seq _ _ _ _ (appendLog_returns _ _ _)). intros _ _.
  cbn [returns fst snd]. rewrite Hr. auto.
Qed.

Lemma forOf_sparing feedbackId n :
  forall g, allSparing (forOf feedbackId n g).
Proof.
  induction n as [| n IH]; intros g; cbn [forOf]; [exact I |].
  destruct (tasks g !! next g) as [task |]; [| exact I]. unmonad.
  apply allSparing_call; [reflexivity |]. intros now.
  destruct (negb (StateMachine.canStart _)).
  { apply allSparing_bind; [apply appendLog_sparing |]. intros _. apply IH. }
  destruct (negb (checkDependencies task (tasks g))).
  { apply allSparing_bind; [apply appendLog_sparing |]. intros _. apply IH. }
  apply allSparing_bind; [apply appendLog_sparing |]. intros _.
  apply allSparing_bind; [apply executeTask_sparing |]. intros [result task'].
  cbn [fst snd]. destruct result.
  - apply allSparing_bind; [apply appendLog_sparing |]. intros _. apply IH.
  - apply allSparing_bind; [apply appendLog_sparing |]. intros _. exact I.
Qed.

Lemma promiseOf_sparing feedbackId group groupName :
  allSparing (promiseOf feedbackId group groupName).
Proof.
  unfold promiseOf, executeTaskGroup. case_bool_decide; [| exact I]. unmonad.
  apply allSparing_bind; [apply appendLog_sparing |]. intros _.
  apply forOf_sparing.
Qed.

(** The run after one more task went well. *)
Lemma onCourse_ran sorted k g task task' :
  onCourse sorted k g ->
  sorted !! k = Some task ->
  ExecutableTask.id task' = ExecutableTask.id task ->
  ExecutableTask.status task' = Completed ->
  onCourse sorted (S k) (skip (ran task' g)).
Proof.
  intros [Hr Hn Hids Hdone Htodo He] Ht Hid Hc.
  assert (Htg : tasks g !! next g = Some task).
  { rewrite Hn, Htodo by lia. exact Ht. }
  split; simpl.
  - exact Hr.
  - now rewrite Hn.
  - rewrite list_fmap_insert, Hid, <- Hids. apply list_insert_id.
    now rewrite list_lookup_fmap, Htg.
  - intros i t Hi Hl. rewrite Hn in Hl.
    destruct (decide (i = k)) as [-> | Hne].
    + rewrite list_lookup_insert_eq in Hl
        by (rewrite <- Hn; now apply lookup_lt_Some in Htg).
      congruence.
    + rewrite list_lookup_insert_ne in Hl by congruence.
      apply (Hdone i t); [lia | exact Hl].
  - intros i Hi. rewrite Hn, list_lookup_insert_ne by lia.
    apply Htodo. lia.
  - rewrite He, (take_S_r _ _ _ Ht), fmap_app, Hid. reflexivity.
Qed.

Lemma forOf_returns feedbackId sorted :
  enablesClaude config ->
  dependenciesFirst sorted ->
  Forall (fun t => ExecutableTask.status t = Pending) sorted ->
  (forall task, task ∈ sorted -> childSucceeds procs (buildTaskPrompt task)) ->
  forall d k g,
    k + d = length sorted ->
    onCourse sorted k g ->
    returns config procs (forOf feedbackId d g)
      (fun g' =>
         returned g' = Some true
         /\ executed g' = ExecutableTask.id <$> sorted
         /\ ExecutableTask.id <$> tasks g' = ExecutableTask.id <$> sorted
         /\ Forall (fun t => ExecutableTask.status t = Completed) (tasks g')).
Proof.
  intros Htool Hdep Hpend Hchild d.
  induction d as [| d IH]; intros k g Hk Hg.
  - destruct Hg as [Hr Hn Hids Hdone Htodo He].
    assert (Hlen : length (tasks g) = length sorted).
    { rewrite <- (length_fmap ExecutableTask.id), Hids. apply length_fmap. }
    cbn [forOf returns finish returned executed tasks].
    split; [reflexivity |]. split; [| split; [exact Hids |]].
    + rewrite He, firstn_all2 by lia. reflexivity.
    + apply Forall_lookup. intros i t Hi.
      apply (Hdone i t); [| exact Hi].
      apply lookup_lt_Some in Hi. lia.
  - destruct (lookup_lt_is_Some_2 sorted k) as [task Ht]; [lia |].
    pose proof (FullRunProps.onCourse_dependencies sorted k g task Hdep Hg Ht)
      as Hd.
    assert (Htg : tasks g !! next g = Some task).
    { destruct Hg as [Hr Hn Hids Hdone Htodo He].
      rewrite Hn, Htodo by lia. exact Ht. }
    assert (Hs : ExecutableTask.status task = Pending).
    { apply (proj1 (Forall_lookup _ _) Hpend k task Ht). }
    cbn [forOf]. rewrite Htg. unmonad.
    apply returns_call. intros m _ _.
    unfold StateMachine.canStart, StateMachine.getStatus,
      StateMachine.TaskStateMachine, StateMachine.constructor,
      StateMachine.recordState. cbn [StateMachine.currentStatus].
    rewrite Hs, bool_decide_eq_true_2 by reflexivity. cbn [negb].
    rewrite Hd. cbn [negb].
    apply (returns_seq _ _ _ _ (appendLog_returns _ _ _)). intros _ _.
    apply (returns_seq _ _ _ _
             (executeTask_returns feedbackId task Htool
                (Hchild task (list_elem_of_lookup_2 _ _ _ Ht)))).
    intros [result task'] (Hres & Hid & Hc). cbn [fst snd] in *. subst result.
    apply (returns_seq _ _ _ _ (appendLog_returns _ _ _)). intros _ _.
    apply (IH (S k)); [lia |].
    now apply (onCourse_ran sorted k g task).
Qed.

(** *** The two calls side by side *)

Lemma clean_app (side side' : Side) (fs : list (Side * Op)) (errs : list Op) :
  (forall op, (side, op) ∉ fs ++ ((fun op => (side', op)) <$> errs)) ->
  (forall op, (side, op) ∉ fs) /\ (side' = side -> errs = []).
Proof.
  intros H. split.
  - intros op Hin. apply (H op). apply elem_of_app. now left.
  - intros ->. destruct errs as [| op errs]; [reflexivity |].
    exfalso. apply (H op). apply elem_of_app. right. simpl. left.
Qed.

Lemma resumed_onTrack side Q side' s :
  onTrack config procs side Q s ->
  onTrack config procs side Q (resumed side' s).
Proof.
  intros (Hb & Hf & Hm & Hr). unfold resumed.
  pose proof (resume_keeps (callOf side' s) Q (machine s)) as Hk.
  destruct (resume (callOf side' s) (machine s)) as [[p m] errs].
  cbn [fst snd] in Hk.
  destruct side'; cbn [callOf] in Hk;
    destruct (Hk ltac:(assumption) Hm) as (K1 & K2 & K3);
    (split; [assumption |]); (split; [assumption |]);
    (split; [assumption |]); cbn [failures callOf];
    intros Hclean; apply clean_app in Hclean as [Hc He];
    destruct side; cbn [callOf] in *; auto.
Qed.

Lemma interleave_onTrack side Q schedule :
  forall s,
    onTrack config procs side Q s ->
    onTrack config procs side Q (interleave schedule s).
Proof.
  unfold interleave.
  induction schedule as [| side' schedule IH]; intros s Hs; [exact Hs |].
  simpl. apply IH. now apply resumed_onTrack.
Qed.

Lemma completed_onTrack side Q side' s :
  onTrack config procs side Q s ->
  onTrack config procs side Q (completed side' s).
Proof.
  intros (Hb & Hf & Hm & Hr). unfold completed.
  pose proof (complete_keeps (callOf side' s) Q (machine s)) as Hk.
  destruct (complete (callOf side' s) (machine s)) as [[ended m] errs].
  cbn [fst snd] in Hk.
  assert (Ho : allSparing (over ended)) by (destruct ended; exact I).
  destruct side'; cbn [callOf] in Hk;
    destruct (Hk ltac:(assumption) Hm) as (K1 & K2);
    (split; [assumption |]); (split; [assumption |]);
    (split; [assumption |]); cbn [failures callOf];
    intros Hclean; apply clean_app in Hclean as [Hc He];
    destruct side; cbn [callOf] in *; auto;
    destruct (K2 (Hr Hc) (He eq_refl)) as (g & -> & Hg); exact Hg.
Qed.

Lemma completed_over side s :
  exists ended, callOf side (completed Front (completed Back s)) = over ended.
Proof.
  unfold completed at 1.
  destruct (complete (callOf Front (completed Back s)) _) as [[ef m2] e2].
  destruct side; cbn [callOf front back]; [| eauto].
  unfold completed.
  destruct (complete (callOf Back s) _) as [[eb m1] e1].
  cbn [back]. eauto.
Qed.

(** Both calls over, the one that was followed has returned with [Q]
    when none of its writes was rejected. *)
Lemma settled_onTrack side Q s :
  onTrack config procs side Q s ->
  (forall op, (side, op) ∉ failures (completed Front (completed Back s))) ->
  exists g,
    callOf side (completed Front (completed Back s)) = Return g /\ Q g.
Proof.
  intros Hs Hclean.
  destruct (completed_onTrack side Q Front _
              (completed_onTrack side Q Back _ Hs)) as (_ & _ & _ & Hr).
  specialize (Hr Hclean).
  destruct (completed_over side s) as [[g | e] E]; rewrite E in Hr |- *;
    cbn [over returns] in *; [eauto | contradiction].
Qed.

End Rely.

(** *** Rejections *)

Lemma noted_None p seen :
  noted p seen = None
  <-> seen = None /\ forall message, p <> Throw message.
Proof.
  unfold noted. destruct seen as [e |].
  - split; [discriminate | intros [H _]; discriminate H].
  - destruct p as [g | e | op k]; split; try (intros _; split; congruence);
      try reflexivity; try discriminate.
    intros [_ H]. now destruct (H e).
Qed.

Lemma resume_rejected {A} (p : Promise A) m message :
  p = Throw message -> fst (fst (resume p m)) = Throw message.
Proof. now intros ->. Qed.

Lemma resumed_rejectionNoted side s :
  rejectionNoted s -> rejectionNoted (resumed side s).
Proof.
  unfold rejectionNoted, resumed. intros Hs.
  pose proof (resume_rejected (callOf side s) (machine s)) as Hrej.
  destruct (resume (callOf side s) (machine s)) as [[p m] errs].
  cbn [fst] in Hrej. cbn [rejection back front].
  rewrite noted_None, Hs.
  destruct side; cbn [callOf] in Hrej; split.
  - intros [[_ Hf] Hp]. auto.
  - intros [Hp Hf]. split; [| exact Hp]. split; [| exact Hf].
    intros message E. apply (Hp message). now apply Hrej.
  - intros [[Hb _] Hp]. auto.
  - intros [Hb Hp]. split; [| exact Hp]. split; [exact Hb |].
    intros message E. apply (Hp message). now apply Hrej.
Qed.

Lemma interleave_rejectionNoted schedule :
  forall s, rejectionNoted s -> rejectionNoted (interleave schedule s).
Proof.
  unfold interleave.
  induction schedule as [| side schedule IH]; intros s Hs; [exact Hs |].
  simpl. apply IH. now apply resumed_rejectionNoted.
Qed.

Lemma complete_rejected {A} (p : Promise A) m message :
  p = Throw message -> fst (fst (complete p m)) = Rejected message.
Proof. now intros ->. Qed.

Lemma completed_rejectionNoted side s :
  rejectionNoted s -> rejectionNoted (completed side s).
Proof.
  unfold rejectionNoted, completed. intros Hs.
  pose proof (complete_rejected (callOf side s) (machine s)) as Hrej.
  destruct (complete (callOf side s) (machine s)) as [[ended m] errs].
  cbn [fst] in Hrej. cbn [rejection back front].
  rewrite noted_None, Hs.
  destruct side; cbn [callOf] in Hrej; split.
  - intros [[_ Hf] Hp]. auto.
  - intros [Hp Hf]. split; [| exact Hp]. split; [| exact Hf].
    intros message E. apply (Hp message). now rewrite (Hrej _ E).
  - intros [[Hb _] Hp]. auto.
  - intros [Hb Hp]. split; [| exact Hp]. split; [exact Hb |].
    intros message E. apply (Hp message). now rewrite (Hrej _ E).
Qed.

(** [appendLog], awaited with nothing else running, is fulfilled: it
    makes the directory it appends in. *)
Lemma appendLog_alone feedbackId message level m :
  fst (fst (complete (appendLog feedbackId message level) m)) = Fulfilled tt.
Proof.
  assert (Hmade : forall d f, made d f d = true).
  { intros d f. unfold made. now rewrite bool_decide_eq_true_2. }
  unfold appendLog, appendText, ensureDir, orThrow, call. unmonad.
  cbn [bind complete perform fst snd dirname].
  destruct (dirs m (debugDir feedbackId)) eqn:E;
    repeat first
      [ rewrite E | rewrite Hmade
      | progress cbn [negb bind complete perform fst snd dirs withDirs
                      clock dirname] ];
    reflexivity.
Qed.

(** *** [execute] *)

Lemma execute_shape schedule feedbackId batch m :
  let m0 :=
    snd (fst (complete
                (appendLog feedbackId
                   ("开始执行 " +:+ pretty (length batch) +:+ " 个任务") Info)
                m)) in
  let s := bothCalls schedule feedbackId batch m0 in
  let r := execute schedule feedbackId batch m in
  backendRun r = back s
  /\ frontendRun r = front s
  /\ writeFailures r = failures s
  /\ answer r
     = match rejection s with
       | Some message => Rejected message
       | None => Fulfilled (valueOf (back s) && valueOf (front s))
       end.
Proof.
  intros m0 s r. subst r. unfold execute.
  rewrite appendLog_alone. fold m0. fold s.
  destruct (rejection s) as [message |]; cbn [backendRun frontendRun
    writeFailures answer]; [auto |].
  rewrite appendLog_alone. cbn [forallb]. rewrite andb_true_r. auto.
Qed.

Lemma bothCalls_rejectionNoted schedule feedbackId batch m :
  rejectionNoted (bothCalls schedule feedbackId batch m).
Proof.
  unfold bothCalls.
  apply completed_rejectionNoted, completed_rejectionNoted,
    interleave_rejectionNoted.
  unfold rejectionNoted. cbn [rejection back front].
  rewrite !noted_None. tauto.
Qed.

(** The call made on a group that can run in full does so, unless one
    of its writes is rejected. *)
Lemma promiseOf_returns config procs feedbackId group groupName :
  enablesClaude config ->
  runnable group ->
  (forall task, task ∈ group -> childSucceeds procs (buildTaskPrompt task)) ->
  returns config procs (promiseOf feedbackId group groupName) (inFull group).
Proof.
  intros Htool [Hpend (l & Hperm & Hl)] Hchild.
  unfold promiseOf. case_bool_decide as Hlen.
  - destruct (SortOrderProps.orderable_sorted group l Hperm Hl)
      as (_ & _ & Hdep).
    pose proof (TaskSortProps.sortTasks_Permutation group) as Hsp.
    unfold executeTaskGroup. unmonad.
    apply (returns_seq _ _ _ _ _ _ (appendLog_returns _ _ _ _ _)).
    intros _ _.
    assert (Hpend' : Forall (fun t => ExecutableTask.status t = Pending)
                       (sortTasksByDependency group)).
    { unfold sortTasksByDependency. now rewrite Hsp. }
    assert (Hchild' : forall task,
               task ∈ sortTasksByDependency group ->
               childSucceeds procs (buildTaskPrompt task)).
    { intros task Hin. apply Hchild.
      unfold sortTasksByDependency in Hin. now rewrite Hsp in Hin. }
    apply (forOf_returns config procs feedbackId
             (sortTasksByDependency group) Htool Hdep Hpend' Hchild'
             (length (tasks (enter group))) 0 (enter group)).
    + cbn [enter tasks]. lia.
    + split; simpl; auto. intros i task Hi. lia.
  - destruct group; [| simpl in Hlen; lia].
    unfold promise. rewrite bool_decide_eq_false_2 by (simpl; lia).
    cbn [returns]. repeat split. constructor.
Qed.

Lemma bothCalls_settled config procs side schedule feedbackId batch m :
  steady config procs m ->
  enablesClaude config ->
  runnable (bucket side batch) ->
  (forall task, task ∈ bucket side batch ->
                childSucceeds procs (buildTaskPrompt task)) ->
  (forall op, (side, op) ∉ failures (bothCalls schedule feedbackId batch m)) ->
  exists g,
    callOf side (bothCalls schedule feedbackId batch m) = Return g
    /\ inFull (bucket side batch) g.
Proof.
  intros Hm Htool Hrun Hchild Hclean. unfold bothCalls in *.
  set (groups := groupTasksByProject batch) in *.
  set (pb := promiseOf feedbackId (TaskGroups.backend groups) "backend") in *.
  set (pf := promiseOf feedbackId (TaskGroups.frontend groups) "frontend") in *.
  destruct (syncPart_keeps config procs pb
              (if side is Back then inFull (bucket side batch)
               else fun _ => True) m
              (promiseOf_sparing _ _ _) Hm) as (B1 & B2 & B3).
  destruct (syncPart_keeps config procs pf
              (if side is Front then inFull (bucket side batch)
               else fun _ => True) (snd (syncPart pb m))
              (promiseOf_sparing _ _ _) B2) as (F1 & F2 & F3).
  apply (settled_onTrack config procs side (inFull (bucket side batch)));
    [| exact Hclean].
  apply interleave_onTrack.
  split; [exact B1 |]. split; [exact F1 |]. split; [exact F2 |].
  intros _. destruct side; cbn [callOf back front].
  - apply B3. now apply promiseOf_returns.
  - apply F3. now apply promiseOf_returns.
Qed.

Lemma valueOf_true p : valueOf p = true <-> returnedTrue p.
Proof.
  unfold valueOf, returnedTrue. split.
  - destruct p as [g | e | op k]; try discriminate.
    destruct (returned g) as [[|] |] eqn:E; try discriminate. eauto.
  - intros (g & -> & ->). reflexivity.
Qed.


(** *** The sample batch: one backend task that fails, two frontend
    tasks whose children succeed *)

Lemma sample_frontend_runnable :
  runnable (bucket Front SampleMachines.batch).
Proof.
  split; [repeat constructor |].
  exists [Samples.taskF1; Samples.taskF2]. split; [reflexivity |].
  intros k task dep Hk Hdep.
  destruct k as [| [| k]]; simpl in Hk; try discriminate Hk;
    injection Hk as <-; simpl in Hdep.
  - now apply elem_of_nil in Hdep.
  - apply list_elem_of_singleton in Hdep. subst dep.
    exists 0, Samples.taskF1. split; [lia |]. split; reflexivity.
Qed.

Lemma sample_frontend_dependable :
  dependable SampleMachines.backendBreaks (bucket Front SampleMachines.batch).
Proof.
  split.
  - exists (SampleWorlds.config [SampleWorlds.tool "claude" "claude" 1]).
    split; [reflexivity |].
    exists (SampleWorlds.tool "claude" "claude" 1).
    split; [apply list_elem_of_singleton; reflexivity |].
    split; reflexivity.
  - intros task Hin n.
    change (bucket Front SampleMachines.batch)
      with [Samples.taskF1; Samples.taskF2] in Hin.
    exists "done"%string, ""%string.
    apply elem_of_cons in Hin as [-> | Hin];
      [| apply list_elem_of_singleton in Hin; subst task];
      split; reflexivity.
Qed.

Lemma sample_backend_fails schedule :
  schedule = overlappingWrites \/ schedule = takingTurns ->
  soleBackendTaskFailed
    (execute schedule SampleMachines.feedbackId SampleMachines.batch
       SampleMachines.backendBreaks).
Proof.
  intros [-> | ->]; eexists _, _;
    (split; [vm_compute; reflexivity |]);
    (split; [reflexivity |]); (split; [reflexivity |]);
    split; reflexivity.
Qed.



End BucketRunProps.
